(** * geoip2cn: the zone extraction pipeline of [ipinfo_lite.py]

    A shallow embedding of the classification rules, the grouping scan, the
    zone file writer and the output phase of [extract_ip_networks], with the
    properties the specification states about them.

    Modelling conventions.
    - Python [str] values are [string]s over the ASCII range: [str.lower] is
      the A-Z folding, [\b] of the [re] module looks at [A-Za-z0-9_], and
      [re.I] compares letters up to that folding. A text with a character
      outside that range has no counterpart here: Python folds and
      classifies such characters by the Unicode tables. Where a
      statement says what [lower] or the matcher does to a text that is
      not fixed, it is made for [is_ascii] texts.
    - A decoded database record is a [value]: the reader yields text,
      integers, booleans, byte strings, arrays and maps.
    - A Python exception is the [Raise] result of the [res] type.
    - The file system is a map from paths to texts with a set of
      directories. It refuses an operation where the oracle [io_fails]
      says so, and the operation then raises [OSError]; a write or a flush
      that is refused leaves a beginning of the file, as long as [io_cut]
      says. A [with] block closes its file however it is left.
    - A [dict] whose iteration order is observed is an association list in
      insertion order; a [dict] only looked up is a [gmap]; a [set] is a
      [gset], enumerated in an order the pipeline does not control. *)

From Stdlib Require Import ZArith Lia List String Ascii Bool.
From stdpp Require Import base decidable option list strings gmap sets sorting.

Local Open Scope string_scope.
Local Open Scope list_scope.

(** ** Python strings *)

Module PyStr.

Definition is_upper (c : ascii) : bool :=
  let n := nat_of_ascii c in (65 <=? n)%nat && (n <=? 90)%nat.

Definition is_lower (c : ascii) : bool :=
  let n := nat_of_ascii c in (97 <=? n)%nat && (n <=? 122)%nat.

Definition is_digit (c : ascii) : bool :=
  let n := nat_of_ascii c in (48 <=? n)%nat && (n <=? 57)%nat.

Definition char_lower (c : ascii) : ascii :=
  if is_upper c then ascii_of_nat (nat_of_ascii c + 32) else c.

(** [str.lower] on an ASCII text: the folding of A-Z. Python lowers a
    character outside that range by the Unicode tables, which this does
    not follow. *)
Fixpoint lower (s : string) : string :=
  match s with
  | EmptyString => EmptyString
  | String c r => String (char_lower c) (lower r)
  end.

(** [sep.join(parts)] *)
Fixpoint join (sep : string) (parts : list string) : string :=
  match parts with
  | [] => EmptyString
  | [p] => p
  | p :: rest => p ++ sep ++ join sep rest
  end.

(** [s[:n]] *)
Fixpoint str_take (n : nat) (s : string) : string :=
  match n, s with
  | S n', String c r => String c (str_take n' r)
  | _, _ => EmptyString
  end.

(** Every character of [s] is in the ASCII range, where [lower] is
    [str.lower] and the matcher of [Re] is the one of [re]. *)
Fixpoint is_ascii (s : string) : bool :=
  match s with
  | EmptyString => true
  | String c r => (nat_of_ascii c <? 128)%nat && is_ascii r
  end.

(** [a] is a beginning of [b]. *)
Definition str_prefix (a b : string) : Prop := ∃ rest, b = (a ++ rest)%string.

(** Truth value of a [str]: non-empty. *)
Definition nonempty (s : string) : bool :=
  match s with EmptyString => false | String _ _ => true end.

(** Decimal text of a non-negative integer, most significant digit first. *)
Fixpoint digits (fuel : nat) (n : N) (acc : string) : string :=
  let d := String (ascii_of_N (48 + n mod 10)) acc in
  match fuel with
  | O => d
  | S fuel' => if (n <? 10)%N then d else digits fuel' (n / 10)%N d
  end.

Definition str_of_N (n : N) : string := digits (N.to_nat (N.log2 n)) n EmptyString.

Definition str_of_Z (z : Z) : string :=
  if (z <? 0)%Z then String "-" (str_of_N (Z.to_N (- z))) else str_of_N (Z.to_N z).

End PyStr.

(** ** The fragment of Python's [re] the keyword pattern uses

    The [re] module is not among the sources. The pattern the source
    builds uses literals, escaped literals, [\b] and [|] only; this is the
    reading the module gives them under [re.I], with [search] looking for
    a match at any position. *)

Module Re.
Import PyStr.

(** One item of a branch: a literal character or the assertion [\b]. *)
Inductive atom := Lit (c : ascii) | WordB.

(** A pattern is an alternation of branches; [|] binds weaker than
    concatenation, so a branch is everything between two bars. *)
Definition branch := list atom.
Definition regex := list branch.

(** Characters [re.escape] puts a backslash before. *)
Definition special_chars : list ascii :=
  list_ascii_of_string "()[]{}?*+-|^$\.&~# "
    ++ [ascii_of_nat 9; ascii_of_nat 10; ascii_of_nat 13; ascii_of_nat 11; ascii_of_nat 12].

Definition is_special (c : ascii) : bool := bool_decide (c ∈ special_chars).

(** [re.escape] *)
Fixpoint escape (s : string) : string :=
  match s with
  | EmptyString => EmptyString
  | String c r =>
      if is_special c then String "\" (String c (escape r)) else String c (escape r)
  end.

(** Operators of the pattern language outside the fragment. *)
Definition is_operator (c : ascii) : bool :=
  bool_decide (c ∈ list_ascii_of_string "()[]{}?*+^$.").

Definition is_alnum (c : ascii) : bool := is_upper c || is_lower c || is_digit c.

(** [\w], among ASCII characters. For a [str] pattern Python counts the
    letters and digits of every script as word characters. *)
Definition is_word (c : ascii) : bool := is_alnum c || bool_decide (c = "_"%char).

Definition snoc_atom (a : atom) (cur : branch) : branch := cur ++ [a].

(** The parser: [cur] is the branch being read, [done] the branches
    closed by a bar so far. [None] for a pattern outside the fragment. *)
Fixpoint parse (s : string) (done : regex) (cur : branch) : option regex :=
  match s with
  | EmptyString => Some (done ++ [cur])
  | String "|" r => parse r (done ++ [cur]) []
  | String "\" (String c r) =>
      if bool_decide (c = "b"%char) then parse r done (snoc_atom WordB cur)
      else if is_alnum c then None
      else parse r done (snoc_atom (Lit c) cur)
  | String "\" EmptyString => None
  | String c r =>
      if is_operator c then None else parse r done (snoc_atom (Lit c) cur)
  end.

(** [re.compile(pattern, re.I)] on the fragment. *)
Definition compile (pattern : string) : option regex := parse pattern [] [].

(** Literal comparison under [re.I], between ASCII characters. Python
    also lets a few characters outside that range match [s], [i] and [k]. *)
Definition ci_eq (c d : ascii) : bool := bool_decide (char_lower c = char_lower d).

Definition is_word_opt (c : option ascii) : bool :=
  match c with Some c => is_word c | None => false end.

Definition head_char (s : string) : option ascii :=
  match s with EmptyString => None | String c _ => Some c end.

(** [\b]: exactly one of the two neighbours is a word character; the
    start and the end of the text count as non-word. *)
Definition at_boundary (prev : option ascii) (s : string) : bool :=
  xorb (is_word_opt prev) (is_word_opt (head_char s)).

(** Does branch [b] match starting here, [prev] being the character
    before the position and [s] the rest of the text? *)
Fixpoint match_here (b : branch) (prev : option ascii) (s : string) : bool :=
  match b with
  | [] => true
  | WordB :: b' => at_boundary prev s && match_here b' prev s
  | Lit c :: b' =>
      match s with
      | EmptyString => false
      | String d s' => ci_eq c d && match_here b' (Some d) s'
      end
  end.

Fixpoint search_from (r : regex) (prev : option ascii) (s : string) : bool :=
  existsb (fun b => match_here b prev s) r
  || match s with
     | EmptyString => false
     | String d s' => search_from r (Some d) s'
     end.

(** [bool(regex.search(s))] *)
Definition search (r : regex) (s : string) : bool := search_from r None s.

End Re.

(** ** The AS-domain rule table and the keyword pattern *)

Module Rules.
Import PyStr.

Record AsDomain := mkAsDomain {
  domain : string;
  is_filter : bool;
  use_as_name : bool
}.

(** [AsDomain(d)] with the dataclass defaults. *)
Definition rule (d : string) : AsDomain := mkAsDomain d true false.
(** [AsDomain(d, use_as_name=True)] *)
Definition rule_named (d : string) : AsDomain := mkAsDomain d true true.

Definition AS_DOMAINS : list AsDomain :=
  [ rule "10086.cn"; rule "chinamobile.com"; rule "chinaunicom.cn"; rule "189.cn";
    rule_named "chinatelecom.cn"; rule_named "chinatelecom.com.cn";
    rule "360.cn"; rule "360.net"; rule "baidu.com"; rule "qq.com";
    rule "tencent.com"; rule "huawei.com"; rule "huaweicloud.com";
    rule "alibabacloud.com"; rule "alibabagroup.com"; rule "bytedance.com";
    rule "volcengine.com" ].

(** [{v.domain: v for v in AS_DOMAINS}]: a later entry replaces an earlier
    one with the same domain. *)
Definition AS_DOMAIN_KV : gmap string AsDomain :=
  foldl (fun m v => <[domain v := v]> m) ∅ AS_DOMAINS.

Definition AS_NAME_KEYWORDS : list string :=
  [ "Beijing"; "Tianjin"; "Hebei"; "Jiangsu"; "Nanjing"; "Sichuan"; "SHAANXI";
    "Xiamen"; "Shandong"; "Qingdao"; "Jinan"; "Guizhou"; "Guangdong"; "NINGXIA";
    "Yunnan"; "Cloud Computing Corporation" ].

(** The text handed to [re.compile]:
    [rf"\b{'|'.join(re.escape(x) for x in AS_NAME_KEYWORDS)}\b"]. *)
Definition AS_NAME_PATTERN : string :=
  "\b" ++ join "|" (map Re.escape AS_NAME_KEYWORDS) ++ "\b".

Definition REGEX_AS_NAME : Re.regex := default [] (Re.compile AS_NAME_PATTERN).

End Rules.

(** ** Results of code that can raise *)

Inductive exn := AttributeError | TypeError | ValueError | OSError.

Inductive res (A : Type) := Ok (a : A) | Raise (e : exn).
Arguments Ok {A} a.
Arguments Raise {A} e.

Definition res_bind {A B} (r : res A) (k : A -> res B) : res B :=
  match r with Ok a => k a | Raise e => Raise e end.

Definition raised {A} (r : res A) : bool :=
  match r with Ok _ => false | Raise _ => true end.

(** ** The record classifier, [IPInfo] *)

Module Classifier.
Import PyStr Rules.

(** What the database reader decodes a record (or a field of it) to. *)
#[local] Unset Elimination Schemes.
Inductive value :=
| VStr (s : string)
| VInt (z : Z)
| VBool (b : bool)
| VBytes (b : list ascii)
| VArray (l : list value)
| VMap (m : list (string * value)).
#[local] Set Elimination Schemes.

(** The dataclass does not check field types: a field holds whatever the
    record had under its name. *)
Record IPInfo := mkIPInfo {
  continent : value;
  continent_code : value;
  country : value;
  country_code : value;
  as_domain : value;
  as_name : value;
  asn : value
}.

(** [{f.name for f in fields(cls)}] *)
Definition names : list string :=
  [ "continent"; "continent_code"; "country"; "country_code";
    "as_domain"; "as_name"; "asn" ].

(** A keyword argument of the constructor call on [items], or the field
    default. [items] lists a [dict], so no key occurs twice in it. *)
Fixpoint kwarg (items : list (string * value)) (name : string) : value :=
  match items with
  | [] => VStr EmptyString
  | (k, v) :: rest => if decide (k = name) then v else kwarg rest name
  end.

(** [IPInfo.from_dict]: [data.items()] exists on a map only. *)
Definition from_dict (data : value) : res IPInfo :=
  match data with
  | VMap m =>
      let items := filter (fun kv => kv.1 ∈ names) m in
      Ok {| continent := kwarg items "continent";
            continent_code := kwarg items "continent_code";
            country := kwarg items "country";
            country_code := kwarg items "country_code";
            as_domain := kwarg items "as_domain";
            as_name := kwarg items "as_name";
            asn := kwarg items "asn" |}
  | _ => Raise AttributeError
  end.

(** [v == s] for a text constant [s]. *)
Definition eq_str (v : value) (s : string) : bool :=
  match v with VStr t => bool_decide (t = s) | _ => false end.

(** Truth value of a decoded value. *)
Definition truthy (v : value) : bool :=
  match v with
  | VStr s => nonempty s
  | VInt z => negb (z =? 0)%Z
  | VBool b => b
  | VBytes b => match b with [] => false | _ => true end
  | VArray l => match l with [] => false | _ => true end
  | VMap m => match m with [] => false | _ => true end
  end.

(** [AS_DOMAIN_KV.get(v)]: arrays and maps are unhashable; a hashable
    value that is not text equals no key of the table. *)
Definition kv_get (v : value) : res (option AsDomain) :=
  match v with
  | VStr s => Ok (AS_DOMAIN_KV !! s)
  | VArray _ | VMap _ => Raise TypeError
  | _ => Ok None
  end.

(** [REGEX_AS_NAME.search(v)] takes text only. *)
Definition regex_search (v : value) : res bool :=
  match v with
  | VStr s => Ok (Re.search REGEX_AS_NAME s)
  | _ => Raise TypeError
  end.

Definition is_cn (ip : IPInfo) : bool := eq_str (country_code ip) "CN".

Definition is_filter_domain (ip : IPInfo) : res bool :=
  if truthy (as_domain ip) then
    res_bind (kv_get (as_domain ip)) (fun o =>
      match o with
      | Some obj =>
          if is_filter obj then
            if use_as_name obj then regex_search (as_name ip) else Ok true
          else Ok false
      | None => Ok false
      end)
  else Ok false.

(** [v.lower()], for the fields the scan lowers. *)
Definition value_lower (v : value) : res string :=
  match v with
  | VStr s => Ok (lower s)
  | _ => Raise AttributeError
  end.

(** A record all of whose recognised fields are text. *)
Definition text_info (cc dom name : string) : IPInfo :=
  {| continent := VStr EmptyString; continent_code := VStr EmptyString;
     country := VStr EmptyString; country_code := VStr cc;
     as_domain := VStr dom; as_name := VStr name; asn := VStr EmptyString |}.

(** The condition the specification gives for [is_filtered_domain], with
    the rule looked up under the lower-cased domain. *)
Definition spec_filtered (dom name : string) : Prop :=
  dom ≠ EmptyString ∧
  ∃ obj, AS_DOMAIN_KV !! lower dom = Some obj ∧ is_filter obj = true ∧
         (use_as_name obj = false ∨ Re.search REGEX_AS_NAME name = true).

(** The same condition with the rule looked up under the domain as the
    record has it, which is what the code does. *)
Definition code_filtered (dom name : string) : Prop :=
  dom ≠ EmptyString ∧
  ∃ obj, AS_DOMAIN_KV !! dom = Some obj ∧ is_filter obj = true ∧
         (use_as_name obj = false ∨ Re.search REGEX_AS_NAME name = true).

End Classifier.

(** ** IP networks *)

Module Net.
Import PyStr.
Local Open Scope Z_scope.

Inductive family := V4 | V6.

(** An [IPv4Network] or [IPv6Network]: base address and prefix length. *)
Record IPNetwork := mkNet {
  version : family;
  network_address : Z;
  prefixlen : Z
}.

Definition version_number (f : family) : Z :=
  match f with V4 => 4 | V6 => 6 end.

Definition max_prefixlen (f : family) : Z :=
  match f with V4 => 32 | V6 => 128 end.

Definition hostbits (n : IPNetwork) : Z := max_prefixlen (version n) - prefixlen n.

Definition num_addresses (n : IPNetwork) : Z := 2 ^ hostbits n.

Definition broadcast_address (n : IPNetwork) : Z :=
  network_address n + num_addresses n - 1.

(** A well-formed network: the prefix length fits the family, the base
    address is in range and has no host bit set. *)
Definition valid (n : IPNetwork) : Prop :=
  0 <= prefixlen n <= max_prefixlen (version n) ∧
  0 <= network_address n < 2 ^ max_prefixlen (version n) ∧
  network_address n mod num_addresses n = 0.

(** Address [a] lies in network [n]. *)
Definition contains (n : IPNetwork) (a : Z) : Prop :=
  network_address n <= a <= broadcast_address n.

(** Some network of [l] covers address [a]. *)
Definition covers (l : list IPNetwork) (a : Z) : Prop :=
  ∃ n, n ∈ l ∧ contains n a.

Definition overlap (x y : IPNetwork) : Prop :=
  ∃ a, contains x a ∧ contains y a.

(** [z] covers exactly the addresses of [x] and [y] together. *)
Definition is_union (z x y : IPNetwork) : Prop :=
  ∀ a, contains z a ↔ contains x a ∨ contains y a.

Global Instance family_eq_dec : EqDecision family.
Proof. solve_decision. Defined.

Global Instance IPNetwork_eq_dec : EqDecision IPNetwork.
Proof. solve_decision. Defined.

Definition to_tuple (n : IPNetwork) : Z * Z * Z :=
  (version_number (version n), network_address n, prefixlen n).

Definition of_tuple (t : Z * Z * Z) : IPNetwork :=
  let '(v, a, p) := t in mkNet (if decide (v = 4) then V4 else V6) a p.

Global Instance IPNetwork_countable : Countable IPNetwork.
Proof.
  apply (inj_countable' to_tuple of_tuple).
  intros [[] a p]; reflexivity.
Defined.

(** *** Text form, [str(net)]

    Modelled from the spec: the text form is made by the [ipaddress]
    module, which is not among the sources. The specification asks for
    canonical CIDR text, [address/prefixlen]: dotted quad for IPv4, and
    for IPv6 lower-case hexadecimal groups with the longest run of zero
    groups compressed. *)

Definition hex_digit (d : N) : ascii :=
  if (d <? 10)%N then ascii_of_N (48 + d) else ascii_of_N (87 + d).

Fixpoint hex_digits (fuel : nat) (n : N) (acc : string) : string :=
  let d := String (hex_digit (n mod 16)) acc in
  match fuel with
  | O => d
  | S fuel' => if (n <? 16)%N then d else hex_digits fuel' (n / 16)%N d
  end.

(** ['%x' % n] *)
Definition hex_of_N (n : N) : string := hex_digits (N.to_nat (N.log2 n)) n EmptyString.

Definition octet (a : Z) (i : Z) : Z := Z.land (Z.shiftr a (8 * i)) 255.

(** Dotted quad of an IPv4 address. *)
Definition str_v4 (a : Z) : string :=
  join "." (map (fun i => str_of_Z (octet a i)) [3; 2; 1; 0]).

Definition hextet (a : Z) (i : Z) : string :=
  hex_of_N (Z.to_N (Z.land (Z.shiftr a (16 * i)) 65535)).

(** Scan state of [_compress_hextets]: best start, best length, current
    start, current length; a start of [-1] means none. *)
Definition zero_run_step (st : Z * Z * Z * Z) (ih : Z * string) : Z * Z * Z * Z :=
  let '(best_start, best_len, cur_start, cur_len) := st in
  let '(index, h) := ih in
  if decide (h = "0") then
    let cur_len := cur_len + 1 in
    let cur_start := if cur_start =? -1 then index else cur_start in
    if best_len <? cur_len then (cur_start, cur_len, cur_start, cur_len)
    else (best_start, best_len, cur_start, cur_len)
  else (best_start, best_len, -1, 0).

Definition enumerate {A} (l : list A) : list (Z * A) :=
  imap (fun i x => (Z.of_nat i, x)) l.

(** [_compress_hextets]: the longest run of zero groups, the leftmost of
    equally long ones, becomes one empty group when longer than one. *)
Definition compress_hextets (hextets : list string) : list string :=
  let '(best_start, best_len, _, _) :=
    foldl zero_run_step (-1, 0, -1, 0) (enumerate hextets) in
  if 1 <? best_len then
    let best_end := best_start + best_len in
    let hextets :=
      if best_end =? Z.of_nat (length hextets)
      then hextets ++ [EmptyString] else hextets in
    let hextets :=
      take (Z.to_nat best_start) hextets ++ [EmptyString]
        ++ drop (Z.to_nat best_end) hextets in
    if best_start =? 0 then EmptyString :: hextets else hextets
  else hextets.

Definition str_v6 (a : Z) : string :=
  join ":" (compress_hextets (map (hextet a) [7; 6; 5; 4; 3; 2; 1; 0])).

(** [str(net)]: address, a slash, the prefix length. *)
Definition net_str (n : IPNetwork) : string :=
  (match version n with V4 => str_v4 | V6 => str_v6 end) (network_address n)
    ++ "/" ++ str_of_Z (prefixlen n).

(** [f"ipv{net.version}"] *)
Definition ipv (n : IPNetwork) : string :=
  "ipv" ++ str_of_Z (version_number (version n)).

End Net.

(** ** The range collapser

    Modelled from the spec: [ipaddress.collapse_addresses] belongs to the
    Python standard library and is not among the sources. The definitions
    of this module follow the algorithm section 4.4 of the specification
    describes. *)

Module Collapse.
Import Net.
Local Open Scope Z_scope.

(** Sort order of networks: family, then base address, then prefix
    length. *)
Definition net_le (a b : IPNetwork) : Prop :=
  version_number (version a) < version_number (version b) ∨
  (version a = version b ∧
   (network_address a < network_address b ∨
    (network_address a = network_address b ∧ prefixlen a <= prefixlen b))).

Global Instance net_le_dec a b : Decision (net_le a b).
Proof. unfold net_le. apply _. Defined.

(** [a] is a subset of [b]. *)
Definition subnet_of (a b : IPNetwork) : bool :=
  bool_decide (version a = version b)
  && (network_address b <=? network_address a)
  && (broadcast_address a <=? broadcast_address b).

(** The block one bit shorter that contains [a]. *)
Definition supernet (a : IPNetwork) : IPNetwork :=
  {| version := version a;
     network_address := network_address a - network_address a mod (2 * num_addresses a);
     prefixlen := prefixlen a - 1 |}.

(** [a] and [b] have the same length and are the low and the high half of
    their common parent. *)
Definition siblings (a b : IPNetwork) : bool :=
  bool_decide (version a = version b)
  && (prefixlen a =? prefixlen b)
  && (0 <? prefixlen a)
  && (network_address a mod (2 * num_addresses a) =? 0)
  && (network_address b =? network_address a + num_addresses a).

(** Modelled from the spec: the merge rule on an adjacent pair. A subset
    is dropped, two siblings become their parent. *)
Definition merge2 (a b : IPNetwork) : option IPNetwork :=
  if subnet_of b a then Some a
  else if subnet_of a b then Some b
  else if siblings a b then Some (supernet a)
  else None.

(** Modelled from the spec: one pass over the list, merging adjacent
    pairs from the left. *)
Fixpoint merge_pass (l : list IPNetwork) : list IPNetwork :=
  match l with
  | [] => []
  | a :: t =>
      match t with
      | [] => [a]
      | b :: r =>
          match merge2 a b with
          | Some c => c :: merge_pass r
          | None => a :: merge_pass t
          end
      end
  end.

(** Modelled from the spec: passes are repeated until one merges nothing.
    A pass that merges shortens the list, so [length l] passes are
    enough. *)
Fixpoint merge_until_stable (fuel : nat) (l : list IPNetwork) : list IPNetwork :=
  match fuel with
  | O => l
  | S fuel' =>
      let l' := merge_pass l in
      if (length l' =? length l)%nat then l else merge_until_stable fuel' l'
  end.

(** Modelled from the spec: the collapser is [ipaddress.collapse_addresses]
    of the Python standard library, which is not among the sources. The
    specification gives its algorithm: sort by (base address, prefix
    length), then repeatedly merge adjacent pairs where one network is a
    subset of the other or the two are sibling halves of a common parent,
    until no merge applies. *)
Definition collapse_addresses (networks : list IPNetwork) : list IPNetwork :=
  merge_until_stable (length networks) (merge_sort net_le networks).

(** No adjacent pair of [l] can be merged. *)
Fixpoint stable (l : list IPNetwork) : Prop :=
  match l with
  | [] => True
  | a :: t =>
      match t with
      | [] => True
      | b :: _ => merge2 a b = None ∧ stable t
      end
  end.

(** A well-formed network of family [v]. *)
Definition good (v : family) (n : IPNetwork) : Prop := valid n ∧ version n = v.

(** Ascending base addresses, not necessarily strictly. *)
Definition addr_le (a b : IPNetwork) : Prop := network_address a <= network_address b.

(** [a] ends before [b] starts; both are non-empty ranges. *)
Definition before (a b : IPNetwork) : Prop :=
  network_address a <= broadcast_address a
  ∧ broadcast_address a < network_address b
  ∧ network_address b <= broadcast_address b.

End Collapse.

(** ** State that survives an exception *)

Module StateExn.

(** A computation on a mutable store [S]: what it returns or raises, and
    the store it leaves. An exception does not undo earlier updates. *)
Definition M (S A : Type) : Type := S -> res A * S.

Definition ret {S A} (a : A) : M S A := fun s => (Ok a, s).

Definition bind {S A B} (m : M S A) (k : A -> M S B) : M S B :=
  fun s => match m s with
           | (Ok a, s') => k a s'
           | (Raise e, s') => (Raise e, s')
           end.

Definition throw {S A} (e : exn) : M S A := fun s => (Raise e, s).

Definition lift {S A} (r : res A) : M S A := fun s => (r, s).

Definition gets {S A} (f : S -> A) : M S A := fun s => (Ok (f s), s).

Definition modify {S} (f : S -> S) : M S unit := fun s => (Ok tt, f s).

(** [for x in l: body(x)] *)
Fixpoint for_each {S A} (l : list A) (body : A -> M S unit) : M S unit :=
  match l with
  | [] => ret tt
  | x :: rest => bind (body x) (fun _ => for_each rest body)
  end.

(** [m], and [c] after it when [m] raises: what a [with] block does when
    an exception leaves it. An exception of [c] replaces the one of [m]. *)
Definition on_raise {S A} (m : M S A) (c : M S unit) : M S A :=
  fun s => match m s with
           | (Ok a, s1) => (Ok a, s1)
           | (Raise e, s1) =>
               match c s1 with
               | (Ok _, s2) => (Raise e, s2)
               | (Raise e', s2) => (Raise e', s2)
               end
           end.

(** [try: m finally: c] *)
Definition finally {S A} (m : M S A) (c : M S unit) : M S A :=
  bind (on_raise m c) (fun a => bind c (fun _ => ret a)).

(** [try: m except Exception: continue], as a loop body. *)
Definition try_continue {S} (m : M S unit) : M S unit :=
  fun s => (Ok tt, (m s).2).

Module Notations.
Notation "'do' x <- m ; k" := (bind m (fun x => k))
  (at level 10, x name, m at level 100, k at level 200).
Notation "m ;; k" := (bind m (fun _ => k))
  (at level 100, k at level 200, right associativity).
End Notations.

End StateExn.

(** ** The zone file writer *)

Module Zone.
Import PyStr Net StateExn StateExn.Notations.

(** A path below [DATA_DIR], as its components. *)
Definition path := list string.

(** [Saved {count} networks to {zone_file}] of the main logger. *)
Record log_entry := Saved { saved_count : nat; saved_to : path }.

Record fs := mkFs {
  files : gmap path string;
  dirs : gset path;
  log : list log_entry
}.

(** What a Python call hands back. *)
Inductive pyret := PyNone | PyInt (n : Z).

Definition newline : string := String (ascii_of_nat 10) EmptyString.

Definition parent (p : path) : path := removelast p.

Definition exists_path (p : path) (s : fs) : bool :=
  bool_decide (p ∈ dirs s) || bool_decide (is_Some (files s !! p)).

Definition set_files (f : gmap path string -> gmap path string) (s : fs) : fs :=
  mkFs (f (files s)) (dirs s) (log s).

Definition add_dirs (d : list path) (s : fs) : fs :=
  mkFs (files s) (list_to_set d ∪ dirs s) (log s).

Definition add_log (e : log_entry) (s : fs) : fs :=
  mkFs (files s) (dirs s) (log s ++ [e]).

(** The directories from [DATA_DIR], the empty path, down to [p]. *)
Definition ancestors (p : path) : list path :=
  map (fun n => take n p) (seq 0 (S (length p))).

(** The operations the file system can refuse, each with [OSError]. *)
Inductive io_op :=
| Mkdir
| OpenW
| Write
| Close
| OpenR.

(** The text of a zone file: one network per line. *)
Definition zone_text (networks : list IPNetwork) : string :=
  foldr (fun n acc => (net_str n ++ newline ++ acc)%string) EmptyString networks.

(** The texts of [texts], one after the other. *)
Definition concat_str (texts : list string) : string :=
  foldr String.append EmptyString texts.

(** The state [ensure_file_dir_exists] leaves when it does not raise. *)
Definition ensured (file_path : path) (s : fs) : fs :=
  if exists_path (parent file_path) s then s
  else add_dirs (ancestors (parent file_path)) s.

(** [m] leaves every file outside [P] as it was, whether it raises or
    not. *)
Definition only_writes {A} (m : M fs A) (P : path -> Prop) : Prop :=
  ∀ s p, ¬ P p → files (m s).2 !! p = files s !! p.

Section Writer.
(** What the file system refuses: [os.mkdir] of a directory, [open(p, "w")],
    a [write] to a file, the flush when a file is closed, [open(p, "r")]
    and the reads that follow it. *)
Variable io_fails : io_op -> path -> bool.

(** How many characters of a file are left when a write to it or the
    flush at its close fails. *)
Variable io_cut : path -> nat.

(** A directory a [mkdir] with parents gets past: it is there, or the
    file system lets it be made. *)
Definition passable (s : fs) (d : path) : Prop :=
  d ∈ dirs s ∨ io_fails Mkdir d = false.

(** Every directory from [DATA_DIR] down to [p] is there or can be
    made. *)
Definition can_mkdir (p : path) (s : fs) : Prop :=
  Forall (passable s) (ancestors p).

(** The directory of [file_path] is there or can be made, the file can
    be opened for writing, written to and closed. *)
Definition can_write (file_path : path) (s : fs) : Prop :=
  (exists_path (parent file_path) s = true ∨ can_mkdir (parent file_path) s)
  ∧ io_fails OpenW file_path = false
  ∧ io_fails Write file_path = false
  ∧ io_fails Close file_path = false.

(** What a call of [save_zone_file] needs to return: as [can_write],
    but with no network there is no write that could fail. *)
Definition can_save (file_path : path) (networks : list IPNetwork) (s : fs) : Prop :=
  (exists_path (parent file_path) s = true ∨ can_mkdir (parent file_path) s)
  ∧ io_fails OpenW file_path = false
  ∧ (networks = [] ∨ io_fails Write file_path = false)
  ∧ io_fails Close file_path = false.

(** One [os.mkdir] of [p.mkdir(parents=True, exist_ok=True)]: a directory
    that is there is left alone. *)
Definition mkdir_step (d : path) : M fs unit :=
  do there <- gets (fun s => bool_decide (d ∈ dirs s));
  if there then ret tt
  else if io_fails Mkdir d then throw OSError
  else modify (add_dirs [d]).

(** [p.mkdir(parents=True, exist_ok=True)]: the missing directories are
    made from the top down; the first that cannot be made ends the call,
    and those made before it stay. *)
Definition mkdir_parents (p : path) : M fs unit :=
  for_each (ancestors p) mkdir_step.

Definition ensure_file_dir_exists (file_path : path) : M fs unit :=
  do ex <- gets (exists_path (parent file_path));
  if ex then ret tt else mkdir_parents (parent file_path).

(** [open(p, "w")]: the file is created or emptied. *)
Definition open_w (p : path) : M fs unit :=
  if io_fails OpenW p then throw OSError
  else modify (set_files (insert p EmptyString)).

(** [f.write(text)] on a file open for writing. A write that fails
    leaves a part of what the file was to hold. *)
Definition write (p : path) (text : string) : M fs unit :=
  do old <- gets (fun s => default EmptyString (files s !! p));
  if io_fails Write p then
    modify (set_files (insert p (str_take (io_cut p) (old ++ text)))) ;;
    throw OSError
  else modify (set_files (insert p (old ++ text)%string)).

(** The close of a file open for writing: the flush of what was written
    can fail, and then a part of it is lost. *)
Definition close_w (p : path) : M fs unit :=
  if io_fails Close p then
    modify (set_files
      (fun m => <[p := str_take (io_cut p) (default EmptyString (m !! p))]> m)) ;;
    throw OSError
  else ret tt.

(** [with open(p, "w") as f: body]: the file is closed when the block is
    left, by an exception too. *)
Definition with_open_w {A} (p : path) (body : M fs A) : M fs A :=
  open_w p ;; finally body (close_w p).

(** The loop of [save_zone_file], with its counter. *)
Fixpoint write_lines (p : path) (networks : list IPNetwork) (count : nat)
  : M fs nat :=
  match networks with
  | [] => ret count
  | net :: rest =>
      write p (net_str net ++ newline)%string ;;
      write_lines p rest (S count)
  end.

Definition save_zone_file (zone_file : path) (networks : list IPNetwork)
  : M fs pyret :=
  ensure_file_dir_exists zone_file ;;
  do count <- with_open_w zone_file (write_lines zone_file networks 0);
  modify (add_log (Saved count zone_file)) ;;
  ret PyNone.

(** [open(p, "r").read()] *)
Definition read (p : path) : M fs string :=
  if io_fails OpenR p then throw OSError
  else
    do c <- gets (fun s => files s !! p);
    match c with Some text => ret text | None => throw OSError end.

(** [shutil.copyfileobj(open(src, "r"), dst)], [dst] open for writing:
    nothing is written when [src] is empty. *)
Definition copyfileobj (src dst : path) : M fs unit :=
  do text <- read src;
  if nonempty text then write dst text else ret tt.

End Writer.

End Zone.

(** ** The pipeline driver, [extract_ip_networks] *)

Module Pipeline.
Import PyStr Rules Classifier Net Collapse StateExn StateExn.Notations Zone.

(** [defaultdict(set)], keyed by ["ipv4"] and ["ipv6"]. *)
Abbreviation by_version := (gmap string (gset IPNetwork)).

(** [defaultdict(lambda: defaultdict(set))]: the keys in the order they
    were first used, which is the order [items()] visits them in. *)
Definition table := list (string * by_version).

Record groups := mkGroups { countries : table; domains : table }.

Definition no_groups : groups := mkGroups [] [].

(** [inner[ipv].add(net)] *)
Definition inner_add (ipv : string) (net : IPNetwork) (m : by_version) : by_version :=
  <[ipv := {[net]} ∪ default ∅ (m !! ipv)]> m.

(** [tbl[key][ipv].add(net)]: a missing key is appended. *)
Fixpoint table_add (key ipv : string) (net : IPNetwork) (tbl : table) : table :=
  match tbl with
  | [] => [(key, inner_add ipv net ∅)]
  | (k, m) :: rest =>
      if decide (k = key) then (k, inner_add ipv net m) :: rest
      else (k, m) :: table_add key ipv net rest
  end.

Definition add_country (key ipv : string) (net : IPNetwork) (g : groups) : groups :=
  mkGroups (table_add key ipv net (countries g)) (domains g).

Definition add_domain (key ipv : string) (net : IPNetwork) (g : groups) : groups :=
  mkGroups (countries g) (table_add key ipv net (domains g)).

Definition ip_versions : list string := ["ipv4"; "ipv6"].

Definition zone_path (kind version key : string) : path :=
  [kind; version; (key ++ ".zone")%string].

Definition aggregated_path (version : string) : path :=
  ["domains"; version; "aggregated.zone"].

(** The keys of [tbl] that have a group for [version], in the order the
    table is visited. *)
Fixpoint visited (version : string) (tbl : table) : list string :=
  match tbl with
  | [] => []
  | (key, ip_networks) :: rest =>
      match ip_networks !! version with
      | Some _ => key :: visited version rest
      | None => visited version rest
      end
  end.

(** The keys a domain group can have: the lower-cased domains of the
    rule table. *)
Definition domain_keys : list string := map (fun r => lower (domain r)) AS_DOMAINS.

(** What holds of the tables throughout the scan. *)
Definition tables_ok (g : groups) : Prop :=
  NoDup (countries g).*1 ∧ (∀ c, c ∈ (countries g).*1 → c = "cn")
  ∧ NoDup (domains g).*1 ∧ (∀ d, d ∈ (domains g).*1 → d ∈ domain_keys).

(** The files the pass of [version] can write, given the tables. *)
Definition targets (g : groups) (version : string) (p : path) : Prop :=
  (∃ c, c ∈ (countries g).*1 ∧ p = zone_path "countries" version c)
  ∨ (∃ d, d ∈ (domains g).*1 ∧ p = zone_path "domains" version d)
  ∨ p = aggregated_path version.

(** A step of the output phase. *)
Inductive job :=
| SaveCountry (version : string) (entry : string * by_version)
| OpenAggregated (version : string)
| SaveDomain (version : string) (entry : string * by_version)
| CloseAggregated (version : string).

Definition jobs_of (g : groups) (version : string) : list job :=
  map (SaveCountry version) (countries g)
    ++ OpenAggregated version :: map (SaveDomain version) (domains g)
    ++ [CloseAggregated version].

(** The steps in the order the two nested loops take them. *)
Definition jobs (g : groups) : list job := concat (map (jobs_of g) ip_versions).

Section Driver.
(** [ipaddress.ip_network] on a key of the reader; [Raise] when the key
    is not the text of an IPv4 or IPv6 network. Both results are
    instances of the two network classes, so the [isinstance] test that
    follows the call in the source never takes its [continue]. *)
Variable ip_network : string -> res IPNetwork.

(** The order in which the set of group (kind, key, version) yields its
    members when it is iterated. *)
Variable set_iter : string -> string -> string -> gset IPNetwork -> list IPNetwork.

Variable io_fails : io_op -> path -> bool.
Variable io_cut : path -> nat.

(** The body of the [try] in the record loop. The line it sends to the
    record log does not touch the tables and is left out. *)
Definition observe (network : string) (record : value) : M groups unit :=
  do ip <- lift (from_dict record);
  if is_cn ip then
    do net <- lift (ip_network network);
    let ipv := Net.ipv net in
    do cc <- lift (value_lower (country_code ip));
    modify (add_country cc ipv net) ;;
    do fd <- lift (is_filter_domain ip);
    if fd then
      do d <- lift (value_lower (as_domain ip));
      modify (add_domain d ipv net)
    else ret tt
  else ret tt.

(** The record loop. *)
Definition scan (db : list (string * value)) : M groups unit :=
  for_each db (fun kv => try_continue (observe kv.1 kv.2)).

(** The tables the scan of [db] leaves. *)
Definition scan_groups (db : list (string * value)) : groups :=
  (scan db no_groups).2.

(** The collapsed networks of one group. *)
Definition group_networks (kind key version : string) (s : gset IPNetwork)
  : list IPNetwork :=
  collapse_addresses (set_iter kind key version s).

Definition country_body (version : string) (entry : string * by_version)
  : M fs unit :=
  let '(c, ip_networks) := entry in
  match ip_networks !! version with
  | Some s =>
      save_zone_file io_fails io_cut (zone_path "countries" version c)
        (group_networks "countries" c version s) ;;
      ret tt
  | None => ret tt
  end.

Definition domain_body (version : string) (entry : string * by_version)
  : M fs unit :=
  let '(d, ip_networks) := entry in
  match ip_networks !! version with
  | Some s =>
      let zone_file := zone_path "domains" version d in
      save_zone_file io_fails io_cut zone_file
        (group_networks "domains" d version s) ;;
      copyfileobj io_fails io_cut zone_file (aggregated_path version)
  | None => ret tt
  end.

(** The domain loop of one version, inside [with open(..., "w") as af]. *)
Definition domain_pass (version : string) (doms : table) : M fs unit :=
  ensure_file_dir_exists io_fails (aggregated_path version) ;;
  with_open_w io_fails io_cut (aggregated_path version)
    (for_each doms (domain_body version)).

Definition version_pass (g : groups) (version : string) : M fs unit :=
  for_each (countries g) (country_body version) ;;
  domain_pass version (domains g).

(** The output phase. *)
Definition output_phase (g : groups) : M fs unit :=
  for_each ip_versions (version_pass g).

Definition extract_ip_networks (db : list (string * value)) : M fs unit :=
  output_phase (scan_groups db).

(** A record that cannot be turned into an [IPInfo], or whose key is
    not a network. *)
Definition unusable (network : string) (record : value) : Prop :=
  raised (from_dict record) = true ∨ raised (ip_network network) = true.

(** The domains visited for [version], each with the text of its zone
    file. *)
Fixpoint domain_texts (version : string) (doms : table) : list (string * string) :=
  match doms with
  | [] => []
  | (d, ip_networks) :: rest =>
      match ip_networks !! version with
      | Some st =>
          (d, zone_text (group_networks "domains" d version st))
            :: domain_texts version rest
      | None => domain_texts version rest
      end
  end.

(** What a step does. A step of the domain loop runs inside the [with]
    block of the aggregated file: when it raises, the block closes the
    file on the way out. *)
Definition run_job (j : job) : M fs unit :=
  match j with
  | SaveCountry version entry => country_body version entry
  | OpenAggregated version =>
      ensure_file_dir_exists io_fails (aggregated_path version) ;;
      open_w io_fails (aggregated_path version)
  | SaveDomain version entry =>
      on_raise (domain_body version entry)
        (close_w io_fails io_cut (aggregated_path version))
  | CloseAggregated version => close_w io_fails io_cut (aggregated_path version)
  end.

End Driver.

End Pipeline.

(** ** A small database for the examples *)

Module Sample.
Import Classifier Net Zone.
Local Open Scope Z_scope.

Definition v4 (a b c d p : Z) : IPNetwork :=
  mkNet V4 (a * 2 ^ 24 + b * 2 ^ 16 + c * 2 ^ 8 + d) p.

(** A reader key parser that knows four networks. *)
Definition ip_network (key : string) : res IPNetwork :=
  if decide (key = "1.0.1.0/24") then Ok (v4 1 0 1 0 24)
  else if decide (key = "1.0.0.0/24") then Ok (v4 1 0 0 0 24)
  else if decide (key = "1.0.2.0/23") then Ok (v4 1 0 2 0 23)
  else if decide (key = "2001:db8::/32")
       then Ok (mkNet V6 (8193 * 2 ^ 112 + 3512 * 2 ^ 96) 32)
  else Raise ValueError.

Definition record (cc dom name : string) : value :=
  VMap [("country_code", VStr cc); ("as_domain", VStr dom); ("as_name", VStr name)].

(** A record whose AS name is a number. *)
Definition odd_record : value :=
  VMap [("country_code", VStr "CN"); ("as_domain", VStr "chinatelecom.cn");
        ("as_name", VInt 7)].

Definition db : list (string * value) :=
  [ ("1.0.1.0/24", record "CN" "qq.com" "Tencent");
    ("no network", record "CN" "qq.com" "Tencent");
    ("1.0.0.0/24", record "CN" "baidu.com" "Baidu");
    ("1.0.2.0/23", record "CN" "chinatelecom.cn" "Jiangsu Telecom");
    ("1.0.2.0/23", record "US" "chinatelecom.cn" "Jiangsu Telecom");
    ("2001:db8::/32", record "CN" "example.org" "Example") ].

Definition networks : list IPNetwork :=
  [ v4 1 0 1 0 24; v4 1 0 0 0 25; v4 1 0 0 128 25; v4 1 0 2 0 23; v4 10 0 0 0 8 ].

(** Sets yield their members in the order of [elements]. *)
Definition set_iter (kind key version : string) (s : gset IPNetwork) : list IPNetwork :=
  elements s.

(** The same members, in the opposite order. *)
Definition set_iter_rev (kind key version : string) (s : gset IPNetwork)
  : list IPNetwork :=
  reverse (elements s).

Definition no_failure (op : io_op) (p : path) : bool := false.

(** Only the zone file of [qq.com] for IPv4 cannot be opened. *)
Definition qq_fails (op : io_op) (p : path) : bool :=
  match op with
  | OpenW => bool_decide (p = ["domains"; "ipv4"; "qq.com.zone"])
  | _ => false
  end.

(** The zone file of [qq.com] for IPv4 can be opened, and the write to it
    fails. *)
Definition qq_full (op : io_op) (p : path) : bool :=
  match op with
  | Write => bool_decide (p = ["domains"; "ipv4"; "qq.com.zone"])
  | _ => false
  end.

(** A write that fails leaves the first four characters. *)
Definition cut (p : path) : nat := 4.

Definition empty_fs : fs := mkFs ∅ ∅ [].

(** What an earlier run has left: the directories, and an aggregated
    file with a line in it. *)
Definition used_fs : fs :=
  mkFs {[ ["domains"; "ipv4"; "aggregated.zone"] := ("10.0.0.0/8" ++ newline)%string ]}
       (list_to_set (ancestors ["domains"; "ipv4"])) [].

(** The tables the scan of [db] leaves. *)
Definition sample_groups : Pipeline.groups := Pipeline.scan_groups ip_network db.

End Sample.

(** ** Dotted keys, [dotv] *)

Module Dotv.
Import PyStr Classifier.

(** [s.split(sep)] for a separator of one character: the pieces between
    the separators, empty ones included. *)
Fixpoint split (sep : ascii) (s : string) : list string :=
  match s with
  | EmptyString => [EmptyString]
  | String c r =>
      if decide (c = sep) then EmptyString :: split sep r
      else match split sep r with
           | [] => [String c EmptyString]
           | w :: ws => String c w :: ws
           end
  end.

(** [c] does not occur in [s]. *)
Fixpoint free_of (c : ascii) (s : string) : Prop :=
  match s with
  | EmptyString => True
  | String d r => d ≠ c ∧ free_of c r
  end.

(** [d.get(k)] on the items of a [dict]. *)
Fixpoint dict_get (items : list (string * value)) (k : string) : option value :=
  match items with
  | [] => None
  | (k', v) :: rest => if decide (k' = k) then Some v else dict_get rest k
  end.

(** [data.get(v) or {}] *)
Definition get_or_empty (items : list (string * value)) (v : string) : value :=
  match dict_get items v with
  | Some x => if truthy x then x else VMap []
  | None => VMap []
  end.

(** The loop of [dotv]: one step down for each part. [data.get] exists
    on a map only; a step that does not land on a map raises. *)
Fixpoint descend (part : list string) (data : value) : res value :=
  match part with
  | [] => Ok data
  | v :: rest =>
      match data with
      | VMap items =>
          match get_or_empty items v with
          | VMap items' => descend rest (VMap items')
          | _ => Raise ValueError
          end
      | _ => Raise AttributeError
      end
  end.

(** [data.get(last, default)]: the value found, or the default. *)
Definition get_default {T} (data : value) (last : string) (default : T)
  : res (value + T) :=
  match data with
  | VMap items =>
      Ok (match dict_get items last with Some x => inl x | None => inr default end)
  | _ => Raise AttributeError
  end.

Definition dotv {T} (data : value) (key : string) (default : T) : res (value + T) :=
  let part := split "." key in
  let last := List.last part EmptyString in
  let part := removelast part in
  res_bind (descend part data) (fun data => get_default data last default).

End Dotv.

(** ** Reading the keyword pattern *)

Module Pattern.
Import PyStr Re.

(** The branch that reads the characters of [k] literally. *)
Fixpoint lits (k : string) : branch :=
  match k with
  | EmptyString => []
  | String c r => Lit c :: lits r
  end.

(** The last character of [s], or [prev] when [s] is empty. *)
Fixpoint last_or (prev : option ascii) (s : string) : option ascii :=
  match s with
  | EmptyString => prev
  | String c r => last_or (Some c) r
  end.

(** [pre] ends in a word character. *)
Definition word_before (pre : string) : bool := is_word_opt (last_or None pre).

(** [post] starts with a word character. *)
Definition word_after (post : string) : bool := is_word_opt (head_char post).

End Pattern.

(** ** Reading an [IPInfo] *)

Module Records.
Import Classifier.

Definition is_text (v : value) : bool :=
  match v with VStr _ => true | _ => false end.

(** Values a [dict] lookup refuses as keys. *)
Definition unhashable (v : value) : bool :=
  match v with VArray _ | VMap _ => true | _ => false end.

(** [IPInfo()]: every field at its default. *)
Definition empty_info : IPInfo :=
  text_info EmptyString EmptyString EmptyString.

(** [getattr(ip, name)] for the names of the dataclass fields. *)
Definition field (ip : IPInfo) (name : string) : option value :=
  if decide (name = "continent") then Some (continent ip)
  else if decide (name = "continent_code") then Some (continent_code ip)
  else if decide (name = "country") then Some (country ip)
  else if decide (name = "country_code") then Some (country_code ip)
  else if decide (name = "as_domain") then Some (as_domain ip)
  else if decide (name = "as_name") then Some (as_name ip)
  else if decide (name = "asn") then Some (asn ip)
  else None.

End Records.

(** ** Reading the grouping tables *)

Module Groups.
Import PyStr Rules Classifier Net Zone Pipeline.

(** [tbl.get(key)] *)
Fixpoint table_get (tbl : table) (key : string) : option by_version :=
  match tbl with
  | [] => None
  | (k, m) :: rest => if decide (k = key) then Some m else table_get rest key
  end.

(** The networks of group [key] for [version]; none when the table has no
    such group. *)
Definition group (tbl : table) (key version : string) : gset IPNetwork :=
  match table_get tbl key with
  | Some m => default ∅ (m !! version)
  | None => ∅
  end.

(** The inner key of a family. *)
Definition version_key (f : family) : string :=
  match f with V4 => "ipv4" | V6 => "ipv6" end.

(** Every group of [tbl] is non-empty and holds networks of the one
    family its inner key names. *)
Definition groups_shaped (tbl : table) : Prop :=
  ∀ key m version st, table_get tbl key = Some m → m !! version = Some st →
    ∃ f, version = version_key f ∧ st ≠ ∅ ∧ ∀ n, n ∈ st → Net.version n = f.

(** [t2] is a later state of table [t1]: the keys of [t1] come first and
    in the same order, and every group has kept its networks. *)
Definition table_grows (t1 t2 : table) : Prop :=
  t1.*1 `prefix_of` t2.*1
  ∧ ∀ key version, group t1 key version ⊆ group t2 key version.

Section Hits.
Variable ip_network : string -> res IPNetwork.

(** Record [(network, record)] puts [net] into the country group. *)
Definition country_record (network : string) (record : value) (net : IPNetwork)
  : Prop :=
  ∃ ip, from_dict record = Ok ip ∧ is_cn ip = true ∧ ip_network network = Ok net.

(** Record [(network, record)] puts [net] into the group of domain [d]. *)
Definition domain_record (network : string) (record : value) (d : string)
  (net : IPNetwork) : Prop :=
  ∃ ip, from_dict record = Ok ip ∧ is_cn ip = true ∧ ip_network network = Ok net
        ∧ is_filter_domain ip = Ok true ∧ value_lower (as_domain ip) = Ok d.

End Hits.

(** The files a run with tables [g] writes: the aggregated file of each
    version, and the zone file of each group. *)
Definition written (g : groups) (p : path) : Prop :=
  ∃ version, version ∈ ip_versions ∧
    (p = aggregated_path version
     ∨ (∃ c m, (c, m) ∈ countries g ∧ is_Some (m !! version)
               ∧ p = zone_path "countries" version c)
     ∨ (∃ d m, (d, m) ∈ domains g ∧ is_Some (m !! version)
               ∧ p = zone_path "domains" version d)).

End Groups.

(** * Properties *)

(** ** The classifier and the rule table *)

Module ClassifierFacts.
Import PyStr Rules Classifier.

Lemma compile_AS_NAME_PATTERN : Re.compile AS_NAME_PATTERN = Some REGEX_AS_NAME.
Proof. vm_compute. reflexivity. Qed.

(** Every rule of the table is a filter rule. *)
Lemma AS_DOMAIN_KV_is_filter dom obj :
  AS_DOMAIN_KV !! dom = Some obj → is_filter obj = true.
Proof.
  unfold AS_DOMAIN_KV, AS_DOMAINS; cbn [foldl].
  intros H. repeat (apply lookup_insert_Some in H as [[_ <-]|[_ H]]; [reflexivity|]).
  by rewrite lookup_empty in H.
Qed.

Lemma is_filter_domain_text ip dom name :
  as_domain ip = VStr dom → as_name ip = VStr name →
  is_filter_domain ip =
    Ok (match dom with
        | EmptyString => false
        | _ => match AS_DOMAIN_KV !! dom with
               | Some obj =>
                   is_filter obj && (negb (use_as_name obj) || Re.search REGEX_AS_NAME name)
               | None => false
               end
        end).
Proof.
  intros Hd Hn. unfold is_filter_domain. rewrite Hd, Hn.
  destruct dom as [|c dom]; [reflexivity|].
  unfold truthy, nonempty, kv_get, res_bind, regex_search.
  destruct (AS_DOMAIN_KV !! String c dom) as [obj|]; [|reflexivity].
  destruct (is_filter obj); [|reflexivity].
  destruct (use_as_name obj); reflexivity.
Qed.

(** C1, as the code has it: on a record whose domain and name are text,
    [is_filter_domain] returns true exactly when the domain is non-empty,
    the table has a rule under the domain as written (no case folding),
    the rule is a filter rule, and either it does not ask for the AS name
    or the name contains a match of the keyword pattern; in every other
    case, the empty domain included, it returns false. *)
Theorem is_filter_domain_exact_lookup ip dom name :
  as_domain ip = VStr dom → as_name ip = VStr name →
  (is_filter_domain ip = Ok true ↔ code_filtered dom name) ∧
  (¬ code_filtered dom name → is_filter_domain ip = Ok false).
Proof.
  intros Hd Hn. rewrite (is_filter_domain_text ip dom name Hd Hn).
  assert (Hiff :
    (match dom with
     | EmptyString => false
     | _ => match AS_DOMAIN_KV !! dom with
            | Some obj =>
                is_filter obj && (negb (use_as_name obj) || Re.search REGEX_AS_NAME name)
            | None => false
            end
     end) = true ↔ code_filtered dom name).
  { unfold code_filtered. destruct dom as [|c dom].
    - split; [discriminate|]. intros [H _]. by destruct H.
    - destruct (AS_DOMAIN_KV !! String c dom) as [obj|] eqn:E.
      + rewrite andb_true_iff, orb_true_iff, negb_true_iff. split.
        * intros [Hf Hu]. split; [discriminate|]. exists obj. auto.
        * intros [_ (obj' & Ho & Hf & Hu)]. by simplify_eq.
      + split; [discriminate|]. intros [_ (obj' & Ho & _)]. discriminate. }
  split.
  - rewrite <- Hiff. split; [congruence|]. intros ->. reflexivity.
  - intros Hno. destruct (match dom with EmptyString => _ | _ => _ end) eqn:E;
      [|reflexivity]. exfalso. apply Hno, Hiff. reflexivity.
Qed.

Lemma is_filter_domain_exact_lookup_witness :
  is_filter_domain (text_info "CN" "chinatelecom.cn" "Jiangsu Telecom") = Ok true
  ↔ code_filtered "chinatelecom.cn" "Jiangsu Telecom".
Proof.
  exact (proj1 (is_filter_domain_exact_lookup
           (text_info "CN" "chinatelecom.cn" "Jiangsu Telecom")
           "chinatelecom.cn" "Jiangsu Telecom" eq_refl eq_refl)).
Defined.

(** C1 as stated fails: the table has a rule under the lower-cased
    domain of this record, yet the lookup under the domain as written
    finds none. *)
Lemma is_filter_domain_mixed_case :
  spec_filtered "QQ.com" "Tencent" ∧
  is_filter_domain (text_info "CN" "QQ.com" "Tencent") = Ok false.
Proof.
  split; [|vm_compute; reflexivity].
  split; [discriminate|]. exists (rule "qq.com").
  split; [vm_compute; reflexivity|]. split; [reflexivity|]. left. reflexivity.
Qed.

(** The examples of the specification. *)
Example filter_qq :
  is_filter_domain (text_info "CN" "qq.com" "Beijing QQ Network") = Ok true.
Proof. vm_compute. reflexivity. Qed.

Example filter_telecom_no_keyword :
  is_filter_domain (text_info "CN" "chinatelecom.cn" "No-Province-ISP") = Ok false.
Proof. vm_compute. reflexivity. Qed.

Example filter_telecom_keyword :
  is_filter_domain (text_info "CN" "chinatelecom.cn" "Jiangsu Telecom") = Ok true.
Proof. vm_compute. reflexivity. Qed.

(** Only the first branch of the compiled pattern begins with [\b] and
    only the last one ends with it. *)
Lemma REGEX_AS_NAME_anchors :
  map (fun b => head b) REGEX_AS_NAME
    = Some Re.WordB :: map (fun k => Re.Lit <$> head (list_ascii_of_string k))
                         (tail AS_NAME_KEYWORDS)
  ∧ map (fun b => last b) REGEX_AS_NAME
    = map (fun k => Re.Lit <$> last (list_ascii_of_string k))
          (removelast AS_NAME_KEYWORDS) ++ [Some Re.WordB].
Proof. split; vm_compute; reflexivity. Qed.

(** C3 at failing inputs: a keyword in the middle of a longer word
    matches, and a record of a name-checked domain passes the filter on
    it. The anchored ends do hold: [xBeijing] has no match. *)
Theorem keyword_inside_word_matches :
  Re.search REGEX_AS_NAME "XTianjinY" = true ∧
  Re.search REGEX_AS_NAME "Beijingx" = true ∧
  Re.search REGEX_AS_NAME "xCloud Computing Corporation" = true ∧
  Re.search REGEX_AS_NAME "xBeijing" = false ∧
  is_filter_domain (text_info "CN" "chinatelecom.cn" "XTianjinY") = Ok true.
Proof. repeat split; vm_compute; reflexivity. Qed.

End ClassifierFacts.

(** ** The range collapser *)

Module CollapseFacts.
Import Net Collapse.
Local Open Scope Z_scope.

(** *** The sort order *)

Global Instance net_le_trans : Transitive net_le.
Proof.
  intros [[] ? ?] [[] ? ?] [[] ? ?]; unfold net_le; simpl;
    intuition (try discriminate; lia).
Qed.

Global Instance net_le_total : Total net_le.
Proof.
  intros [va a p] [vb b q]; unfold net_le; simpl.
  destruct va, vb; simpl; try (left; left; lia); try (right; left; lia).
  all: assert (a < b ∨ (a = b ∧ p <= q) ∨ b < a ∨ (b = a ∧ q <= p)) by lia.
  all: intuition auto.
Qed.

Global Instance net_le_antisym : AntiSymm (=) net_le.
Proof.
  intros [va a p] [vb b q]; unfold net_le; simpl. intros H1 H2.
  assert (va = vb) as -> by (destruct va, vb; simpl in *; intuition (try discriminate; lia)).
  assert (a = b ∧ p = q) as [-> ->] by lia. reflexivity.
Qed.

(** *** Powers of two *)

Lemma pow2_pos h : 0 <= h → 0 < 2 ^ h.
Proof. intros. apply Z.pow_pos_nonneg; lia. Qed.

Lemma pow2_succ h : 0 <= h → 2 ^ (h + 1) = 2 * 2 ^ h.
Proof. intros. rewrite Z.pow_add_r by lia. lia. Qed.

Lemma pow2_lt_double i j : 0 <= i → 0 <= j → 2 ^ i < 2 ^ j → 2 * 2 ^ i <= 2 ^ j.
Proof.
  intros Hi Hj H. apply Z.pow_lt_mono_r_iff in H; [|lia|lia].
  rewrite <- pow2_succ by lia. apply Z.pow_le_mono_r; lia.
Qed.

Lemma pow2_divide i j : 0 <= i <= j → (2 ^ i | 2 ^ j).
Proof.
  intros H. exists (2 ^ (j - i)). rewrite <- Z.pow_add_r by lia.
  replace (j - i + i) with j by lia. reflexivity.
Qed.

(** Two multiples of [s] that differ are at least [s] apart. *)
Lemma aligned_step s x y : 0 < s → (s | x) → (s | y) → x < y → x + s <= y.
Proof.
  intros Hs [k ->] [m ->] H.
  assert (k < m) by (apply (Z.mul_lt_mono_pos_r s); lia). nia.
Qed.

(** *** Well-formed networks *)

Lemma valid_hostbits n : valid n → 0 <= hostbits n.
Proof. unfold valid, hostbits. lia. Qed.

Lemma valid_size_pos n : valid n → 0 < num_addresses n.
Proof. intros H. apply pow2_pos, valid_hostbits, H. Qed.

Lemma valid_aligned n : valid n → (num_addresses n | network_address n).
Proof.
  intros H. apply Z.mod_divide; [pose proof (valid_size_pos n H); lia|apply H].
Qed.

Lemma valid_nonempty n : valid n → network_address n <= broadcast_address n.
Proof. intros H. pose proof (valid_size_pos n H). unfold broadcast_address. lia. Qed.

Lemma subnet_of_spec a b :
  subnet_of a b = true ↔
  version a = version b ∧ network_address b <= network_address a
  ∧ broadcast_address a <= broadcast_address b.
Proof.
  unfold subnet_of. rewrite !andb_true_iff, bool_decide_eq_true, !Z.leb_le. tauto.
Qed.

Lemma siblings_spec a b :
  siblings a b = true ↔
  version a = version b ∧ prefixlen a = prefixlen b ∧ 0 < prefixlen a
  ∧ network_address a mod (2 * num_addresses a) = 0
  ∧ network_address b = network_address a + num_addresses a.
Proof.
  unfold siblings.
  rewrite !andb_true_iff, bool_decide_eq_true, !Z.eqb_eq, Z.ltb_lt. tauto.
Qed.

(** Two networks of one family are nested or apart. *)
Lemma nested_or_apart a b :
  valid a → valid b → version a = version b →
  network_address a <= network_address b →
  subnet_of b a = true ∨ subnet_of a b = true
  ∨ broadcast_address a < network_address b.
Proof.
  intros Ha Hb Hv Hle.
  pose proof (valid_size_pos a Ha) as Hsa. pose proof (valid_size_pos b Hb) as Hsb.
  pose proof (valid_aligned a Ha) as Hda. pose proof (valid_aligned b Hb) as Hdb.
  pose proof (valid_hostbits a Ha) as Hha. pose proof (valid_hostbits b Hb) as Hhb.
  rewrite !subnet_of_spec. unfold broadcast_address in *.
  destruct (Z.le_gt_cases (hostbits b) (hostbits a)) as [Hh|Hh].
  - (* [b] is the shorter block: inside [a] or after it *)
    assert (Hdiv : (num_addresses b | num_addresses a)) by (apply pow2_divide; lia).
    destruct (Z.lt_ge_cases (network_address b) (network_address a + num_addresses a))
      as [Hin|Hout]; [left|right; right; lia].
    pose proof (aligned_step (num_addresses b) (network_address b)
                  (network_address a + num_addresses a) Hsb Hdb) as Hstep.
    split; [congruence|]. split; [lia|].
    assert (network_address b + num_addresses b
            <= network_address a + num_addresses a); [|lia].
    apply Hstep; [|lia]. apply Z.divide_add_r; [|exact Hdiv].
    eapply Z.divide_trans; eauto.
  - (* [a] is the shorter block *)
    assert (Hdiv : (num_addresses a | num_addresses b)) by (apply pow2_divide; lia).
    assert (Hlt : num_addresses a <= num_addresses b)
      by (apply Z.pow_le_mono_r; lia).
    destruct (Z.eq_dec (network_address a) (network_address b)) as [Heq|Hne].
    + right; left. split; [congruence|]. lia.
    + right; right.
      pose proof (aligned_step (num_addresses a) (network_address a)
                    (network_address b) Hsa Hda) as Hstep.
      assert (network_address a + num_addresses a <= network_address b); [|lia].
      apply Hstep; [|lia]. eapply Z.divide_trans; eauto.
Qed.

(** *** The merge rule *)

Lemma merge2_cases a b c :
  merge2 a b = Some c →
  (subnet_of b a = true ∧ c = a) ∨ (subnet_of a b = true ∧ c = b)
  ∨ (siblings a b = true ∧ c = supernet a).
Proof.
  unfold merge2. destruct (subnet_of b a); [intros [= <-]; auto|].
  destruct (subnet_of a b); [intros [= <-]; auto|].
  destruct (siblings a b); [intros [= <-]; auto|discriminate].
Qed.

Lemma merge2_None a b :
  merge2 a b = None →
  subnet_of b a = false ∧ subnet_of a b = false ∧ siblings a b = false.
Proof.
  unfold merge2. destruct (subnet_of b a); [discriminate|].
  destruct (subnet_of a b); [discriminate|].
  destruct (siblings a b); [discriminate|auto].
Qed.

Lemma siblings_supernet a b :
  siblings a b = true →
  supernet a = mkNet (version a) (network_address a) (prefixlen a - 1).
Proof.
  rewrite siblings_spec. intros (_ & _ & _ & Hm & _).
  unfold supernet. rewrite Hm. f_equal. lia.
Qed.

Lemma siblings_size a b :
  valid a → siblings a b = true →
  num_addresses b = num_addresses a
  ∧ num_addresses (supernet a) = 2 * num_addresses a.
Proof.
  intros Ha Hs. rewrite (siblings_supernet a b Hs).
  apply siblings_spec in Hs as (Hv & Hp & Hpos & _ & _).
  pose proof (valid_hostbits a Ha) as Hh.
  unfold num_addresses, hostbits in *. cbn. rewrite <- Hv, <- Hp. split; [done|].
  rewrite <- pow2_succ by lia. f_equal. lia.
Qed.

Lemma merge2_version a b c :
  merge2 a b = Some c → version c = version a ∧ version c = version b.
Proof.
  intros H. apply merge2_cases in H as [[H ->]|[[H ->]|[H ->]]].
  - apply subnet_of_spec in H. intuition congruence.
  - apply subnet_of_spec in H. intuition congruence.
  - apply siblings_spec in H. cbn. intuition congruence.
Qed.

Lemma merge2_valid a b c : valid a → valid b → merge2 a b = Some c → valid c.
Proof.
  intros Ha Hb H. apply merge2_cases in H as [[H ->]|[[H ->]|[H ->]]]; [done..|].
  destruct (siblings_size a b Ha H) as [_ Hsz].
  pose proof (siblings_supernet a b H) as Hsup.
  apply siblings_spec in H as (_ & _ & Hpos & Hm & _).
  unfold valid. rewrite Hsz. rewrite Hsup. cbn.
  destruct Ha as (Hp & Hr & _). repeat split; lia.
Qed.

Lemma merge2_contains a b c x :
  valid a → valid b → merge2 a b = Some c →
  contains c x ↔ contains a x ∨ contains b x.
Proof.
  intros Ha Hb H. apply merge2_cases in H as [[H ->]|[[H ->]|[H ->]]].
  - apply subnet_of_spec in H. unfold contains. lia.
  - apply subnet_of_spec in H. unfold contains. lia.
  - destruct (siblings_size a b Ha H) as [Hsb Hsz].
    pose proof (siblings_supernet a b H) as Hsup.
    apply siblings_spec in H as (_ & _ & _ & _ & Hb').
    unfold contains, broadcast_address. rewrite Hsz, Hsb, Hb'. rewrite Hsup. cbn.
    pose proof (valid_size_pos a Ha). lia.
Qed.

Lemma merge2_address a b c :
  merge2 a b = Some c →
  network_address c = network_address a ∨ network_address c = network_address b.
Proof.
  intros H. apply merge2_cases in H as [[H ->]|[[H ->]|[H ->]]]; [auto..|].
  rewrite (siblings_supernet a b H). auto.
Qed.


(** *** One pass *)

(** Induction following the three cases of [merge_pass]. *)
Lemma merge_pass_ind (P : list IPNetwork → list IPNetwork → Prop) :
  P [] [] →
  (∀ a, P [a] [a]) →
  (∀ a b r c, merge2 a b = Some c →
     P r (merge_pass r) → P (a :: b :: r) (c :: merge_pass r)) →
  (∀ a b r, merge2 a b = None →
     P (b :: r) (merge_pass (b :: r)) → P (a :: b :: r) (a :: merge_pass (b :: r))) →
  ∀ l, P l (merge_pass l).
Proof.
  intros Hnil Hone Hmerge Hkeep l.
  enough (P l (merge_pass l) ∧ ∀ a, P (a :: l) (merge_pass (a :: l))) by tauto.
  induction l as [|b r [IH1 IH2]]; [split; [exact Hnil|exact Hone]|].
  split; [apply IH2|]. intros a.
  change (merge_pass (a :: b :: r))
    with (match merge2 a b with
          | Some c => c :: merge_pass r
          | None => a :: merge_pass (b :: r)
          end).
  destruct (merge2 a b) as [c|] eqn:E; [apply Hmerge|apply Hkeep]; auto.
Qed.

Lemma merge2_good v a b c : good v a → good v b → merge2 a b = Some c → good v c.
Proof.
  intros [Ha Hva] [Hb Hvb] H. split; [exact (merge2_valid a b c Ha Hb H)|].
  apply merge2_version in H as [-> _]. exact Hva.
Qed.

Lemma merge_pass_good v l : Forall (good v) l → Forall (good v) (merge_pass l).
Proof.
  pattern l, (merge_pass l). apply merge_pass_ind; clear l; [done..| |].
  - intros a b r c E IH H. inversion_clear H as [|? ? Ha H']. inversion_clear H' as [|? ? Hb Hr].
    constructor; [exact (merge2_good v a b c Ha Hb E)|auto].
  - intros a b r E IH H. inversion_clear H. constructor; auto.
Qed.

Lemma covers_cons n l a : covers (n :: l) a ↔ contains n a ∨ covers l a.
Proof.
  unfold covers. split.
  - intros (m & Hm & Hc). apply elem_of_cons in Hm as [->|Hm]; eauto.
  - intros [Hc|(m & Hm & Hc)]; [exists n|exists m]; split; auto; set_solver.
Qed.

Lemma merge_pass_covers v l a :
  Forall (good v) l → covers (merge_pass l) a ↔ covers l a.
Proof.
  pattern l, (merge_pass l). apply merge_pass_ind; clear l; [done..| |].
  - intros x y r c E IH H. inversion_clear H as [|? ? Hx H']. inversion_clear H' as [|? ? Hy Hr].
    rewrite !covers_cons, IH by done.
    rewrite (merge2_contains x y c a (proj1 Hx) (proj1 Hy) E). tauto.
  - intros x y r E IH H. inversion_clear H as [|? ? Hx H'].
    rewrite (covers_cons x (y :: r)), covers_cons, IH by done. tauto.
Qed.

Lemma merge_pass_lower_bound lo l :
  Forall (fun n => lo <= network_address n) l →
  Forall (fun n => lo <= network_address n) (merge_pass l).
Proof.
  pattern l, (merge_pass l). apply merge_pass_ind; clear l; [done..| |].
  - intros a b r c E IH H. inversion_clear H as [|? ? Ha H']. inversion_clear H' as [|? ? Hb Hr].
    constructor; [|auto]. destruct (merge2_address a b c E) as [-> | ->]; done.
  - intros a b r E IH H. inversion_clear H. constructor; auto.
Qed.

Lemma merge_pass_sorted l :
  StronglySorted addr_le l → StronglySorted addr_le (merge_pass l).
Proof.
  pattern l, (merge_pass l). apply merge_pass_ind; clear l; [done..| |].
  - intros a b r c E IH H.
    apply StronglySorted_inv in H as [H Ha]. apply StronglySorted_inv in H as [Hr Hb].
    inversion_clear Ha as [|? ? Hab _].
    constructor; [auto|]. apply merge_pass_lower_bound.
    eapply Forall_impl; [exact Hb|]. unfold addr_le in *. intros n Hn.
    destruct (merge2_address a b c E) as [-> | ->]; lia.
  - intros a b r E IH H. apply StronglySorted_inv in H as [H Ha].
    constructor; [auto|]. apply merge_pass_lower_bound. exact Ha.
Qed.

Lemma merge_pass_length l :
  (length (merge_pass l) <= length l)%nat
  ∧ (length (merge_pass l) = length l → stable l).
Proof.
  pattern l, (merge_pass l). apply merge_pass_ind; clear l.
  - split; [done|]. intros _; exact I.
  - split; [done|]. intros _; exact I.
  - intros a b r c E [IH _]. cbn [length]. split; [lia|]. lia.
  - intros a b r E [IH1 IH2]. cbn [length] in *. split; [lia|].
    intros H. split; [exact E|]. apply IH2. lia.
Qed.

Lemma stable_merge_pass l : stable l → merge_pass l = l.
Proof.
  pattern l, (merge_pass l). apply merge_pass_ind; clear l; [done..| |].
  - intros a b r c E _ [H _]. congruence.
  - intros a b r E IH [_ H]. f_equal. auto.
Qed.

(** *** Passes until nothing merges *)

Lemma merge_until_stable_stable fuel l :
  (length l <= fuel)%nat → stable (merge_until_stable fuel l).
Proof.
  revert l. induction fuel as [|fuel IH]; intros l Hlen.
  - destruct l; [exact I|cbn in Hlen; lia].
  - cbn [merge_until_stable]. destruct (merge_pass_length l) as [Hle Hst].
    destruct (Nat.eqb_spec (length (merge_pass l)) (length l)) as [Heq|Hne]; [auto|].
    apply IH. lia.
Qed.

Lemma merge_until_stable_fixed fuel l : stable l → merge_until_stable fuel l = l.
Proof.
  intros H. destruct fuel as [|fuel]; [reflexivity|]. cbn [merge_until_stable].
  rewrite (stable_merge_pass l H), Nat.eqb_refl. reflexivity.
Qed.

Lemma merge_until_stable_inv (I : list IPNetwork → Prop) fuel l :
  (∀ l, I l → I (merge_pass l)) → I l → I (merge_until_stable fuel l).
Proof.
  intros Hstep. revert l. induction fuel as [|fuel IH]; intros l Hl; [exact Hl|].
  cbn [merge_until_stable]. destruct (_ =? _)%nat; auto.
Qed.

Lemma merge_until_stable_covers v fuel l a :
  Forall (good v) l → covers (merge_until_stable fuel l) a ↔ covers l a.
Proof.
  revert l. induction fuel as [|fuel IH]; intros l Hl; [reflexivity|].
  cbn [merge_until_stable]. destruct (_ =? _)%nat; [reflexivity|].
  rewrite IH by (apply merge_pass_good; exact Hl). apply (merge_pass_covers v l a Hl).
Qed.


(** *** What a stable, sorted list looks like *)

Global Instance before_trans : Transitive before.
Proof. unfold before. intros a b c. lia. Qed.

Lemma stable_tail a l : stable (a :: l) → stable l.
Proof. destruct l; cbn; tauto. Qed.

Lemma stable_sorted_before v l :
  Forall (good v) l → StronglySorted addr_le l → stable l → StronglySorted before l.
Proof.
  intros Hg Hs Hst. apply Sorted_StronglySorted; [apply _|].
  induction l as [|a l IH]; [constructor|].
  inversion_clear Hg as [|? ? Ha Hg']. apply StronglySorted_inv in Hs as [Hs' Hhd].
  constructor; [apply IH; eauto using stable_tail|].
  destruct l as [|b r]; constructor.
  destruct Hst as [E _]. apply merge2_None in E as (E1 & E2 & _).
  inversion_clear Hg' as [|? ? Hb _]. inversion_clear Hhd as [|? ? Hab _].
  destruct Ha as [Ha Hva], Hb as [Hb Hvb].
  pose proof (valid_nonempty a Ha). pose proof (valid_nonempty b Hb).
  destruct (nested_or_apart a b Ha Hb) as [H'|[H'|H']];
    [congruence|exact Hab|congruence|congruence|]. unfold before. lia.
Qed.

Lemma sorted_before_elem l x y :
  StronglySorted before l → x ∈ l → y ∈ l → x = y ∨ before x y ∨ before y x.
Proof.
  induction 1 as [|a l Hs IH Hall]; [set_solver|].
  rewrite Forall_forall in Hall. rewrite !elem_of_cons.
  intros [->|Hx] [->|Hy]; auto.
Qed.

Lemma before_apart x y : before x y → ¬ overlap x y.
Proof. unfold before, overlap, contains. intros H (a & Hx & Hy). lia. Qed.

Lemma stable_middle l1 a b l2 : stable (l1 ++ a :: b :: l2) → merge2 a b = None.
Proof.
  induction l1 as [|c l1 IH]; [intros [H _]; exact H|].
  intros H. apply IH. exact (stable_tail _ _ H).
Qed.

(** Two consecutive ranges of a sorted list are neighbours in it. *)
Lemma sorted_before_adjacent l x y :
  StronglySorted before l → x ∈ l → y ∈ l →
  network_address x <= broadcast_address x →
  network_address y = broadcast_address x + 1 →
  ∃ l1 l2, l = l1 ++ x :: y :: l2.
Proof.
  intros Hs Hx Hy Hne Hadj.
  apply list_elem_of_split in Hx as (l1 & l2 & ->). exists l1.
  apply StronglySorted_app in Hs as (H12 & Hs1 & Hs2).
  apply StronglySorted_inv in Hs2 as [Hs2 Hx2]. rewrite Forall_forall in Hx2.
  apply elem_of_app in Hy as [Hy|Hy].
  { assert (Hyx : before y x) by (apply H12; [exact Hy|set_solver]).
    unfold before in Hyx. lia. }
  apply elem_of_cons in Hy as [->|Hy]; [lia|].
  destruct l2 as [|h l2]; [set_solver|]. exists l2.
  apply elem_of_cons in Hy as [->|Hy]; [reflexivity|].
  apply StronglySorted_inv in Hs2 as [_ Hh]. rewrite Forall_forall in Hh.
  specialize (Hh y Hy). assert (Hxh : before x h) by (apply Hx2; set_solver).
  unfold before in *. lia.
Qed.

Lemma siblings_merge x y : siblings x y = true → merge2 x y ≠ None.
Proof.
  intros H. unfold merge2. rewrite H.
  destruct (subnet_of y x), (subnet_of x y); discriminate.
Qed.

(** Two separate ranges whose union is a block are sibling halves. *)
Lemma before_union_siblings x y z :
  valid x → valid y → valid z → version x = version y →
  before x y → is_union z x y → siblings x y = true.
Proof.
  intros Hx Hy Hz Hv (Hnx & Hxy & Hny) Hu.
  pose proof (valid_nonempty z Hz) as Hnz.
  assert (Hlo : network_address z = network_address x).
  { pose proof (proj2 (Hu (network_address x))) as H1.
    pose proof (proj1 (Hu (network_address z))) as H2.
    unfold contains in *. lia. }
  assert (Hhi : broadcast_address z = broadcast_address y).
  { pose proof (proj2 (Hu (broadcast_address y))) as H1.
    pose proof (proj1 (Hu (broadcast_address z))) as H2.
    unfold contains in *. lia. }
  assert (Hadj : network_address y = broadcast_address x + 1).
  { pose proof (proj1 (Hu (broadcast_address x + 1))) as H1.
    unfold contains in *. lia. }
  pose proof (valid_hostbits x Hx) as Hhx. pose proof (valid_hostbits y Hy) as Hhy.
  pose proof (valid_hostbits z Hz) as Hhz.
  pose proof (valid_size_pos x Hx) as Hsx. pose proof (valid_size_pos y Hy) as Hsy.
  assert (Hsum : num_addresses z = num_addresses x + num_addresses y)
    by (unfold broadcast_address in *; lia).
  assert (H2x : 2 * num_addresses x <= num_addresses z)
    by (apply pow2_lt_double; [done..|]; fold (num_addresses x) (num_addresses z); lia).
  assert (H2y : 2 * num_addresses y <= num_addresses z)
    by (apply pow2_lt_double; [done..|]; fold (num_addresses y) (num_addresses z); lia).
  assert (Hsz : num_addresses x = num_addresses y) by lia.
  assert (Hh : hostbits x = hostbits y)
    by (apply (Z.pow_inj_r 2); [lia|done..]).
  apply siblings_spec. split; [exact Hv|].
  assert (Hbits : hostbits x < max_prefixlen (version x)).
  { apply (Z.pow_lt_mono_r_iff 2); [lia|destruct (version x); cbn; lia|].
    fold (num_addresses x). destruct Hx as (_ & Hrx & _), Hy as (_ & Hry & _).
    rewrite <- Hv in Hry. unfold broadcast_address in *. lia. }
  unfold hostbits in Hh, Hbits. rewrite <- Hv in Hh.
  split; [lia|]. split; [lia|]. split.
  - destruct Hz as (_ & _ & Hz). rewrite Hlo in Hz.
    replace (2 * num_addresses x) with (num_addresses z) by lia. exact Hz.
  - unfold broadcast_address in *. lia.
Qed.

(** *** The collapser *)

Lemma sorted_net_le_addr_le v l :
  Forall (good v) l → StronglySorted net_le l → StronglySorted addr_le l.
Proof.
  intros Hg Hs. induction Hs as [|a l Hs IH Hall]; [constructor|].
  inversion_clear Hg as [|? ? Ha Hg']. constructor; [auto|].
  rewrite Forall_forall in *. intros b Hb.
  specialize (Hall b Hb). specialize (Hg' b Hb).
  destruct Ha as [_ Hva], Hg' as [_ Hvb]. unfold net_le, addr_le in *.
  rewrite Hva, Hvb in Hall. lia.
Qed.

Lemma covers_Permutation l1 l2 a : l1 ≡ₚ l2 → covers l1 a ↔ covers l2 a.
Proof. intros H. unfold covers. by setoid_rewrite H. Qed.

(** What [collapse_addresses] returns on well-formed networks of one
    family. *)
Lemma collapse_addresses_facts v l :
  Forall (good v) l →
  Forall (good v) (collapse_addresses l)
  ∧ StronglySorted before (collapse_addresses l)
  ∧ stable (collapse_addresses l)
  ∧ ∀ a, covers (collapse_addresses l) a ↔ covers l a.
Proof.
  intros Hg. unfold collapse_addresses.
  pose proof (merge_sort_Permutation net_le l) as Hperm.
  assert (Hg' : Forall (good v) (merge_sort net_le l)) by (by rewrite Hperm).
  assert (Hs' : StronglySorted addr_le (merge_sort net_le l)).
  { apply (sorted_net_le_addr_le v); [exact Hg'|]. apply StronglySorted_merge_sort; apply _. }
  assert (Hinv : Forall (good v) (merge_until_stable (length l) (merge_sort net_le l))
                 ∧ StronglySorted addr_le
                     (merge_until_stable (length l) (merge_sort net_le l))).
  { apply (merge_until_stable_inv
             (fun l => Forall (good v) l ∧ StronglySorted addr_le l)); [|done].
    intros l0 [H1 H2]. split; [by apply merge_pass_good|by apply merge_pass_sorted]. }
  assert (Hst : stable (merge_until_stable (length l) (merge_sort net_le l))).
  { apply merge_until_stable_stable. by rewrite Hperm. }
  destruct Hinv as [Hgo Hso]. split; [exact Hgo|]. split.
  { by apply (stable_sorted_before v). }
  split; [exact Hst|]. intros a.
  rewrite (merge_until_stable_covers v) by exact Hg'. by apply covers_Permutation.
Qed.

(** The result does not depend on the order the input comes in. *)
Lemma collapse_addresses_Permutation l1 l2 :
  l1 ≡ₚ l2 → collapse_addresses l1 = collapse_addresses l2.
Proof.
  intros H. unfold collapse_addresses. rewrite (Permutation_length H). f_equal.
  apply (Sorted_unique net_le); [apply Sorted_merge_sort; apply _..|].
  by rewrite !merge_sort_Permutation.
Qed.

Lemma before_net_le v a b : good v a → good v b → before a b → net_le a b.
Proof.
  intros [_ Ha] [_ Hb] H. unfold before, net_le in *. right. split; [congruence|lia].
Qed.

(** C5: on well-formed networks of one family, [collapse_addresses]
    returns well-formed blocks of that family that cover exactly the
    addresses the input covers; no two of them share an address, and no
    two of them make up one block. *)
Theorem collapse_addresses_exact_cover v l :
  Forall (good v) l →
  Forall (good v) (collapse_addresses l)
  ∧ (∀ a, covers (collapse_addresses l) a ↔ covers l a)
  ∧ (∀ x y, x ∈ collapse_addresses l → y ∈ collapse_addresses l → x ≠ y →
       ¬ overlap x y)
  ∧ (∀ x y z, x ∈ collapse_addresses l → y ∈ collapse_addresses l → x ≠ y →
       valid z → ¬ is_union z x y).
Proof.
  intros Hg. destruct (collapse_addresses_facts v l Hg) as (Hgo & Hso & Hst & Hcov).
  split; [exact Hgo|]. rewrite Forall_forall in Hgo.
  split; [exact Hcov|]. split.
  - intros x y Hx Hy Hne Hov.
    destruct (sorted_before_elem _ x y Hso Hx Hy) as [?|[H|H]]; [done| |].
    + exact (before_apart x y H Hov).
    + apply (before_apart y x H). destruct Hov as (a & ? & ?). by exists a.
  - assert (Hone : ∀ x y z, x ∈ collapse_addresses l → y ∈ collapse_addresses l →
              valid z → before x y → ¬ is_union z x y).
    { intros x y z Hx Hy Hz Hb Hu.
      destruct (Hgo x Hx) as [Hvx Hfx], (Hgo y Hy) as [Hvy Hfy].
      assert (Hsib : siblings x y = true)
        by (apply (before_union_siblings x y z); auto; congruence).
      apply (siblings_merge x y Hsib).
      destruct (sorted_before_adjacent _ x y Hso Hx Hy) as (l1 & l2 & Hl).
      - apply Hb.
      - apply siblings_spec in Hsib. unfold broadcast_address. lia.
      - rewrite Hl in Hst. exact (stable_middle l1 x y l2 Hst). }
    intros x y z Hx Hy Hne Hz Hu.
    destruct (sorted_before_elem _ x y Hso Hx Hy) as [?|[H|H]]; [done| |].
    + exact (Hone x y z Hx Hy Hz H Hu).
    + apply (Hone y x z Hy Hx Hz H). intros a. rewrite (Hu a). tauto.
Qed.

(** C8: on well-formed networks of one family, collapsing the result
    again changes nothing, and the result is in ascending order of base
    address. *)
Theorem collapse_addresses_idempotent v l :
  Forall (good v) l →
  collapse_addresses (collapse_addresses l) = collapse_addresses l
  ∧ StronglySorted (fun a b => network_address a < network_address b)
      (collapse_addresses l).
Proof.
  intros Hg. destruct (collapse_addresses_facts v l Hg) as (Hgo & Hso & Hst & _).
  set (out := collapse_addresses l) in *. split.
  - unfold collapse_addresses at 1.
    assert (Hsorted : merge_sort net_le out = out).
    { apply (Sorted_unique net_le);
        [apply Sorted_merge_sort; apply _| |apply merge_sort_Permutation].
      apply StronglySorted_Sorted. clear Hst.
      induction Hso as [|a r Hs IH Hall]; [constructor|].
      inversion_clear Hgo as [|? ? Ha Hr]. constructor; [auto|].
      rewrite Forall_forall in *. intros b Hb.
      apply (before_net_le v); auto. }
    rewrite Hsorted. by apply merge_until_stable_fixed.
  - clear Hst Hgo. induction Hso as [|a r Hs IH Hall]; constructor; [done|].
    eapply Forall_impl; [exact Hall|]. unfold before. intros b. cbn. lia.
Qed.

(** *** On the sample networks *)

Lemma sample_networks_good : Forall (good V4) Sample.networks.
Proof.
  repeat constructor; try (vm_compute; congruence); try reflexivity.
Qed.

Lemma collapse_addresses_exact_cover_witness :
  Forall (good V4) (collapse_addresses Sample.networks)
  ∧ (∀ a, covers (collapse_addresses Sample.networks) a ↔ covers Sample.networks a)
  ∧ (∀ x y, x ∈ collapse_addresses Sample.networks →
            y ∈ collapse_addresses Sample.networks → x ≠ y → ¬ overlap x y)
  ∧ (∀ x y z, x ∈ collapse_addresses Sample.networks →
              y ∈ collapse_addresses Sample.networks → x ≠ y →
              valid z → ¬ is_union z x y).
Proof.
  exact (collapse_addresses_exact_cover V4 Sample.networks sample_networks_good).
Defined.

Lemma collapse_addresses_idempotent_witness :
  collapse_addresses (collapse_addresses Sample.networks)
  = collapse_addresses Sample.networks
  ∧ StronglySorted (fun a b => network_address a < network_address b)%Z
      (collapse_addresses Sample.networks).
Proof.
  exact (collapse_addresses_idempotent V4 Sample.networks sample_networks_good).
Defined.

Example collapse_sample :
  map net_str (collapse_addresses Sample.networks) = ["1.0.0.0/22"; "10.0.0.0/8"].
Proof. vm_compute. reflexivity. Qed.

End CollapseFacts.

(** ** Strings *)

Module StrFacts.

Lemma append_cons (c : ascii) (s t : string) :
  (String c s ++ t)%string = String c (s ++ t).
Proof. reflexivity. Qed.

Lemma append_nil_r (s : string) : (s ++ EmptyString)%string = s.
Proof. induction s as [|c s IH]; [reflexivity|]. by rewrite append_cons, IH. Qed.

Lemma append_assoc (a b c : string) : ((a ++ b) ++ c = a ++ (b ++ c))%string.
Proof. induction a as [|x a IH]; [reflexivity|]. by rewrite !append_cons, IH. Qed.

Lemma length_append (a b : string) :
  String.length (a ++ b) = (String.length a + String.length b)%nat.
Proof.
  induction a as [|x a IH]; [reflexivity|].
  rewrite append_cons. cbn [String.length]. by rewrite IH.
Qed.

(** A common suffix can be cancelled. *)
Lemma append_inj_r (a b s : string) : (a ++ s = b ++ s)%string → a = b.
Proof.
  revert b. induction a as [|x a IH]; intros [|y b] H.
  - reflexivity.
  - apply (f_equal String.length) in H. rewrite !length_append in H. cbn in H. lia.
  - apply (f_equal String.length) in H. rewrite !length_append in H. cbn in H. lia.
  - rewrite !append_cons in H. injection H as -> H. f_equal. by apply IH.
Qed.

End StrFacts.

(** ** The state monad *)

Module StateExnFacts.
Import StateExn.

Lemma bind_ok {S A B} (m : M S A) (k : A → M S B) s a s' :
  m s = (Ok a, s') → bind m k s = k a s'.
Proof. unfold bind. by intros ->. Qed.

Lemma bind_raise {S A B} (m : M S A) (k : A → M S B) s e s' :
  m s = (Raise e, s') → bind m k s = (Raise e, s').
Proof. unfold bind. by intros ->. Qed.

Lemma for_each_app {S A} (l1 l2 : list A) (body : A → M S unit) s :
  for_each (l1 ++ l2) body s = bind (for_each l1 body) (fun _ => for_each l2 body) s.
Proof.
  revert s. induction l1 as [|x l1 IH]; intros s; [reflexivity|].
  cbn [for_each app]. unfold bind.
  destruct (body x s) as [[[]|e] s1]; [|reflexivity]. rewrite IH. reflexivity.
Qed.

(** A loop stops at the first body that raises: what comes after it in
    the list has no effect. *)
Lemma for_each_raise {S A} (pre post : list A) (x : A) (body : A → M S unit) s s1 e s2 :
  for_each pre body s = (Ok tt, s1) → body x s1 = (Raise e, s2) →
  for_each (pre ++ x :: post) body s = (Raise e, s2).
Proof.
  intros Hpre Hx. rewrite for_each_app, (bind_ok _ _ _ _ _ Hpre).
  cbn [for_each]. by apply bind_raise.
Qed.

Lemma for_each_ext {S A} (l : list A) (f g : A → M S unit) :
  (∀ x s, x ∈ l → f x s = g x s) → ∀ s, for_each l f s = for_each l g s.
Proof.
  induction l as [|x l IH]; intros H s; [reflexivity|].
  cbn [for_each]. unfold bind. rewrite H by set_solver.
  destruct (g x s) as [[[]|e] s1]; [|reflexivity]. apply IH. intros; apply H; set_solver.
Qed.

(** A loop of guarded bodies never raises. *)
Lemma for_each_try_continue {S A} (l : list A) (body : A → M S unit) s :
  (for_each l (fun x => try_continue (body x)) s).1 = Ok tt.
Proof.
  revert s. induction l as [|x l IH]; intros s; [reflexivity|].
  cbn [for_each]. unfold bind, try_continue at 1. apply IH.
Qed.

Lemma for_each_try_continue_state {S A} (l : list A) (body : A → M S unit) s :
  (for_each l (fun x => try_continue (body x)) s).2
  = foldl (fun s x => (body x s).2) s l.
Proof.
  revert s. induction l as [|x l IH]; intros s; [reflexivity|].
  cbn [for_each foldl]. unfold bind, try_continue at 1. apply IH.
Qed.

Lemma for_each_map {S A B} (f : A → B) (l : list A) (body : B → M S unit) s :
  for_each (map f l) body s = for_each l (fun x => body (f x)) s.
Proof.
  revert s. induction l as [|x l IH]; intros s; [reflexivity|].
  cbn [map for_each]. unfold bind. destruct (body (f x) s) as [[[]|e] s1]; auto.
Qed.

Lemma bind_ret_tt {S} (m : M S unit) s : bind m (fun _ => ret tt) s = m s.
Proof. unfold bind, ret. destruct (m s) as [[[]|e] s1]; reflexivity. Qed.

Lemma bind_cong {S A B} (m1 m2 : M S A) (k1 k2 : A → M S B) s :
  m1 s = m2 s → (∀ a s', k1 a s' = k2 a s') → bind m1 k1 s = bind m2 k2 s.
Proof.
  intros Hm Hk. unfold bind. rewrite Hm. destruct (m2 s) as [[a|e] s1]; auto.
Qed.

(** A loop inside a [try ... finally]: each body is followed by the
    clean-up when it raises, and the clean-up ends the loop. *)
Lemma on_raise_for_each {S A} (l : list A) (body : A → M S unit) (c : M S unit) s :
  on_raise (for_each l body) c s = for_each l (fun x => on_raise (body x) c) s.
Proof.
  revert s. induction l as [|x l IH]; intros s; [reflexivity|].
  cbn [for_each]. unfold on_raise, bind in *.
  destruct (body x s) as [[[]|e] s1]; [apply IH|].
  by destruct (c s1) as [[[]|e'] s2].
Qed.

Lemma finally_for_each {S A} (l : list A) (body : A → M S unit) (c : M S unit) s :
  finally (for_each l body) c s
  = bind (for_each l (fun x => on_raise (body x) c)) (fun _ => c) s.
Proof.
  unfold finally. apply bind_cong; [apply on_raise_for_each|].
  intros [] s'. apply bind_ret_tt.
Qed.

End StateExnFacts.

(** ** The zone file writer *)

Module ZoneFacts.
Import PyStr Net StateExn StateExn.Notations Zone StrFacts StateExnFacts.

Lemma files_ensured file_path s : files (ensured file_path s) = files s.
Proof. unfold ensured. by destruct (exists_path _ _). Qed.

Lemma log_ensured file_path s : log (ensured file_path s) = log s.
Proof. unfold ensured. by destruct (exists_path _ _). Qed.

(** *** Beginnings of a text *)

Lemma str_prefix_refl s : str_prefix s s.
Proof. exists EmptyString. by rewrite append_nil_r. Qed.

Lemma str_prefix_trans a b c : str_prefix a b → str_prefix b c → str_prefix a c.
Proof. intros [r1 ->] [r2 ->]. exists (r1 ++ r2)%string. by rewrite append_assoc. Qed.

Lemma str_prefix_app a b : str_prefix a (a ++ b)%string.
Proof. by exists b. Qed.

Lemma str_take_prefix n s : str_prefix (str_take n s) s.
Proof.
  revert s. induction n as [|n IH]; intros [|c r]; try (by eexists).
  destruct (IH r) as [rest Hr]. exists rest. cbn [str_take].
  by rewrite append_cons, <- Hr.
Qed.

(** *** Directories *)

Lemma ancestors_self (p : path) : p ∈ ancestors p.
Proof.
  unfold ancestors. apply list_elem_of_fmap. exists (length p).
  split; [by rewrite firstn_all|]. apply list_elem_of_In, in_seq. lia.
Qed.

Lemma ancestors_split (p : path) :
  ∃ above, ancestors p = above ++ [p] ∧ p ∉ above.
Proof.
  unfold ancestors. rewrite seq_S, map_app. cbn [map Nat.add].
  rewrite firstn_all. eexists. split; [reflexivity|].
  intros Hin. apply list_elem_of_fmap in Hin as (n & Hn & Hin).
  apply list_elem_of_In, in_seq in Hin.
  assert (length p = n); [|lia].
  rewrite Hn at 1. rewrite length_take. lia.
Qed.

Lemma exists_path_add_dirs d q s :
  q ∈ d → exists_path q (add_dirs d s) = true.
Proof.
  intros Hq. unfold exists_path, add_dirs. cbn.
  rewrite bool_decide_eq_true_2; [done|].
  apply elem_of_union. left. by apply elem_of_list_to_set.
Qed.

Lemma add_dirs_nil s : add_dirs [] s = s.
Proof.
  destruct s as [f d l]. unfold add_dirs. cbn. f_equal. apply union_empty_l_L.
Qed.

Lemma add_dirs_app d1 d2 s : add_dirs d2 (add_dirs d1 s) = add_dirs (d1 ++ d2) s.
Proof.
  unfold add_dirs. cbn. f_equal. rewrite list_to_set_app_L.
  rewrite (union_comm_L (list_to_set d1) (list_to_set d2)). by rewrite union_assoc_L.
Qed.

Lemma add_dirs_there d s : d ∈ dirs s → add_dirs [d] s = s.
Proof.
  intros Hd. destruct s as [f ds l]. unfold add_dirs. cbn in *. f_equal.
  rewrite union_empty_r_L. apply subseteq_union_1_L. by apply singleton_subseteq_l.
Qed.

Section Writer.
Variable io_fails : io_op → path → bool.
Variable io_cut : path → nat.

Lemma mkdir_step_cases d s :
  mkdir_step io_fails d s
  = if bool_decide (d ∈ dirs s) then (Ok tt, s)
    else if io_fails Mkdir d then (Raise OSError, s)
    else (Ok tt, add_dirs [d] s).
Proof.
  unfold mkdir_step, bind, gets. destruct (bool_decide _); [reflexivity|].
  by destruct (io_fails Mkdir d).
Qed.

Lemma mkdir_step_ok d s :
  passable io_fails s d → mkdir_step io_fails d s = (Ok tt, add_dirs [d] s).
Proof.
  intros Hd. rewrite mkdir_step_cases. destruct (decide (d ∈ dirs s)) as [Hin|Hout].
  - rewrite bool_decide_eq_true_2 by done. by rewrite add_dirs_there.
  - rewrite bool_decide_eq_false_2 by done. destruct Hd as [?|Hio]; [done|by rewrite Hio].
Qed.

Lemma mkdir_step_raise d s :
  ¬ passable io_fails s d → mkdir_step io_fails d s = (Raise OSError, s).
Proof.
  intros Hd. rewrite mkdir_step_cases.
  rewrite bool_decide_eq_false_2 by (intros ?; apply Hd; by left).
  destruct (io_fails Mkdir d) eqn:Hio; [done|]. destruct Hd. by right.
Qed.

(** The directories are made in order as long as each can be. *)
Lemma mkdirs_ok ds s :
  Forall (passable io_fails s) ds →
  for_each ds (mkdir_step io_fails) s = (Ok tt, add_dirs ds s).
Proof.
  revert s. induction ds as [|d rest IH]; intros s Hall.
  { by rewrite add_dirs_nil. }
  apply Forall_cons in Hall as [Hd Hrest]. cbn [for_each].
  rewrite (bind_ok _ _ _ _ _ (mkdir_step_ok d s Hd)), IH.
  - by rewrite add_dirs_app.
  - eapply Forall_impl; [exact Hrest|]. intros d' [Hin|Hio]; [left|by right].
    cbn. apply elem_of_union. by right.
Qed.

(** The first directory that cannot be made ends the call; those before
    it have been made. *)
Lemma mkdirs_stop pre d post s :
  Forall (passable io_fails s) pre → ¬ passable io_fails s d →
  for_each (pre ++ d :: post) (mkdir_step io_fails) s
  = (Raise OSError, add_dirs pre s).
Proof.
  intros Hpre Hd. apply (for_each_raise pre post d _ s (add_dirs pre s));
    [by apply mkdirs_ok|].
  apply mkdir_step_raise. intros [Hin|Hio]; [|apply Hd; by right].
  cbn in Hin. apply elem_of_union in Hin as [Hin|Hin]; [|apply Hd; by left].
  apply elem_of_list_to_set in Hin.
  rewrite Forall_forall in Hpre. exact (Hd (Hpre d Hin)).
Qed.

Lemma passable_split (s : fs) ds :
  Forall (passable io_fails s) ds
  ∨ ∃ pre d post, ds = pre ++ d :: post ∧ Forall (passable io_fails s) pre ∧ ¬ passable io_fails s d.
Proof.
  induction ds as [|d rest IH]; [by left|].
  destruct (decide (d ∈ dirs s ∨ io_fails Mkdir d = false)) as [Hd|Hd];
    fold (passable io_fails s d) in Hd.
  - destruct IH as [Hall|(pre & d' & post & -> & Hpre & Hd')].
    + left. by constructor.
    + right. exists (d :: pre), d', post. split; [done|]. split; [by constructor|done].
  - right. by exists [], d, rest.
Qed.

Lemma ensure_cases file_path s :
  ensure_file_dir_exists io_fails file_path s
  = if exists_path (parent file_path) s then (Ok tt, s)
    else for_each (ancestors (parent file_path)) (mkdir_step io_fails) s.
Proof.
  unfold ensure_file_dir_exists, bind, gets, mkdir_parents.
  by destruct (exists_path (parent file_path) s).
Qed.

Lemma ensure_file_dir_exists_ok file_path s :
  exists_path (parent file_path) s = true ∨ can_mkdir io_fails (parent file_path) s →
  ensure_file_dir_exists io_fails file_path s = (Ok tt, ensured file_path s).
Proof.
  intros H. rewrite ensure_cases. unfold ensured.
  destruct (exists_path (parent file_path) s); [reflexivity|].
  destruct H as [H|H]; [discriminate|]. by apply mkdirs_ok.
Qed.

(** When the call raises, a directory above the file could not be
    made: the ones above that one are there now, the directory of the
    file is not. *)
Lemma ensure_file_dir_exists_not_ok file_path s :
  ¬ (exists_path (parent file_path) s = true ∨ can_mkdir io_fails (parent file_path) s) →
  ∃ made, ensure_file_dir_exists io_fails file_path s = (Raise OSError, add_dirs made s)
          ∧ (parent file_path ∉ made)
          ∧ (∀ d, d ∈ made → d ∈ ancestors (parent file_path)).
Proof.
  intros Hno. rewrite ensure_cases.
  destruct (exists_path (parent file_path) s) eqn:Hex; [destruct Hno; by left|].
  destruct (passable_split s (ancestors (parent file_path)))
    as [Hall|(pre & d & post & Hsplit & Hpre & Hd)]; [destruct Hno; by right|].
  exists pre. rewrite Hsplit. split; [by apply mkdirs_stop|].
  destruct (ancestors_split (parent file_path)) as (above & Habove & Hnot).
  split.
  - intros Hin. apply Hnot.
    assert (Hlen : (length pre ≤ length above)%nat).
    { apply (f_equal length) in Hsplit. rewrite Habove in Hsplit.
      rewrite !length_app in Hsplit. cbn in Hsplit. lia. }
    rewrite Habove in Hsplit.
    assert (Htake : pre = take (length pre) above).
    { apply (f_equal (take (length pre))) in Hsplit.
      rewrite take_app_le in Hsplit by lia.
      by rewrite take_app_length in Hsplit. }
    rewrite Htake in Hin. exact (subseteq_take _ _ _ Hin).
  - intros d' Hd'. apply elem_of_app. by left.
Qed.

(** *** Writing *)

Lemma open_w_ok p s :
  io_fails OpenW p = false →
  open_w io_fails p s = (Ok tt, set_files (insert p EmptyString) s).
Proof. unfold open_w. by intros ->. Qed.

Lemma open_w_raise p s :
  io_fails OpenW p = true → open_w io_fails p s = (Raise OSError, s).
Proof. unfold open_w. by intros ->. Qed.

Lemma write_spec p text s :
  io_fails Write p = false →
  write io_fails io_cut p text s
  = (Ok tt, set_files (insert p (default EmptyString (files s !! p) ++ text)%string) s).
Proof. unfold write, bind, gets. by intros ->. Qed.

Lemma write_raise p text s :
  io_fails Write p = true →
  write io_fails io_cut p text s
  = (Raise OSError,
     set_files (insert p (str_take (io_cut p)
                            (default EmptyString (files s !! p) ++ text))) s).
Proof. unfold write, bind, gets. by intros ->. Qed.

Lemma close_w_ok p s : io_fails Close p = false → close_w io_fails io_cut p s = (Ok tt, s).
Proof. unfold close_w. by intros ->. Qed.

Lemma close_w_raise p s :
  io_fails Close p = true →
  close_w io_fails io_cut p s
  = (Raise OSError,
     set_files (insert p (str_take (io_cut p) (default EmptyString (files s !! p)))) s).
Proof. unfold close_w. by intros ->. Qed.

(** The loop appends the lines in order and counts them. *)
Lemma write_lines_spec p networks count s text :
  io_fails Write p = false →
  files s !! p = Some text →
  write_lines io_fails io_cut p networks count s
  = (Ok (count + length networks)%nat,
     set_files (insert p (text ++ zone_text networks)%string) s).
Proof.
  intros Hw. revert count s text.
  induction networks as [|n rest IH]; intros count s text Hp.
  - cbn. unfold ret. f_equal; [f_equal; lia|].
    rewrite append_nil_r. destruct s as [f d l]. unfold set_files. cbn in *.
    by rewrite insert_id.
  - cbn [write_lines zone_text foldr].
    rewrite (bind_ok _ _ _ _ _ (write_spec _ _ _ Hw)), Hp. cbn [default].
    rewrite (IH _ _ (text ++ net_str n ++ newline)%string)
      by (cbn; apply lookup_insert_eq).
    f_equal; [f_equal; cbn; lia|]. unfold set_files. cbn.
    rewrite insert_insert_eq. by rewrite !append_assoc.
Qed.

(** With no network the loop writes nothing, so no write can fail. *)
Lemma write_lines_nil p count s :
  write_lines io_fails io_cut p [] count s = (Ok count, s).
Proof. reflexivity. Qed.

(** A write that fails is the first of the loop. *)
Lemma write_lines_raise p n rest count s :
  io_fails Write p = true →
  write_lines io_fails io_cut p (n :: rest) count s
  = (Raise OSError,
     set_files (insert p (str_take (io_cut p)
                            (default EmptyString (files s !! p)
                             ++ net_str n ++ newline))) s).
Proof.
  intros Hw. cbn [write_lines]. by rewrite (bind_raise _ _ _ _ _ (write_raise _ _ _ Hw)).
Qed.

(** The block of a file that is opened, written and closed with no
    failure. *)
Lemma with_open_w_ok {A} p (body : M fs A) s a s1 :
  io_fails OpenW p = false → io_fails Close p = false →
  body (set_files (insert p EmptyString) s) = (Ok a, s1) →
  with_open_w io_fails io_cut p body s = (Ok a, s1).
Proof.
  intros Ho Hc Hb. unfold with_open_w.
  rewrite (bind_ok _ _ _ _ _ (open_w_ok p s Ho)).
  unfold finally, on_raise, bind. rewrite Hb, (close_w_ok _ _ Hc). reflexivity.
Qed.

(** What [save_zone_file] does when nothing fails. *)
Lemma save_zone_file_ok zone_file networks s :
  can_write io_fails zone_file s →
  save_zone_file io_fails io_cut zone_file networks s
  = (Ok PyNone,
     add_log (Saved (length networks) zone_file)
       (set_files (insert zone_file (zone_text networks)) (ensured zone_file s))).
Proof.
  intros (Hdir & Hopen & Hwrite & Hclose). unfold save_zone_file.
  rewrite (bind_ok _ _ _ _ _ (ensure_file_dir_exists_ok zone_file s Hdir)).
  erewrite bind_ok.
  2:{ apply (with_open_w_ok _ _ _ _ _ Hopen Hclose).
      apply (write_lines_spec _ _ _ _ EmptyString Hwrite). cbn. apply lookup_insert_eq. }
  unfold bind, modify, ret. cbn. f_equal. unfold add_log, set_files. cbn.
  by rewrite insert_insert_eq.
Qed.

(** When it raises, something could not be done. *)
Lemma save_zone_file_raise zone_file networks s e s' :
  save_zone_file io_fails io_cut zone_file networks s = (Raise e, s') →
  ¬ can_write io_fails zone_file s.
Proof.
  intros H Hc. rewrite (save_zone_file_ok _ _ _ Hc) in H. discriminate.
Qed.

(** C4, as the code has it: when the directory exists or can be made,
    the file can be opened, and the writes and the flush at the close
    succeed, [save_zone_file] returns [None]; the file then holds one
    line per network, in the order given and in place of what it held
    before, and the count the log message reports is the length of the
    sequence. *)
Theorem save_zone_file_writes zone_file networks s :
  exists_path (parent zone_file) s = true ∨ can_mkdir io_fails (parent zone_file) s →
  io_fails OpenW zone_file = false →
  io_fails Write zone_file = false →
  io_fails Close zone_file = false →
  ∃ s', save_zone_file io_fails io_cut zone_file networks s = (Ok PyNone, s')
        ∧ files s' = <[zone_file := zone_text networks]> (files s)
        ∧ log s' = log s ++ [Saved (length networks) zone_file].
Proof.
  intros Hdir Hopen Hwrite Hclose. eexists. split; [by apply save_zone_file_ok|].
  cbn. by rewrite files_ensured, log_ensured.
Qed.

End Writer.

Lemma save_zone_file_writes_witness :
  ∃ s', save_zone_file Sample.no_failure Sample.cut ["countries"; "ipv4"; "cn.zone"]
          Sample.networks Sample.empty_fs = (Ok PyNone, s')
        ∧ files s' = <[["countries"; "ipv4"; "cn.zone"] := zone_text Sample.networks]>
                       (files Sample.empty_fs)
        ∧ log s' = log Sample.empty_fs
                   ++ [Saved (length Sample.networks) ["countries"; "ipv4"; "cn.zone"]].
Proof.
  apply (save_zone_file_writes Sample.no_failure Sample.cut);
    [right; by repeat constructor|reflexivity..].
Defined.

(** A write that fails: the call raises, the open has emptied the file,
    and the first characters of the first line are all it holds. *)
Example save_zone_file_write_fails :
  (save_zone_file Sample.qq_full Sample.cut ["domains"; "ipv4"; "qq.com.zone"]
     Sample.networks Sample.used_fs).1 = Raise OSError
  ∧ files (save_zone_file Sample.qq_full Sample.cut ["domains"; "ipv4"; "qq.com.zone"]
             Sample.networks Sample.used_fs).2 !! ["domains"; "ipv4"; "qq.com.zone"]
    = Some "1.0."
  ∧ log (save_zone_file Sample.qq_full Sample.cut ["domains"; "ipv4"; "qq.com.zone"]
           Sample.networks Sample.used_fs).2 = [].
Proof. repeat split; vm_compute; reflexivity. Qed.

(** C4 as stated fails: the call returns [None], not the number of
    lines. *)
Lemma save_zone_file_returns_none :
  (save_zone_file Sample.no_failure Sample.cut ["countries"; "ipv4"; "cn.zone"]
     Sample.networks Sample.empty_fs).1 = Ok PyNone
  ∧ (save_zone_file Sample.no_failure Sample.cut ["countries"; "ipv4"; "cn.zone"]
       Sample.networks Sample.empty_fs).1
    ≠ Ok (PyInt (Z.of_nat (length Sample.networks))).
Proof. split; [vm_compute; reflexivity|vm_compute; discriminate]. Qed.

End ZoneFacts.

(** ** The record scan *)

Module ScanFacts.
Import PyStr Rules Classifier Net StateExn Zone Pipeline.
Import StateExnFacts ClassifierFacts.

(** *** The grouping tables *)

Lemma table_add_keys key ipv net (tbl : table) :
  (table_add key ipv net tbl).*1
  = if decide (key ∈ tbl.*1) then tbl.*1 else tbl.*1 ++ [key].
Proof.
  induction tbl as [|[k m] rest IH]; [reflexivity|]. cbn [table_add].
  destruct (decide (k = key)) as [->|Hne]; cbn [fmap list_fmap fst].
  - rewrite decide_True by apply list_elem_of_here. reflexivity.
  - fold (@fmap list _ _ _ (@fst string by_version) (table_add key ipv net rest)).
    fold (@fmap list _ _ _ (@fst string by_version) rest).
    rewrite IH. destruct (decide (key ∈ rest.*1)) as [Hin|Hout].
    + rewrite decide_True by (by apply list_elem_of_further). reflexivity.
    + rewrite decide_False; [reflexivity|].
      rewrite elem_of_cons. intros [Heq|Hin]; [by apply Hne|by apply Hout].
Qed.

Lemma table_add_NoDup key ipv net (tbl : table) :
  NoDup tbl.*1 → NoDup (table_add key ipv net tbl).*1.
Proof.
  intros H. rewrite table_add_keys. destruct (decide _) as [Hin|Hout]; [done|].
  apply NoDup_app. split; [done|]. split; [|apply NoDup_singleton].
  intros x Hx Hk. apply list_elem_of_singleton in Hk as ->. by apply Hout.
Qed.

Lemma table_add_keys_in (P : string → Prop) key ipv net (tbl : table) :
  P key → (∀ k, k ∈ tbl.*1 → P k) → ∀ k, k ∈ (table_add key ipv net tbl).*1 → P k.
Proof.
  intros Hk Ht k. rewrite table_add_keys. destruct (decide _); [apply Ht|].
  rewrite elem_of_app, list_elem_of_singleton. intros [?| ->]; auto.
Qed.

Lemma AS_DOMAIN_KV_domain dom obj :
  AS_DOMAIN_KV !! dom = Some obj → lower dom ∈ domain_keys.
Proof.
  unfold AS_DOMAIN_KV, AS_DOMAINS; cbn [foldl].
  intros H.
  repeat (apply lookup_insert_Some in H as [[<- _]|[_ H]];
          [vm_compute; set_solver|]).
  by rewrite lookup_empty in H.
Qed.

Lemma is_filter_domain_true ip :
  is_filter_domain ip = Ok true →
  ∃ dom, as_domain ip = VStr dom ∧ lower dom ∈ domain_keys.
Proof.
  unfold is_filter_domain. destruct (truthy (as_domain ip)); [|discriminate].
  destruct (as_domain ip) as [dom| | | | |]; unfold kv_get, res_bind;
    try discriminate.
  destruct (AS_DOMAIN_KV !! dom) as [obj|] eqn:E; [|discriminate].
  intros _. exists dom. split; [reflexivity|]. exact (AS_DOMAIN_KV_domain dom obj E).
Qed.

Lemma is_cn_lower ip : is_cn ip = true → value_lower (country_code ip) = Ok "cn".
Proof.
  unfold is_cn, eq_str. destruct (country_code ip) as [s| | | | |]; try discriminate.
  intros H. apply bool_decide_eq_true in H as ->. reflexivity.
Qed.

Section Scan.
Variable ip_network : string → res IPNetwork.

(** The tables a record leaves, whether its body raised or not. *)
Lemma observe_state network record g :
  (observe ip_network network record g).2 =
  match from_dict record with
  | Raise _ => g
  | Ok ip =>
      if is_cn ip then
        match ip_network network with
        | Raise _ => g
        | Ok net =>
            let g1 := add_country "cn" (ipv net) net g in
            match is_filter_domain ip with
            | Ok true =>
                match value_lower (as_domain ip) with
                | Ok d => add_domain d (ipv net) net g1
                | Raise _ => g1
                end
            | _ => g1
            end
        end
      else g
  end.
Proof.
  unfold observe, bind, lift, modify, ret.
  destruct (from_dict record) as [ip|]; [|reflexivity].
  destruct (is_cn ip) eqn:Hcn; [|reflexivity].
  destruct (ip_network network) as [net|]; [|reflexivity].
  rewrite (is_cn_lower ip Hcn).
  destruct (is_filter_domain ip) as [[]|]; [|reflexivity..].
  destruct (value_lower (as_domain ip)); reflexivity.
Qed.

Lemma scan_state db g :
  (scan ip_network db g).2
  = foldl (fun g kv => (observe ip_network kv.1 kv.2 g).2) g db.
Proof. apply for_each_try_continue_state. Qed.

Lemma scan_ok db g : (scan ip_network db g).1 = Ok tt.
Proof. apply for_each_try_continue. Qed.

Lemma observe_tables_ok network record g :
  tables_ok g → tables_ok (observe ip_network network record g).2.
Proof.
  intros Hg. rewrite observe_state.
  destruct (from_dict record) as [ip|]; [|done].
  destruct (is_cn ip); [|done]. destruct (ip_network network) as [net|]; [|done].
  assert (H1 : tables_ok (add_country "cn" (ipv net) net g)).
  { destruct Hg as (H1 & H2 & H3 & H4). repeat split; cbn; [| |done..].
    - by apply table_add_NoDup.
    - by apply table_add_keys_in. }
  cbn zeta. destruct (is_filter_domain ip) as [[]|] eqn:E; [|done..].
  apply is_filter_domain_true in E as (dom & Hdom & Hkey). rewrite Hdom. cbn.
  destruct H1 as (H1 & H2 & H3 & H4). repeat split; cbn; [done..| |].
  - by apply table_add_NoDup.
  - by apply table_add_keys_in.
Qed.

Lemma scan_tables_ok db g : tables_ok g → tables_ok (scan ip_network db g).2.
Proof.
  rewrite scan_state. revert g. induction db as [|kv db IH]; intros g Hg; [done|].
  cbn [foldl]. apply IH. by apply observe_tables_ok.
Qed.

Lemma scan_groups_tables_ok db : tables_ok (scan_groups ip_network db).
Proof.
  apply scan_tables_ok. repeat split; cbn; try apply NoDup_nil_2; set_solver.
Qed.

Lemma observe_unusable network record g :
  unusable ip_network network record → (observe ip_network network record g).2 = g.
Proof.
  unfold unusable. rewrite observe_state.
  destruct (from_dict record) as [ip|]; [|reflexivity].
  destruct (is_cn ip); [|reflexivity].
  destruct (ip_network network); [|reflexivity].
  cbn. intros [H|H]; discriminate.
Qed.

(** C6, as the code has it: a record from which no [IPInfo] can be
    built, or whose key does not parse as a network, enters neither
    table; the scan of a database that contains it returns normally
    with the tables of the scan without it; and no scan raises. *)
Theorem scan_skips_unusable db1 db2 network record g :
  unusable ip_network network record →
  (observe ip_network network record g).2 = g
  ∧ scan ip_network (db1 ++ (network, record) :: db2) g
    = (Ok tt, (scan ip_network (db1 ++ db2) g).2)
  ∧ ∀ db, (scan ip_network db g).1 = Ok tt.
Proof.
  intros H. split; [by apply observe_unusable|]. split; [|intros; apply scan_ok].
  rewrite (surjective_pairing (scan _ (db1 ++ _ :: db2) g)), scan_ok. f_equal.
  rewrite !scan_state, !foldl_app. cbn [foldl fst snd].
  by rewrite observe_unusable.
Qed.

(** C10, the table: the scan leaves no country group or exactly the
    group of [cn]. *)
Lemma scan_countries_cn db :
  (countries (scan_groups ip_network db)).*1 = []
  ∨ (countries (scan_groups ip_network db)).*1 = ["cn"].
Proof.
  destruct (scan_groups_tables_ok db) as (Hnd & Hcn & _).
  destruct ((countries (scan_groups ip_network db)).*1) as [|c [|c' l]]; [by left| |].
  - right. f_equal. apply Hcn. set_solver.
  - exfalso. assert (c = "cn") as -> by (apply Hcn; set_solver).
    assert (c' = "cn") as -> by (apply Hcn; set_solver).
    apply NoDup_cons in Hnd as [Hnd _]. set_solver.
Qed.

End Scan.

Lemma scan_skips_unusable_witness :
  unusable Sample.ip_network "no network" (Sample.record "CN" "qq.com" "Tencent")
  ∧ scan Sample.ip_network
      ([("1.0.1.0/24", Sample.record "CN" "qq.com" "Tencent")]
         ++ ("no network", Sample.record "CN" "qq.com" "Tencent")
         :: [("1.0.0.0/24", Sample.record "CN" "baidu.com" "Baidu")]) no_groups
    = (Ok tt,
       (scan Sample.ip_network
          ([("1.0.1.0/24", Sample.record "CN" "qq.com" "Tencent")]
             ++ [("1.0.0.0/24", Sample.record "CN" "baidu.com" "Baidu")])
          no_groups).2).
Proof.
  assert (H : unusable Sample.ip_network "no network"
                (Sample.record "CN" "qq.com" "Tencent"))
    by (right; reflexivity).
  split; [exact H|].
  exact (proj1 (proj2 (scan_skips_unusable Sample.ip_network _ _ _ _ no_groups H))).
Defined.

(** C6 as stated fails: classifying this record raises, at the AS-name
    test, and by then its network is in the country table. *)
Lemma odd_record_half_inserted :
  raised (res_bind (from_dict Sample.odd_record) is_filter_domain) = true
  ∧ (observe Sample.ip_network "1.0.1.0/24" Sample.odd_record no_groups).1
    = Raise TypeError
  ∧ (observe Sample.ip_network "1.0.1.0/24" Sample.odd_record no_groups).2
    = mkGroups [("cn", {["ipv4" := {[Sample.v4 1 0 1 0 24]}]})] [].
Proof. repeat split; vm_compute; reflexivity. Qed.

End ScanFacts.

(** ** The output phase *)

Module OutputFacts.
Import PyStr Rules Classifier Net Collapse StateExn StateExn.Notations Zone Pipeline.
Import StrFacts StateExnFacts ZoneFacts CollapseFacts ScanFacts.

(** *** Which files a computation can change *)

Lemma only_writes_weaken {A} (m : M fs A) (P Q : path → Prop) :
  (∀ p, P p → Q p) → only_writes m P → only_writes m Q.
Proof. intros HPQ Hm s p Hp. apply Hm. auto. Qed.

Lemma only_writes_ret {A} (a : A) P : only_writes (ret a) P.
Proof. by intros s p _. Qed.

Lemma only_writes_throw {A} e P : only_writes (throw (A:=A) e) P.
Proof. by intros s p _. Qed.

Lemma only_writes_gets {A} (f : fs → A) P : only_writes (gets f) P.
Proof. by intros s p _. Qed.

Lemma only_writes_bind {A B} (m : M fs A) (k : A → M fs B) P :
  only_writes m P → (∀ a, only_writes (k a) P) → only_writes (bind m k) P.
Proof.
  intros Hm Hk s p Hp. unfold bind. specialize (Hm s p Hp).
  destruct (m s) as [[a|e] s1]; cbn in *; [|done]. by rewrite (Hk a s1 p Hp).
Qed.

Lemma only_writes_for_each {A} (l : list A) (body : A → M fs unit) P :
  (∀ x, x ∈ l → only_writes (body x) P) → only_writes (for_each l body) P.
Proof.
  induction l as [|x l IH]; intros H; [apply only_writes_ret|].
  cbn [for_each]. apply only_writes_bind; [apply H; left|].
  intros _. apply IH. intros y Hy. apply H. by right.
Qed.

Lemma only_writes_add_dirs d P : only_writes (modify (add_dirs d)) P.
Proof. by intros s p _. Qed.

Lemma only_writes_add_log e P : only_writes (modify (add_log e)) P.
Proof. by intros s p _. Qed.

Section Writer.
Variable io_fails : io_op → path → bool.
Variable io_cut : path → nat.

Lemma only_writes_on_raise {A} (m : M fs A) (c : M fs unit) P :
  only_writes m P → only_writes c P → only_writes (on_raise m c) P.
Proof.
  intros Hm Hc s p Hp. unfold on_raise. specialize (Hm s p Hp).
  destruct (m s) as [[a|e] s1]; cbn in *; [done|].
  specialize (Hc s1 p Hp). destruct (c s1) as [[[]|e'] s2]; cbn in *; congruence.
Qed.

Lemma only_writes_finally {A} (m : M fs A) (c : M fs unit) P :
  only_writes m P → only_writes c P → only_writes (finally m c) P.
Proof.
  intros Hm Hc. unfold finally.
  apply only_writes_bind; [by apply only_writes_on_raise|intros a].
  apply only_writes_bind; [done|intros _; apply only_writes_ret].
Qed.

Lemma only_writes_mkdir_step d P : only_writes (mkdir_step io_fails d) P.
Proof.
  intros s p _. rewrite mkdir_step_cases. destruct (bool_decide _); [done|].
  by destruct (io_fails Mkdir d).
Qed.

Lemma only_writes_ensure file_path P :
  only_writes (ensure_file_dir_exists io_fails file_path) P.
Proof.
  apply only_writes_bind; [apply only_writes_gets|]. intros [].
  - apply only_writes_ret.
  - unfold mkdir_parents. apply only_writes_for_each. intros d _.
    apply only_writes_mkdir_step.
Qed.

Lemma only_writes_open_w p : only_writes (open_w io_fails p) (eq p).
Proof.
  unfold open_w. destruct (io_fails OpenW p); [apply only_writes_throw|].
  intros s q Hq. cbn. by apply lookup_insert_ne.
Qed.

Lemma only_writes_write p text : only_writes (write io_fails io_cut p text) (eq p).
Proof.
  intros s q Hq. unfold write, bind, gets.
  destruct (io_fails Write p); cbn; by apply lookup_insert_ne.
Qed.

Lemma only_writes_close_w p : only_writes (close_w io_fails io_cut p) (eq p).
Proof.
  intros s q Hq. unfold close_w, bind.
  destruct (io_fails Close p); cbn; [by apply lookup_insert_ne|done].
Qed.

Lemma only_writes_with_open_w {A} p (body : M fs A) (P : path → Prop) :
  P p → only_writes body P → only_writes (with_open_w io_fails io_cut p body) P.
Proof.
  intros Hp Hbody. unfold with_open_w. apply only_writes_bind.
  { eapply only_writes_weaken; [|apply only_writes_open_w]. by intros q <-. }
  intros _. apply only_writes_finally; [done|].
  eapply only_writes_weaken; [|apply only_writes_close_w]. by intros q <-.
Qed.

Lemma only_writes_write_lines p networks count :
  only_writes (write_lines io_fails io_cut p networks count) (eq p).
Proof.
  revert count. induction networks as [|n rest IH]; intros count;
    [apply only_writes_ret|].
  cbn [write_lines]. apply only_writes_bind; [apply only_writes_write|auto].
Qed.

Lemma only_writes_save zone_file networks :
  only_writes (save_zone_file io_fails io_cut zone_file networks) (eq zone_file).
Proof.
  unfold save_zone_file.
  apply only_writes_bind; [apply only_writes_ensure|intros _].
  apply only_writes_bind;
    [apply only_writes_with_open_w; [done|apply only_writes_write_lines]|intros count].
  apply only_writes_bind; [apply only_writes_add_log|intros _].
  apply only_writes_ret.
Qed.

Lemma only_writes_read src P : only_writes (read io_fails src) P.
Proof.
  unfold read. destruct (io_fails OpenR src); [apply only_writes_throw|].
  apply only_writes_bind; [apply only_writes_gets|].
  intros [text|]; [apply only_writes_ret|apply only_writes_throw].
Qed.

Lemma only_writes_copyfileobj src dst :
  only_writes (copyfileobj io_fails io_cut src dst) (eq dst).
Proof.
  unfold copyfileobj. apply only_writes_bind; [apply only_writes_read|].
  intros text. destruct (nonempty text); [apply only_writes_write|apply only_writes_ret].
Qed.

End Writer.

(** *** Paths *)

Lemma zone_path_inj kind version k1 k2 :
  zone_path kind version k1 = zone_path kind version k2 → k1 = k2.
Proof. unfold zone_path. intros [= H]. exact (append_inj_r _ _ _ H). Qed.

Lemma zone_path_not_aggregated version d :
  d ≠ "aggregated" → zone_path "domains" version d ≠ aggregated_path version.
Proof.
  unfold zone_path, aggregated_path. intros Hd [= H]. apply Hd.
  exact (append_inj_r d "aggregated" ".zone" H).
Qed.

Lemma aggregated_not_domain_key : "aggregated" ∉ domain_keys.
Proof. vm_compute. intros H. repeat (apply elem_of_cons in H as [H|H]; [discriminate|]).
       by apply elem_of_nil in H. Qed.


Lemma read_ok io_fails p text s :
  io_fails OpenR p = false → files s !! p = Some text →
  read io_fails p s = (Ok text, s).
Proof. intros Hr H. unfold read, bind, gets. by rewrite Hr, H. Qed.

Section Driver.
Variable set_iter : string → string → string → gset IPNetwork → list IPNetwork.
Variable io_fails : io_op → path → bool.
Variable io_cut : path → nat.

Lemma domain_texts_visited version doms :
  (domain_texts set_iter version doms).*1 = visited version doms.
Proof.
  induction doms as [|[d m] rest IH]; [reflexivity|].
  cbn [domain_texts visited]. destruct (m !! version) as [st|]; [|exact IH].
  cbn. by rewrite <- IH.
Qed.

(** *** Which files the passes can change *)

Lemma only_writes_country_body version c m :
  only_writes (country_body set_iter io_fails io_cut version (c, m))
    (eq (zone_path "countries" version c)).
Proof.
  unfold country_body. destruct (m !! version); [|apply only_writes_ret].
  apply only_writes_bind; [apply only_writes_save|intros _; apply only_writes_ret].
Qed.

Lemma only_writes_domain_body version d m :
  only_writes (domain_body set_iter io_fails io_cut version (d, m))
    (fun p => p = zone_path "domains" version d ∨ p = aggregated_path version).
Proof.
  unfold domain_body. destruct (m !! version); [|apply only_writes_ret].
  apply only_writes_bind.
  - eapply only_writes_weaken; [|apply only_writes_save]. intros p <-. by left.
  - intros _. eapply only_writes_weaken; [|apply only_writes_copyfileobj].
    intros p <-. by right.
Qed.

Lemma only_writes_version_pass g version :
  only_writes (version_pass set_iter io_fails io_cut g version) (targets g version).
Proof.
  unfold version_pass, domain_pass. apply only_writes_bind.
  { apply only_writes_for_each. intros [c m] Hc.
    eapply only_writes_weaken; [|apply only_writes_country_body].
    intros p <-. left. exists c. split; [|done].
    apply list_elem_of_fmap. by exists (c, m). }
  intros _. apply only_writes_bind; [apply only_writes_ensure|intros _].
  apply only_writes_with_open_w; [by right; right|].
  apply only_writes_for_each. intros [d m] Hd.
  eapply only_writes_weaken; [|apply only_writes_domain_body].
  intros p [->| ->]; [|by right; right]. right; left. exists d. split; [|done].
  apply list_elem_of_fmap. by exists (d, m).
Qed.

(** *** A run in which no file operation fails *)

Section NoFailure.
Hypothesis io_ok : ∀ op p, io_fails op p = false.

Lemma can_mkdir_any p s : can_mkdir io_fails p s.
Proof. apply Forall_forall. intros d _. right. apply io_ok. Qed.

Lemma can_write_any zone_file s : can_write io_fails zone_file s.
Proof. split; [right; apply can_mkdir_any|]. repeat split; apply io_ok. Qed.

Lemma country_loop_ok version ctrs s :
  ∃ s', for_each ctrs (country_body set_iter io_fails io_cut version) s = (Ok tt, s').
Proof.
  revert s. induction ctrs as [|[c m] rest IH]; intros s; [by eexists|].
  cbn [for_each]. unfold country_body at 1.
  destruct (m !! version) as [st|].
  - unfold bind at 1 2.
    rewrite (save_zone_file_ok io_fails io_cut _ _ _ (can_write_any _ s)). apply IH.
  - unfold bind, ret. apply IH.
Qed.

Lemma domain_body_ok version d m st s acc :
  m !! version = Some st → d ≠ "aggregated" →
  files s !! aggregated_path version = Some acc →
  ∃ s', domain_body set_iter io_fails io_cut version (d, m) s = (Ok tt, s')
        ∧ files s'
          = <[aggregated_path version :=
                (acc ++ zone_text (group_networks set_iter "domains" d version st))%string]>
              (<[zone_path "domains" version d :=
                   zone_text (group_networks set_iter "domains" d version st)]>
                 (files s)).
Proof.
  intros Hm Hd Hacc. unfold domain_body. rewrite Hm.
  set (text := zone_text _). set (zf := zone_path "domains" version d).
  assert (Hne : zf ≠ aggregated_path version) by by apply zone_path_not_aggregated.
  rewrite (bind_ok _ _ _ _ _ (save_zone_file_ok io_fails io_cut zf _ s (can_write_any _ s))).
  set (s1 := add_log _ _).
  assert (Hs1 : files s1 = <[zf := text]> (files s))
    by (subst s1; cbn; by rewrite files_ensured).
  assert (Hagg : files s1 !! aggregated_path version = Some acc)
    by (by rewrite Hs1, lookup_insert_ne).
  unfold copyfileobj.
  rewrite (bind_ok _ _ _ _ _ (read_ok io_fails zf text s1 (io_ok _ _)
             ltac:(rewrite Hs1; apply lookup_insert_eq))).
  destruct (nonempty text) eqn:Hne'.
  - rewrite write_spec by apply io_ok. eexists. split; [reflexivity|].
    unfold set_files. cbn [files]. by rewrite Hagg, Hs1.
  - exists s1. split; [reflexivity|].
    assert (text = EmptyString) as -> by (by destruct text).
    rewrite append_nil_r, <- Hs1. symmetry. by apply insert_id.
Qed.

(** The domain loop of one version: every visited domain gets its
    file, and the aggregated file grows by the same texts, in the
    order of the visit. *)
Lemma domain_loop_ok version doms s acc :
  NoDup doms.*1 → "aggregated" ∉ doms.*1 →
  files s !! aggregated_path version = Some acc →
  ∃ s', for_each doms (domain_body set_iter io_fails io_cut version) s = (Ok tt, s')
        ∧ files s' !! aggregated_path version
          = Some (acc ++ concat_str (domain_texts set_iter version doms).*2)%string
        ∧ ∀ d t, (d, t) ∈ domain_texts set_iter version doms →
                 files s' !! zone_path "domains" version d = Some t.
Proof.
  revert s acc. induction doms as [|[d m] rest IH]; intros s acc Hnd Hagg Hacc.
  { exists s. split; [reflexivity|]. split; [by rewrite append_nil_r|].
    intros d t H. by apply elem_of_nil in H. }
  cbn [fmap list_fmap fst] in Hnd, Hagg.
  apply NoDup_cons in Hnd as [Hd Hnd]. apply not_elem_of_cons in Hagg as [Hda Hagg].
  cbn [for_each domain_texts].
  destruct (m !! version) as [st|] eqn:Hm.
  - destruct (domain_body_ok version d m st s acc Hm (not_eq_sym Hda) Hacc)
      as (s1 & Hbody & Hfiles).
    rewrite (bind_ok _ _ _ _ _ Hbody).
    set (text := zone_text _) in *.
    destruct (IH s1 (acc ++ text)%string Hnd Hagg) as (s' & Hloop & Hagg' & Hzone).
    { rewrite Hfiles. apply lookup_insert_eq. }
    exists s'. split; [exact Hloop|]. split.
    { rewrite Hagg'. cbn. by rewrite append_assoc. }
    intros d' t. rewrite elem_of_cons. intros [[= -> ->]|Hin]; [|by apply Hzone].
    assert (Hkeep : only_writes (for_each rest (domain_body set_iter io_fails io_cut version))
              (fun p => (∃ d', d' ∈ rest.*1 ∧ p = zone_path "domains" version d')
                        ∨ p = aggregated_path version)).
    { apply only_writes_for_each. intros [d' m'] Hin.
      eapply only_writes_weaken; [|apply only_writes_domain_body].
      intros p [->| ->]; [left|by right]. exists d'. split; [|done].
      apply list_elem_of_fmap. by exists (d', m'). }
    specialize (Hkeep s1 (zone_path "domains" version d)). rewrite Hloop in Hkeep.
    cbn in Hkeep. rewrite Hkeep.
    + rewrite Hfiles, lookup_insert_ne, lookup_insert_eq; [done|].
      apply not_eq_sym, zone_path_not_aggregated. by apply not_eq_sym.
    + intros [(d' & Hd' & Heq)|Heq].
      * apply zone_path_inj in Heq as ->. done.
      * revert Heq. apply zone_path_not_aggregated. by apply not_eq_sym.
  - assert (Hbody : domain_body set_iter io_fails io_cut version (d, m) s = (Ok tt, s))
      by (unfold domain_body; by rewrite Hm).
    rewrite (bind_ok _ _ _ _ _ Hbody). by apply IH.
Qed.

Lemma version_pass_ok g version s :
  NoDup (domains g).*1 → "aggregated" ∉ (domains g).*1 →
  ∃ s', version_pass set_iter io_fails io_cut g version s = (Ok tt, s')
        ∧ files s' !! aggregated_path version
          = Some (concat_str (domain_texts set_iter version (domains g)).*2)
        ∧ ∀ d t, (d, t) ∈ domain_texts set_iter version (domains g) →
                 files s' !! zone_path "domains" version d = Some t.
Proof.
  intros Hnd Hagg. unfold version_pass, domain_pass.
  destruct (country_loop_ok version (countries g) s) as (s1 & Hc).
  rewrite (bind_ok _ _ _ _ _ Hc).
  rewrite (bind_ok _ _ _ _ _ (ensure_file_dir_exists_ok io_fails _ s1
             (or_intror (can_mkdir_any _ _)))).
  destruct (domain_loop_ok version (domains g)
              (set_files (insert (aggregated_path version) EmptyString)
                 (ensured (aggregated_path version) s1)) EmptyString Hnd Hagg)
    as (s' & Hloop & Hfiles); [cbn; apply lookup_insert_eq|].
  exists s'. split; [|exact Hfiles].
  by apply with_open_w_ok; [apply io_ok..|].
Qed.

End NoFailure.

End Driver.

End OutputFacts.

(** ** The pipeline as a whole *)

Module PipelineFacts.
Import PyStr Rules Classifier Net Collapse StateExn StateExn.Notations Zone Pipeline.
Import StrFacts StateExnFacts ZoneFacts CollapseFacts ScanFacts OutputFacts.

(** *** The output phase as one sequence of steps *)

Section Driver.
Variable set_iter : string → string → string → gset IPNetwork → list IPNetwork.
Variable io_fails : io_op → path → bool.
Variable io_cut : path → nat.

Lemma version_pass_jobs g version s :
  version_pass set_iter io_fails io_cut g version s
  = for_each (jobs_of g version) (run_job set_iter io_fails io_cut) s.
Proof.
  unfold jobs_of, version_pass, domain_pass, with_open_w. rewrite for_each_app.
  apply bind_cong; [by rewrite for_each_map|]. intros _ s1.
  cbn [for_each run_job]. unfold bind at 1 2 3 4.
  destruct (ensure_file_dir_exists _ _ s1) as [[[]|e] s2]; [|reflexivity].
  destruct (open_w _ _ s2) as [[[]|e] s3]; [|reflexivity].
  rewrite finally_for_each, for_each_app.
  apply bind_cong; [by rewrite for_each_map|]. intros _ s4.
  cbn [for_each run_job]. by rewrite bind_ret_tt.
Qed.

Lemma output_phase_jobs g s :
  output_phase set_iter io_fails io_cut g s = for_each (jobs g) (run_job set_iter io_fails io_cut) s.
Proof.
  unfold output_phase, jobs, ip_versions. cbn [map concat for_each].
  rewrite app_nil_r, for_each_app.
  apply bind_cong; [apply version_pass_jobs|]. intros _ s1.
  rewrite bind_ret_tt. apply version_pass_jobs.
Qed.

(** C2, as the code has it: the output phase runs its steps in one
    sequence, and a step that raises, because a directory cannot be
    made, a file cannot be opened, or a write or the flush at a close
    fails, ends it. The exception is the result of the whole phase, the
    state is the one the failed step left, and the steps after it, among
    them the zone files of all later group keys, are not run. *)
Theorem write_failure_ends_output_phase g pre j post s s1 e s2 :
  jobs g = pre ++ j :: post →
  for_each pre (run_job set_iter io_fails io_cut) s = (Ok tt, s1) →
  (run_job set_iter io_fails io_cut) j s1 = (Raise e, s2) →
  output_phase set_iter io_fails io_cut g s = (Raise e, s2).
Proof.
  intros Hjobs Hpre Hj. rewrite output_phase_jobs, Hjobs.
  exact (for_each_raise pre post j (run_job set_iter io_fails io_cut) s s1 e s2 Hpre Hj).
Qed.

(** *** Files of the whole phase *)

Lemma only_writes_output_phase g :
  only_writes (output_phase set_iter io_fails io_cut g)
    (fun p => targets g "ipv4" p ∨ targets g "ipv6" p).
Proof.
  unfold output_phase, ip_versions. cbn [for_each].
  apply only_writes_bind.
  { eapply only_writes_weaken; [|apply only_writes_version_pass]. by left. }
  intros _. apply only_writes_bind; [|intros _; apply only_writes_ret].
  eapply only_writes_weaken; [|apply only_writes_version_pass]. by right.
Qed.

Lemma targets_version g version p : targets g version p → p !! 1%nat = Some version.
Proof. intros [(c & _ & ->)|[(d & _ & ->)| ->]]; reflexivity. Qed.

Lemma pairs_Forall2 {A B} (Q : A → B → Prop) (l : list (A * B)) :
  (∀ a b, (a, b) ∈ l → Q a b) → Forall2 Q l.*1 l.*2.
Proof.
  induction l as [|[a b] l IH]; intros H; [constructor|].
  cbn. constructor; [apply H; left|]. apply IH. intros; apply H. by right.
Qed.

End Driver.

Section Extract.
Variable ip_network : string → res IPNetwork.

(** C7: in a run in which no file operation fails, the aggregated file
    of each version ends up holding the texts of the domain zone files
    of that version, in the order the domain groups are visited; what
    it held before the run does not enter the result. *)
Theorem aggregated_is_concatenation set_iter io_fails io_cut db s :
  (∀ op p, io_fails op p = false) →
  ∃ s', extract_ip_networks ip_network set_iter io_fails io_cut db s = (Ok tt, s')
        ∧ ∀ version, version ∈ ip_versions →
            ∃ texts,
              Forall2 (fun d t => files s' !! zone_path "domains" version d = Some t)
                (visited version (domains (scan_groups ip_network db))) texts
              ∧ files s' !! aggregated_path version = Some (concat_str texts).
Proof.
  intros io_ok. unfold extract_ip_networks.
  set (g := scan_groups ip_network db).
  destruct (scan_groups_tables_ok ip_network db) as (_ & _ & Hnd & Hkeys).
  fold g in Hnd, Hkeys.
  assert (Hagg : "aggregated" ∉ (domains g).*1)
    by (intros H; exact (aggregated_not_domain_key (Hkeys _ H))).
  destruct (version_pass_ok set_iter io_fails io_cut io_ok g "ipv4" s Hnd Hagg)
    as (s1 & Hp1 & Ha1 & Hz1).
  destruct (version_pass_ok set_iter io_fails io_cut io_ok g "ipv6" s1 Hnd Hagg)
    as (s2 & Hp2 & Ha2 & Hz2).
  exists s2. split.
  { unfold output_phase, ip_versions. cbn [for_each].
    rewrite (bind_ok _ _ _ _ _ Hp1), (bind_ok _ _ _ _ _ Hp2). reflexivity. }
  assert (Hkeep : ∀ p, p !! 1%nat = Some "ipv4" → files s2 !! p = files s1 !! p).
  { intros p Hp.
    pose proof (only_writes_version_pass set_iter io_fails io_cut g "ipv6" s1 p) as H.
    rewrite Hp2 in H. apply H. intros Ht.
    apply targets_version in Ht. congruence. }
  intros version Hv. exists (domain_texts set_iter version (domains g)).*2.
  rewrite <- domain_texts_visited with (set_iter := set_iter).
  apply elem_of_cons in Hv as [->|Hv];
    [|apply elem_of_cons in Hv as [->|Hv]; [|by apply elem_of_nil in Hv]].
  - split; [|by rewrite Hkeep].
    apply pairs_Forall2. intros d t Hdt. rewrite Hkeep by done. by apply Hz1.
  - split; [|done]. apply pairs_Forall2. exact Hz2.
Qed.

(** C10: the scan leaves no country group or the group of [cn] alone,
    and a run changes no file below [countries] other than the two
    [cn.zone] files. *)
Theorem only_cn_country_files set_iter io_fails io_cut db s :
  ((countries (scan_groups ip_network db)).*1 = []
   ∨ (countries (scan_groups ip_network db)).*1 = ["cn"])
  ∧ ∀ p, head p = Some "countries" →
         p ≠ zone_path "countries" "ipv4" "cn" →
         p ≠ zone_path "countries" "ipv6" "cn" →
         files (extract_ip_networks ip_network set_iter io_fails io_cut db s).2 !! p
         = files s !! p.
Proof.
  split; [apply scan_countries_cn|]. intros p Hhead H4 H6.
  apply only_writes_output_phase.
  destruct (scan_groups_tables_ok ip_network db) as (_ & Hcn & _).
  assert (Hno : ∀ version, version = "ipv4" ∨ version = "ipv6" →
            ¬ targets (scan_groups ip_network db) version p).
  { intros version Hv [(c & Hc & ->)|[(d & _ & ->)| ->]]; [|discriminate..].
    rewrite (Hcn c Hc) in *. destruct Hv as [-> | ->]; done. }
  intros [H|H];
    [exact (Hno "ipv4" (or_introl eq_refl) H)|exact (Hno "ipv6" (or_intror eq_refl) H)].
Qed.

End Extract.

(** *** On the sample database *)

Lemma write_failure_ends_output_phase_witness :
  output_phase Sample.set_iter Sample.qq_full Sample.cut Sample.sample_groups
    Sample.empty_fs
  = (Raise OSError,
     set_files (insert ["domains"; "ipv4"; "qq.com.zone"] "1.0.")
       (for_each (take 2 (jobs Sample.sample_groups))
          (run_job Sample.set_iter Sample.qq_full Sample.cut) Sample.empty_fs).2).
Proof.
  apply (write_failure_ends_output_phase Sample.set_iter Sample.qq_full Sample.cut
           Sample.sample_groups (take 2 (jobs Sample.sample_groups))
           (SaveDomain "ipv4" ("qq.com", {["ipv4" := {[Sample.v4 1 0 1 0 24]}]}))
           (drop 3 (jobs Sample.sample_groups)) Sample.empty_fs
           (for_each (take 2 (jobs Sample.sample_groups))
              (run_job Sample.set_iter Sample.qq_full Sample.cut) Sample.empty_fs).2
           OSError).
  - vm_compute. reflexivity.
  - vm_compute. reflexivity.
  - vm_compute. reflexivity.
Defined.

(** C2 as stated fails: the zone file of [qq.com] cannot be opened, the
    one of [baidu.com] could be, and the run ends with no file for
    [baidu.com]. *)
Lemma sibling_zone_file_not_written :
  visited "ipv4" (domains Sample.sample_groups) = ["qq.com"; "baidu.com"; "chinatelecom.cn"]
  ∧ (∀ op, Sample.qq_fails op (zone_path "domains" "ipv4" "baidu.com") = false)
  ∧ (extract_ip_networks Sample.ip_network Sample.set_iter Sample.qq_fails Sample.cut
       Sample.db Sample.empty_fs).1 = Raise OSError
  ∧ files (extract_ip_networks Sample.ip_network Sample.set_iter Sample.qq_fails
             Sample.cut Sample.db Sample.empty_fs).2
      !! zone_path "domains" "ipv4" "baidu.com"
    = None.
Proof. repeat split; try (by intros []); vm_compute; reflexivity. Qed.

Lemma aggregated_is_concatenation_witness :
  ∃ s', extract_ip_networks Sample.ip_network Sample.set_iter Sample.no_failure Sample.cut
          Sample.db Sample.empty_fs = (Ok tt, s')
        ∧ ∀ version, version ∈ ip_versions →
            ∃ texts,
              Forall2 (fun d t => files s' !! zone_path "domains" version d = Some t)
                (visited version (domains (scan_groups Sample.ip_network Sample.db)))
                texts
              ∧ files s' !! aggregated_path version = Some (concat_str texts).
Proof.
  exact (aggregated_is_concatenation Sample.ip_network Sample.set_iter
           Sample.no_failure Sample.cut Sample.db Sample.empty_fs (fun _ _ => eq_refl)).
Defined.

Example aggregated_sample :
  files (extract_ip_networks Sample.ip_network Sample.set_iter Sample.no_failure Sample.cut
           Sample.db Sample.empty_fs).2 !! aggregated_path "ipv4"
  = Some (zone_text [Sample.v4 1 0 1 0 24; Sample.v4 1 0 0 0 24; Sample.v4 1 0 2 0 23]).
Proof. vm_compute. reflexivity. Qed.

Lemma only_cn_country_files_witness :
  files (extract_ip_networks Sample.ip_network Sample.set_iter Sample.no_failure Sample.cut
           Sample.db Sample.empty_fs).2 !! ["countries"; "ipv4"; "us.zone"]
  = files Sample.empty_fs !! ["countries"; "ipv4"; "us.zone"].
Proof.
  apply (proj2 (only_cn_country_files Sample.ip_network Sample.set_iter
                  Sample.no_failure Sample.cut Sample.db Sample.empty_fs));
    [reflexivity|discriminate|discriminate].
Defined.

Example country_group_cn :
  map fst (countries (scan_groups Sample.ip_network
                        [("1.0.1.0/24", Sample.record "CN" "qq.com" "Tencent");
                         ("1.0.0.0/24", Sample.record "US" "qq.com" "Tencent")]))
  = ["cn"]
  ∧ countries (scan_groups Sample.ip_network
                 [("1.0.0.0/24", Sample.record "US" "qq.com" "Tencent")]) = [].
Proof. split; vm_compute; reflexivity. Qed.
End PipelineFacts.

(** ** What the scan puts into the tables *)

Module GroupFacts.
Import PyStr Rules Classifier Net StateExn Zone Pipeline Groups.
Import StateExnFacts ScanFacts.

Lemma ipv_version_key n : ipv n = version_key (version n).
Proof. destruct n as [[] a p]; reflexivity. Qed.

Lemma table_get_add key ipv net (tbl : table) key' :
  table_get (table_add key ipv net tbl) key'
  = if decide (key = key')
    then Some (inner_add ipv net (default ∅ (table_get tbl key)))
    else table_get tbl key'.
Proof.
  induction tbl as [|[k m] rest IH]; cbn [table_add table_get].
  - destruct (decide (key = key')); reflexivity.
  - destruct (decide (k = key)) as [->|Hk]; cbn [table_get].
    + destruct (decide (key = key')); reflexivity.
    + destruct (decide (k = key')) as [->|Hk'].
      * rewrite decide_False by (intros ->; done). reflexivity.
      * exact IH.
Qed.

Lemma group_table_add key ipv net (tbl : table) key' version :
  group (table_add key ipv net tbl) key' version
  = if decide (key = key' ∧ ipv = version) then {[net]} ∪ group tbl key version
    else group tbl key' version.
Proof.
  unfold group. rewrite table_get_add.
  destruct (decide (key = key')) as [->|Hk].
  - unfold inner_add. destruct (decide (ipv = version)) as [->|Hv].
    + rewrite decide_True by done. rewrite lookup_insert_eq. cbn.
      destruct (table_get tbl key'); reflexivity.
    + rewrite decide_False by (intros [_ ?]; done). rewrite lookup_insert_ne by done.
      destruct (table_get tbl key'); [reflexivity|]. cbn. by rewrite lookup_empty.
  - rewrite decide_False by (intros [? _]; done). reflexivity.
Qed.

Lemma table_get_keys (tbl : table) key :
  key ∈ tbl.*1 ↔ is_Some (table_get tbl key).
Proof.
  induction tbl as [|[k m] rest IH]; cbn [table_get fmap list_fmap fst].
  - split; [intros H; by apply elem_of_nil in H|intros [? ?]; discriminate].
  - rewrite elem_of_cons. destruct (decide (k = key)) as [->|Hk].
    + split; [eauto|auto].
    + rewrite <- IH. split; [intros [->|?]; done|auto].
Qed.

Section Scan.
Variable ip_network : string → res IPNetwork.

(** One record and the country groups. *)
Lemma observe_country network record g key version net :
  net ∈ group (countries (observe ip_network network record g).2) key version
  ↔ net ∈ group (countries g) key version
    ∨ (key = "cn" ∧ ipv net = version ∧ country_record ip_network network record net).
Proof.
  rewrite observe_state. unfold country_record.
  destruct (from_dict record) as [ip|e];
    [|split; [auto|intros [?|(_ & _ & ? & ? & _)]; [done|discriminate]]].
  destruct (is_cn ip) eqn:Hcn;
    [|split; [auto|intros [?|(_ & _ & ? & [= <-] & ? & _)]; [done|congruence]]].
  destruct (ip_network network) as [n|e];
    [|split; [auto|intros [?|(_ & _ & ? & _ & _ & ?)]; [done|discriminate]]].
  assert (Hc : ∀ g', countries g' = countries (add_country "cn" (ipv n) n g) →
            net ∈ group (countries g') key version
            ↔ net ∈ group (countries g) key version
              ∨ (key = "cn" ∧ ipv net = version
                 ∧ ∃ ip0, Ok ip = Ok ip0 ∧ is_cn ip0 = true ∧ Ok n = Ok net)).
  { intros g' ->. cbn [add_country countries]. rewrite group_table_add.
    destruct (decide ("cn" = key ∧ ipv n = version)) as [[Hk Hv]|Hne].
    - subst key version. rewrite elem_of_union, elem_of_singleton. split.
      + intros [->|?]; [right|by left]. split; [done|]. split; [done|]. by exists ip.
      + intros [?|(_ & _ & ip0 & _ & _ & [= ->])]; auto.
    - split; [auto|]. intros [?|(-> & Hv & ip0 & _ & _ & [= ->])]; [done|].
      destruct Hne. done. }
  cbn zeta. destruct (is_filter_domain ip) as [[]|]; [|by apply Hc..].
  destruct (value_lower (as_domain ip)); by apply Hc.
Qed.

(** One record and the domain groups. *)
Lemma observe_domain network record g d version net :
  net ∈ group (domains (observe ip_network network record g).2) d version
  ↔ net ∈ group (domains g) d version
    ∨ (ipv net = version ∧ domain_record ip_network network record d net).
Proof.
  rewrite observe_state. unfold domain_record.
  destruct (from_dict record) as [ip|e];
    [|split; [auto|intros [?|(_ & ? & ? & _)]; [done|discriminate]]].
  destruct (is_cn ip) eqn:Hcn;
    [|split; [auto|intros [?|(_ & ? & [= <-] & ? & _)]; [done|congruence]]].
  destruct (ip_network network) as [n|e];
    [|split; [auto|intros [?|(_ & ? & _ & _ & ? & _)]; [done|discriminate]]].
  cbn zeta. destruct (is_filter_domain ip) as [[]|] eqn:Hfd.
  - destruct (value_lower (as_domain ip)) as [d0|e] eqn:Hd.
    + cbn [add_domain add_country domains]. rewrite group_table_add.
      destruct (decide (d0 = d ∧ ipv n = version)) as [[Hk Hv]|Hne].
      * subst d version. rewrite elem_of_union, elem_of_singleton. split.
        -- intros [->|?]; [right|by left]. split; [done|]. by exists ip.
        -- intros [?|(_ & ip0 & _ & _ & [= ->] & _)]; auto.
      * split; [auto|]. intros [?|(Hv & ip0 & [= <-] & _ & [= ->] & _ & Hd0)]; [done|].
        destruct Hne. split; [congruence|done].
    + cbn [add_country domains].
      split; [auto|]. intros [?|(_ & ip0 & [= <-] & _ & _ & _ & ?)]; [done|congruence].
  - cbn [add_country domains].
    split; [auto|]. intros [?|(_ & ip0 & [= <-] & _ & _ & ? & _)]; [done|congruence].
  - cbn [add_country domains].
    split; [auto|]. intros [?|(_ & ip0 & [= <-] & _ & _ & ? & _)]; [done|congruence].
Qed.

Lemma scan_country db g key version net :
  net ∈ group (countries (scan ip_network db g).2) key version
  ↔ net ∈ group (countries g) key version
    ∨ (key = "cn" ∧ ipv net = version
       ∧ ∃ network record, (network, record) ∈ db
                           ∧ country_record ip_network network record net).
Proof.
  rewrite scan_state. revert g. induction db as [|[k r] db IH]; intros g; cbn [foldl].
  - split; [auto|]. intros [?|(_ & _ & ? & ? & H & _)]; [done|by apply elem_of_nil in H].
  - rewrite IH, observe_country. cbn [fst snd]. split.
    + intros [[?|(? & ? & ?)]|(? & ? & k' & r' & ? & ?)]; [by left|right..].
      * split; [done|]. split; [done|]. exists k, r. split; [left|done].
      * split; [done|]. split; [done|]. exists k', r'. split; [by right|done].
    + intros [?|(? & ? & k' & r' & Hin & ?)]; [by left; left|].
      apply elem_of_cons in Hin as [[= -> ->]|Hin]; [by left; right|].
      right. split; [done|]. split; [done|]. by exists k', r'.
Qed.

Lemma scan_domain db g d version net :
  net ∈ group (domains (scan ip_network db g).2) d version
  ↔ net ∈ group (domains g) d version
    ∨ (ipv net = version
       ∧ ∃ network record, (network, record) ∈ db
                           ∧ domain_record ip_network network record d net).
Proof.
  rewrite scan_state. revert g. induction db as [|[k r] db IH]; intros g; cbn [foldl].
  - split; [auto|]. intros [?|(_ & ? & ? & H & _)]; [done|by apply elem_of_nil in H].
  - rewrite IH, observe_domain. cbn [fst snd]. split.
    + intros [[?|(? & ?)]|(? & k' & r' & ? & ?)]; [by left|right..].
      * split; [done|]. exists k, r. split; [left|done].
      * split; [done|]. exists k', r'. split; [by right|done].
    + intros [?|(? & k' & r' & Hin & ?)]; [by left; left|].
      apply elem_of_cons in Hin as [[= -> ->]|Hin]; [by left; right|].
      right. split; [done|]. by exists k', r'.
Qed.

(** X1. The country group of a version holds exactly the networks of the
    records of [db] that are CN and whose key parses to a network of that
    version; no other country key has a group. *)
Theorem country_group_members db key version net :
  net ∈ group (countries (scan_groups ip_network db)) key version
  ↔ key = "cn" ∧ ipv net = version
    ∧ ∃ network record, (network, record) ∈ db
                        ∧ country_record ip_network network record net.
Proof.
  unfold scan_groups. rewrite scan_country. split; [|auto].
  intros [H|H]; [|done]. by apply elem_of_empty in H.
Qed.

(** X2. The group of a domain for a version holds exactly the networks of the
    CN records of [db] that pass [is_filter_domain] and whose lower-cased
    AS domain is that key. *)
Theorem domain_group_members db d version net :
  net ∈ group (domains (scan_groups ip_network db)) d version
  ↔ ipv net = version
    ∧ ∃ network record, (network, record) ∈ db
                        ∧ domain_record ip_network network record d net.
Proof.
  unfold scan_groups. rewrite scan_domain. split; [|auto].
  intros [H|H]; [|done]. by apply elem_of_empty in H.
Qed.

(** X3. Every network of a domain group is in the country group of the same
    version: the domain filter only ever adds to what the country test
    let through. *)
Theorem domain_group_in_country_group db d version :
  group (domains (scan_groups ip_network db)) d version
  ⊆ group (countries (scan_groups ip_network db)) "cn" version.
Proof.
  intros net. unfold scan_groups. rewrite scan_domain, scan_country.
  intros [H|(Hv & k & r & Hin & ip & Hfd & Hcn & Hnet & _)];
    [by apply elem_of_empty in H|].
  right. split; [done|]. split; [done|]. exists k, r. split; [done|]. by exists ip.
Qed.

End Scan.

End GroupFacts.

Module TableFacts.
Import PyStr Rules Classifier Net StateExn Zone Pipeline Groups.
Import StateExnFacts ScanFacts GroupFacts.

(** *** Shape of the groups *)

Lemma group_shape_add key net (tbl : table) :
  groups_shaped tbl → groups_shaped (table_add key (ipv net) net tbl).
Proof.
  intros H key' m version st Hget Hst. rewrite table_get_add in Hget.
  destruct (decide (key = key')) as [->|Hne]; [|by eapply H].
  injection Hget as <-. unfold inner_add in Hst.
  destruct (decide (ipv net = version)) as [<-|Hv].
  - rewrite lookup_insert_eq in Hst. injection Hst as <-.
    exists (version net). split; [apply ipv_version_key|]. split.
    + intros Hempty. assert (Hin : net ∈ ({[net]} ∪ default ∅ (default ∅ (table_get tbl key') !! ipv net) : gset IPNetwork))
        by (apply elem_of_union; left; by apply elem_of_singleton).
      rewrite Hempty in Hin. by apply elem_of_empty in Hin.
    + intros n Hn. apply elem_of_union in Hn as [Hn|Hn].
      * by apply elem_of_singleton in Hn as ->.
      * destruct (table_get tbl key') as [m|] eqn:Hm; cbn in Hn;
          [|rewrite lookup_empty in Hn; by apply elem_of_empty in Hn].
        destruct (m !! ipv net) as [st|] eqn:Hst; cbn in Hn;
          [|by apply elem_of_empty in Hn].
        destruct (H key' m (ipv net) st Hm Hst) as (f & Hf & _ & Hall).
        rewrite (Hall n Hn). rewrite ipv_version_key in Hf.
        destruct f, (version net); done.
  - rewrite lookup_insert_ne in Hst by done.
    destruct (table_get tbl key') as [m|] eqn:Hm; cbn in Hst;
      [by eapply H|by rewrite lookup_empty in Hst].
Qed.

Section Scan.
Variable ip_network : string → res IPNetwork.

Lemma observe_shaped network record g :
  groups_shaped (countries g) ∧ groups_shaped (domains g) →
  groups_shaped (countries (observe ip_network network record g).2)
  ∧ groups_shaped (domains (observe ip_network network record g).2).
Proof.
  intros [Hc Hd]. rewrite observe_state.
  destruct (from_dict record) as [ip|]; [|done].
  destruct (is_cn ip); [|done]. destruct (ip_network network) as [net|]; [|done].
  pose proof (group_shape_add "cn" net _ Hc) as Hc'.
  cbn zeta. destruct (is_filter_domain ip) as [[]|]; [|done..].
  destruct (value_lower (as_domain ip)) as [d|]; [|done].
  split; [done|]. cbn. by apply group_shape_add.
Qed.

(** X4. Every group the scan leaves is non-empty, sits under ["ipv4"] or
    ["ipv6"], and holds networks of that one family only: the sets handed
    to the collapser never mix families. *)
Theorem scan_groups_one_family db :
  groups_shaped (countries (scan_groups ip_network db))
  ∧ groups_shaped (domains (scan_groups ip_network db)).
Proof.
  unfold scan_groups. rewrite scan_state.
  assert (H0 : groups_shaped (countries no_groups) ∧ groups_shaped (domains no_groups))
    by (split; intros ? ? ? ? H; discriminate).
  revert H0. generalize no_groups. induction db as [|[k r] db IH]; intros g Hg; [done|].
  cbn [foldl]. apply IH. by apply observe_shaped.
Qed.

(** *** A record seen twice *)

Lemma inner_add_twice ipv net (m : by_version) :
  inner_add ipv net (inner_add ipv net m) = inner_add ipv net m.
Proof.
  unfold inner_add. rewrite lookup_insert_eq, insert_insert_eq. cbn. f_equal.
  apply set_eq. intros x. rewrite !elem_of_union. tauto.
Qed.

Lemma table_add_twice key ipv net (tbl : table) :
  table_add key ipv net (table_add key ipv net tbl) = table_add key ipv net tbl.
Proof.
  induction tbl as [|[k m] rest IH]; cbn [table_add].
  - rewrite decide_True by done. cbn. by rewrite inner_add_twice.
  - destruct (decide (k = key)) as [->|Hne]; cbn [table_add].
    + rewrite decide_True by done. by rewrite inner_add_twice.
    + rewrite decide_False by done. by rewrite IH.
Qed.

(** X5. Seeing a record a second time changes nothing: the groups are sets. *)
Theorem observe_twice network record g :
  (observe ip_network network record (observe ip_network network record g).2).2
  = (observe ip_network network record g).2.
Proof.
  rewrite !observe_state.
  destruct (from_dict record) as [ip|]; [|done].
  destruct (is_cn ip); [|done]. destruct (ip_network network) as [net|]; [|done].
  cbn zeta. destruct (is_filter_domain ip) as [[]|].
  - destruct (value_lower (as_domain ip)) as [d|].
    + unfold add_domain, add_country. cbn. by rewrite !table_add_twice.
    + unfold add_country. cbn. by rewrite table_add_twice.
  - unfold add_country. cbn. by rewrite table_add_twice.
  - unfold add_country. cbn. by rewrite table_add_twice.
Qed.

(** *** The tables only grow *)

Lemma table_add_grows key ipv net (tbl : table) :
  tbl.*1 `prefix_of` (table_add key ipv net tbl).*1
  ∧ ∀ key' version, group tbl key' version ⊆ group (table_add key ipv net tbl) key' version.
Proof.
  split.
  - rewrite table_add_keys. destruct (decide _); [reflexivity|]. by exists [key].
  - intros key' version. rewrite group_table_add.
    destruct (decide _) as [[<- <-]|?]; [|done]. apply union_subseteq_r.
Qed.

(** [t1] is an earlier state of table [t2]. *)
Lemma grows_trans (t1 t2 t3 : table) :
  table_grows t1 t2 → table_grows t2 t3 → table_grows t1 t3.
Proof.
  intros [H1 H1'] [H2 H2']. split; [etrans; eassumption|].
  intros k v. etrans; [apply H1'|apply H2'].
Qed.

Lemma observe_grows network record g :
  table_grows (countries g) (countries (observe ip_network network record g).2)
  ∧ table_grows (domains g) (domains (observe ip_network network record g).2).
Proof.
  assert (Hrefl : ∀ t, table_grows t t)
    by (intros t; split; [reflexivity|intros; reflexivity]).
  rewrite observe_state.
  destruct (from_dict record) as [ip|]; [|done].
  destruct (is_cn ip); [|done]. destruct (ip_network network) as [net|]; [|done].
  cbn zeta. destruct (is_filter_domain ip) as [[]|].
  - destruct (value_lower (as_domain ip)) as [d|]; cbn.
    + split; apply table_add_grows.
    + split; [apply table_add_grows|done].
  - cbn. split; [apply table_add_grows|done].
  - cbn. split; [apply table_add_grows|done].
Qed.

(** X6. The scan of a longer database extends the scan of a shorter one: the
    keys come in the order of their first record and keep their places,
    and no group loses a network. *)
Theorem scan_grows db1 db2 :
  table_grows (countries (scan_groups ip_network db1))
    (countries (scan_groups ip_network (db1 ++ db2)))
  ∧ table_grows (domains (scan_groups ip_network db1))
      (domains (scan_groups ip_network (db1 ++ db2))).
Proof.
  unfold scan_groups. rewrite !scan_state, foldl_app.
  generalize (foldl (fun g kv => (observe ip_network kv.1 kv.2 g).2) no_groups db1).
  induction db2 as [|[k r] db IH]; intros g; cbn [foldl].
  - split; (split; [reflexivity|intros; reflexivity]).
  - destruct (observe_grows k r g) as [Hc Hd]. cbn [fst snd].
    destruct (IH (observe ip_network k r g).2) as [Hc' Hd'].
    split; eapply grows_trans; eauto.
Qed.

(** *** Keys of the domain table *)

Lemma domain_keys_as_written : domain_keys = map domain AS_DOMAINS.
Proof. vm_compute. reflexivity. Qed.

(** X7. Every key of the domain table is a domain of the rule table, spelled
    as it is there, and its rule is a filter rule: lower-casing the AS
    domain for the key changes nothing. *)
Theorem domain_key_is_rule db d :
  d ∈ (domains (scan_groups ip_network db)).*1 →
  ∃ obj, AS_DOMAIN_KV !! d = Some obj ∧ domain obj = d ∧ is_filter obj = true.
Proof.
  intros Hd. destruct (scan_groups_tables_ok ip_network db) as (_ & _ & _ & Hkeys).
  specialize (Hkeys d Hd). rewrite domain_keys_as_written in Hkeys.
  apply list_elem_of_fmap in Hkeys as (obj & -> & Hobj). exists obj.
  revert Hobj. unfold AS_DOMAINS.
  repeat (rewrite elem_of_cons; intros [->|Hobj]; [vm_compute; auto|revert Hobj]).
  intros H. by apply elem_of_nil in H.
Qed.

End Scan.

Lemma domain_key_is_rule_witness :
  ∃ obj, AS_DOMAIN_KV !! "baidu.com" = Some obj ∧ domain obj = "baidu.com"
         ∧ is_filter obj = true.
Proof.
  apply (domain_key_is_rule Sample.ip_network Sample.db "baidu.com").
  vm_compute. apply list_elem_of_further, list_elem_of_here.
Defined.

End TableFacts.

(** ** More on the zone file writer *)

Module WriterFacts.
Import PyStr Net StateExn StateExn.Notations Zone StrFacts StateExnFacts ZoneFacts.
Import OutputFacts.

Lemma set_files_twice p (a b : string) s :
  set_files (insert p b) (set_files (insert p a) s) = set_files (insert p b) s.
Proof. unfold set_files. cbn. by rewrite insert_insert_eq. Qed.

Lemma append_nil_l (t : string) : (EmptyString ++ t)%string = t.
Proof. reflexivity. Qed.

Section Writer.
Variable io_fails : io_op → path → bool.
Variable io_cut : path → nat.

Lemma dir_ok_dec file_path s :
  Decision (exists_path (parent file_path) s = true
            ∨ can_mkdir io_fails (parent file_path) s).
Proof. unfold can_mkdir, passable. apply _. Qed.

(** A call that returns leaves the state [ensured], in which the
    directory is there. *)
Lemma ensure_file_dir_exists_inv file_path s s' :
  ensure_file_dir_exists io_fails file_path s = (Ok tt, s') →
  s' = ensured file_path s ∧ exists_path (parent file_path) s' = true.
Proof.
  intros H. destruct (dir_ok_dec file_path s) as [Hok|Hno].
  - rewrite (ensure_file_dir_exists_ok io_fails _ _ Hok) in H. injection H as <-.
    split; [done|]. unfold ensured.
    destruct (exists_path (parent file_path) s) eqn:Hex; [done|].
    apply exists_path_add_dirs, ancestors_self.
  - destruct (ensure_file_dir_exists_not_ok io_fails _ _ Hno) as (made & Hr & _).
    rewrite Hr in H. discriminate.
Qed.

(** X8. After a call that returns, the directory of the file exists, also
    when it is [DATA_DIR] itself; no file and no log line has changed and
    no directory has gone. *)
Theorem ensure_file_dir_exists_post file_path s s' :
  ensure_file_dir_exists io_fails file_path s = (Ok tt, s') →
  exists_path (parent file_path) s' = true
  ∧ files s' = files s ∧ log s' = log s ∧ dirs s ⊆ dirs s'.
Proof.
  intros H. apply ensure_file_dir_exists_inv in H as [-> Hex].
  split; [done|]. rewrite files_ensured, log_ensured. split; [done|]. split; [done|].
  unfold ensured. destruct (exists_path (parent file_path) s); [done|].
  cbn. apply union_subseteq_r.
Qed.

(** X9. A call that returned returns again, with no change, when repeated:
    the directory is made at most once. *)
Theorem ensure_file_dir_exists_again file_path s s' :
  ensure_file_dir_exists io_fails file_path s = (Ok tt, s') →
  ensure_file_dir_exists io_fails file_path s' = (Ok tt, s').
Proof.
  intros H. apply ensure_file_dir_exists_inv in H as [_ Hex].
  rewrite ensure_cases. by rewrite Hex.
Qed.


(** *** The outcomes of [save_zone_file] *)

(** The block that writes the zone file: its three outcomes. *)
Lemma with_open_write_cases zone_file networks s :
  (io_fails OpenW zone_file = true
   ∧ with_open_w io_fails io_cut zone_file
       (write_lines io_fails io_cut zone_file networks 0) s = (Raise OSError, s))
  ∨ (io_fails OpenW zone_file = false
     ∧ (networks = [] ∨ io_fails Write zone_file = false)
     ∧ io_fails Close zone_file = false
     ∧ with_open_w io_fails io_cut zone_file
         (write_lines io_fails io_cut zone_file networks 0) s
       = (Ok (length networks), set_files (insert zone_file (zone_text networks)) s))
  ∨ (io_fails OpenW zone_file = false
     ∧ ¬ ((networks = [] ∨ io_fails Write zone_file = false)
          ∧ io_fails Close zone_file = false)
     ∧ ∃ text, str_prefix text (zone_text networks)
               ∧ with_open_w io_fails io_cut zone_file
                   (write_lines io_fails io_cut zone_file networks 0) s
                 = (Raise OSError, set_files (insert zone_file text) s)).
Proof.
  unfold with_open_w. destruct (io_fails OpenW zone_file) eqn:Hopen.
  { left. split; [done|]. by rewrite (bind_raise _ _ _ _ _ (open_w_raise _ _ _ Hopen)). }
  right. rewrite (bind_ok _ _ _ _ _ (open_w_ok _ _ _ Hopen)).
  set (s1 := set_files (insert zone_file EmptyString) s).
  assert (Hs1 : files s1 !! zone_file = Some EmptyString)
    by (subst s1; cbn; apply lookup_insert_eq).
  unfold finally, on_raise, bind.
  assert (Hwritten : networks = [] ∨ io_fails Write zone_file = false →
            write_lines io_fails io_cut zone_file networks 0 s1
            = (Ok (length networks),
               set_files (insert zone_file (zone_text networks)) s)).
  { intros [-> | Hw]; [reflexivity|].
    rewrite (write_lines_spec io_fails io_cut _ _ _ _ EmptyString Hw Hs1).
    subst s1. by rewrite set_files_twice, append_nil_l. }
  destruct networks as [|n rest].
  - rewrite Hwritten by (by left). destruct (io_fails Close zone_file) eqn:Hclose.
    + right. split; [done|]. split; [by intros [_ ?]|].
      rewrite (close_w_raise _ _ _ _ Hclose). cbn [files set_files].
      rewrite lookup_insert_eq. cbn [default]. eexists. split; [apply str_take_prefix|].
      by rewrite set_files_twice.
    + left. split; [done|]. split; [by left|]. split; [done|].
      by rewrite (close_w_ok _ _ _ _ Hclose).
  - destruct (io_fails Write zone_file) eqn:Hwrite.
    + right. split; [done|]. split; [intros [[?|?] _]; done|].
      rewrite (write_lines_raise _ _ _ _ _ _ _ Hwrite), Hs1. cbn [default].
      rewrite append_nil_l. subst s1. rewrite set_files_twice.
      assert (Hline : str_prefix (str_take (io_cut zone_file) (net_str n ++ newline))
                (zone_text (n :: rest))).
      { eapply str_prefix_trans; [apply str_take_prefix|].
        cbn [zone_text foldr]. rewrite <- append_assoc. apply str_prefix_app. }
      destruct (io_fails Close zone_file) eqn:Hclose.
      * rewrite (close_w_raise _ _ _ _ Hclose). cbn [files set_files].
        rewrite lookup_insert_eq. cbn [default]. eexists. split.
        { eapply str_prefix_trans; [apply str_take_prefix|exact Hline]. }
        by rewrite set_files_twice.
      * rewrite (close_w_ok _ _ _ _ Hclose). eexists. by split; [exact Hline|].
    + rewrite Hwritten by (by right). destruct (io_fails Close zone_file) eqn:Hclose.
      * right. split; [done|]. split; [by intros [_ ?]|].
        rewrite (close_w_raise _ _ _ _ Hclose). cbn [files set_files].
        rewrite lookup_insert_eq. cbn [default]. eexists.
        split; [apply str_take_prefix|]. by rewrite set_files_twice.
      * left. split; [done|]. split; [by right|]. split; [done|].
        by rewrite (close_w_ok _ _ _ _ Hclose).
Qed.

(** A call that returns has saved the file and logged it. *)
Lemma save_zone_file_cases zone_file networks s :
  (can_save io_fails zone_file networks s
   ∧ save_zone_file io_fails io_cut zone_file networks s
     = (Ok PyNone,
        add_log (Saved (length networks) zone_file)
          (set_files (insert zone_file (zone_text networks)) (ensured zone_file s))))
  ∨ (¬ can_save io_fails zone_file networks s
     ∧ ∃ s', save_zone_file io_fails io_cut zone_file networks s = (Raise OSError, s')
             ∧ log s' = log s
             ∧ (files s' = files s
                ∨ ∃ text, str_prefix text (zone_text networks)
                          ∧ files s' = <[zone_file := text]> (files s))).
Proof.
  unfold save_zone_file, can_save.
  destruct (dir_ok_dec zone_file s) as [Hdir|Hdir].
  2:{ right. split; [by intros [? _]|].
      destruct (ensure_file_dir_exists_not_ok io_fails _ _ Hdir) as (made & Hr & _).
      rewrite (bind_raise _ _ _ _ _ Hr). eexists. split; [done|]. split; [done|by left]. }
  rewrite (bind_ok _ _ _ _ _ (ensure_file_dir_exists_ok io_fails _ _ Hdir)).
  destruct (with_open_write_cases zone_file networks (ensured zone_file s))
    as [[Hopen Hr]|[(Hopen & Hwrite & Hclose & Hr)|(Hopen & Hno & text & Hpre & Hr)]].
  - right. split; [intros (_ & ? & _); congruence|].
    rewrite (bind_raise _ _ _ _ _ Hr). eexists. split; [done|].
    rewrite files_ensured, log_ensured. split; [done|by left].
  - left. split; [done|]. by rewrite (bind_ok _ _ _ _ _ Hr).
  - right. split; [intros (_ & _ & ? & ?); by apply Hno|].
    rewrite (bind_raise _ _ _ _ _ Hr). eexists. split; [done|]. cbn.
    rewrite files_ensured, log_ensured. split; [done|]. right. by exists text.
Qed.


(** X12. Two calls on one path that both return leave the text of the second
    alone: the file is opened afresh each time. Both calls are logged. *)
Theorem save_zone_file_twice zone_file first second s s1 s2 :
  save_zone_file io_fails io_cut zone_file first s = (Ok PyNone, s1) →
  save_zone_file io_fails io_cut zone_file second s1 = (Ok PyNone, s2) →
  files s2 = <[zone_file := zone_text second]> (files s)
  ∧ log s2 = log s ++ [Saved (length first) zone_file;
                       Saved (length second) zone_file].
Proof.
  intros H1 H2.
  destruct (save_zone_file_cases zone_file first s)
    as [[_ Hr]|(_ & s' & Hr & _)]; rewrite Hr in H1; [|discriminate].
  destruct (save_zone_file_cases zone_file second s1)
    as [[_ Hr2]|(_ & s' & Hr2 & _)]; rewrite Hr2 in H2; [|discriminate].
  injection H1 as <-. injection H2 as <-. cbn.
  rewrite !files_ensured, !log_ensured. cbn. rewrite files_ensured, log_ensured.
  split; [apply insert_insert_eq|]. by rewrite <- app_assoc.
Qed.

(** X13. [save_zone_file] leaves every other file as it was, whether it returns
    or raises. *)
Theorem save_zone_file_other_files zone_file networks s p :
  p ≠ zone_file →
  files (save_zone_file io_fails io_cut zone_file networks s).2 !! p = files s !! p.
Proof. intros Hp. apply only_writes_save. by intros ->. Qed.

End Writer.

Lemma ensure_file_dir_exists_post_witness :
  exists_path [] (add_dirs (ancestors []) Sample.empty_fs) = true
  ∧ files (add_dirs (ancestors []) Sample.empty_fs) = files Sample.empty_fs
  ∧ log (add_dirs (ancestors []) Sample.empty_fs) = log Sample.empty_fs
  ∧ dirs Sample.empty_fs ⊆ dirs (add_dirs (ancestors []) Sample.empty_fs).
Proof.
  apply (ensure_file_dir_exists_post Sample.no_failure ["ipinfo_lite.mmdb"]
           Sample.empty_fs). reflexivity.
Defined.

Lemma ensure_file_dir_exists_again_witness :
  ensure_file_dir_exists Sample.no_failure ["countries"; "ipv4"; "cn.zone"]
    (add_dirs (ancestors ["countries"; "ipv4"]) Sample.empty_fs)
  = (Ok tt, add_dirs (ancestors ["countries"; "ipv4"]) Sample.empty_fs).
Proof.
  apply (ensure_file_dir_exists_again Sample.no_failure ["countries"; "ipv4"; "cn.zone"]
           Sample.empty_fs). reflexivity.
Defined.

Lemma save_zone_file_twice_witness :
  files (save_zone_file Sample.no_failure Sample.cut ["countries"; "ipv4"; "cn.zone"]
           [Sample.v4 10 0 0 0 8]
           (save_zone_file Sample.no_failure Sample.cut ["countries"; "ipv4"; "cn.zone"]
              Sample.networks Sample.empty_fs).2).2
  = <[["countries"; "ipv4"; "cn.zone"] := zone_text [Sample.v4 10 0 0 0 8]]>
      (files Sample.empty_fs)
  ∧ log (save_zone_file Sample.no_failure Sample.cut ["countries"; "ipv4"; "cn.zone"]
           [Sample.v4 10 0 0 0 8]
           (save_zone_file Sample.no_failure Sample.cut ["countries"; "ipv4"; "cn.zone"]
              Sample.networks Sample.empty_fs).2).2
    = log Sample.empty_fs
      ++ [Saved (length Sample.networks) ["countries"; "ipv4"; "cn.zone"];
          Saved (length [Sample.v4 10 0 0 0 8]) ["countries"; "ipv4"; "cn.zone"]].
Proof.
  apply (save_zone_file_twice Sample.no_failure Sample.cut
           ["countries"; "ipv4"; "cn.zone"] Sample.networks [Sample.v4 10 0 0 0 8]
           Sample.empty_fs
           (save_zone_file Sample.no_failure Sample.cut ["countries"; "ipv4"; "cn.zone"]
              Sample.networks Sample.empty_fs).2);
    reflexivity.
Defined.

Lemma save_zone_file_other_files_witness :
  files (save_zone_file Sample.qq_full Sample.cut ["domains"; "ipv4"; "qq.com.zone"]
           Sample.networks Sample.empty_fs).2 !! ["domains"; "ipv4"; "baidu.com.zone"]
  = files Sample.empty_fs !! ["domains"; "ipv4"; "baidu.com.zone"].
Proof. apply save_zone_file_other_files. discriminate. Defined.

End WriterFacts.

(** ** The files of a run *)

Module RunFacts.
Import PyStr Rules Classifier Net Collapse StateExn StateExn.Notations Zone Pipeline.
Import Groups StrFacts StateExnFacts ZoneFacts CollapseFacts ScanFacts OutputFacts.
Import PipelineFacts.

Section Driver.
Variable set_iter : string → string → string → gset IPNetwork → list IPNetwork.
Variable io_fails : io_op → path → bool.
Variable io_cut : path → nat.

Lemma only_writes_country_present version c m :
  only_writes (country_body set_iter io_fails io_cut version (c, m))
    (fun p => is_Some (m !! version) ∧ p = zone_path "countries" version c).
Proof.
  unfold country_body. destruct (m !! version) eqn:E; [|apply only_writes_ret].
  apply only_writes_bind; [|intros _; apply only_writes_ret].
  eapply only_writes_weaken; [|apply only_writes_save]. intros p <-. eauto.
Qed.

Lemma only_writes_domain_present version d m :
  only_writes (domain_body set_iter io_fails io_cut version (d, m))
    (fun p => p = aggregated_path version
              ∨ (is_Some (m !! version) ∧ p = zone_path "domains" version d)).
Proof.
  unfold domain_body. destruct (m !! version) eqn:E; [|apply only_writes_ret].
  apply only_writes_bind.
  - eapply only_writes_weaken; [|apply only_writes_save]. intros p <-. eauto.
  - intros _. eapply only_writes_weaken; [|apply only_writes_copyfileobj].
    intros p <-. by left.
Qed.

Lemma only_writes_country_loop version (ctrs : table) :
  only_writes (for_each ctrs (country_body set_iter io_fails io_cut version))
    (fun p => ∃ c m, (c, m) ∈ ctrs ∧ is_Some (m !! version)
                     ∧ p = zone_path "countries" version c).
Proof.
  apply only_writes_for_each. intros [c m] Hin.
  eapply only_writes_weaken; [|apply only_writes_country_present].
  intros p [? ->]. by exists c, m.
Qed.

Lemma only_writes_domain_pass version (doms : table) :
  only_writes (domain_pass set_iter io_fails io_cut version doms)
    (fun p => p = aggregated_path version
              ∨ ∃ d m, (d, m) ∈ doms ∧ is_Some (m !! version)
                       ∧ p = zone_path "domains" version d).
Proof.
  unfold domain_pass.
  apply only_writes_bind; [apply only_writes_ensure|intros _].
  apply only_writes_with_open_w; [by left|].
  apply only_writes_for_each. intros [d m] Hin.
  eapply only_writes_weaken; [|apply only_writes_domain_present].
  intros p [->|[? ->]]; [by left|right]. by exists d, m.
Qed.

Lemma only_writes_version_present g version :
  version ∈ ip_versions →
  only_writes (version_pass set_iter io_fails io_cut g version) (written g).
Proof.
  intros Hv. unfold version_pass. apply only_writes_bind.
  - eapply only_writes_weaken; [|apply only_writes_country_loop].
    intros p (c & m & ? & ? & ->). exists version. split; [done|].
    right; left. by exists c, m.
  - intros _. eapply only_writes_weaken; [|apply only_writes_domain_pass].
    intros p [->|(d & m & ? & ? & ->)]; exists version; (split; [done|]);
      [by left|]. right; right. by exists d, m.
Qed.

Lemma only_writes_output_present g :
  only_writes (output_phase set_iter io_fails io_cut g) (written g).
Proof.
  unfold output_phase. apply only_writes_for_each. intros version Hv.
  by apply only_writes_version_present.
Qed.

Lemma domain_texts_elem version (doms : table) d m st :
  (d, m) ∈ doms → m !! version = Some st →
  (d, zone_text (group_networks set_iter "domains" d version st))
  ∈ domain_texts set_iter version doms.
Proof.
  induction doms as [|[d' m'] rest IH]; intros Hin Hst; [by apply elem_of_nil in Hin|].
  cbn [domain_texts]. apply elem_of_cons in Hin as [[= <- <-]|Hin].
  - rewrite Hst. left.
  - destruct (m' !! version); [right|]; by apply IH.
Qed.

Section NoFailure.
Hypothesis io_ok : ∀ op p, io_fails op p = false.

Lemma country_loop_files version (ctrs : table) s :
  NoDup ctrs.*1 →
  ∃ s', for_each ctrs (country_body set_iter io_fails io_cut version) s = (Ok tt, s')
        ∧ ∀ c m st, (c, m) ∈ ctrs → m !! version = Some st →
            files s' !! zone_path "countries" version c
            = Some (zone_text (group_networks set_iter "countries" c version st)).
Proof.
  revert s. induction ctrs as [|[c m] rest IH]; intros s Hnd.
  { exists s. split; [done|]. intros ? ? ? H. by apply elem_of_nil in H. }
  cbn [fmap list_fmap fst] in Hnd. apply NoDup_cons in Hnd as [Hc Hnd].
  cbn [for_each].
  assert (Hstep : ∃ s1, country_body set_iter io_fails io_cut version (c, m) s = (Ok tt, s1)
            ∧ ∀ st, m !! version = Some st →
                files s1 !! zone_path "countries" version c
                = Some (zone_text (group_networks set_iter "countries" c version st))).
  { unfold country_body. destruct (m !! version) as [st|].
    - rewrite (bind_ok _ _ _ _ _
                 (save_zone_file_ok io_fails io_cut _ _ s (can_write_any _ io_ok _ s))).
      eexists. split; [reflexivity|]. intros st' [= <-]. cbn. apply lookup_insert_eq.
    - exists s. split; [done|]. discriminate. }
  destruct Hstep as (s1 & Hbody & Hfile). rewrite (bind_ok _ _ _ _ _ Hbody).
  destruct (IH s1 Hnd) as (s' & Hloop & Hrest). exists s'. split; [done|].
  intros c' m' st Hin Hst. apply elem_of_cons in Hin as [[= -> ->]|Hin]; [|by eapply Hrest].
  pose proof (only_writes_country_loop version rest s1
                (zone_path "countries" version c)) as Hkeep.
  rewrite Hloop in Hkeep. cbn in Hkeep. rewrite Hkeep; [by apply Hfile|].
  intros (c' & m' & Hin & _ & Heq). apply zone_path_inj in Heq as <-.
  apply Hc. apply list_elem_of_fmap. by exists (c, m').
Qed.

(** One version: every group of the two tables has its zone file. *)
Lemma version_pass_files g version s :
  NoDup (countries g).*1 → NoDup (domains g).*1 → "aggregated" ∉ (domains g).*1 →
  ∃ s', version_pass set_iter io_fails io_cut g version s = (Ok tt, s')
        ∧ (∀ c m st, (c, m) ∈ countries g → m !! version = Some st →
             files s' !! zone_path "countries" version c
             = Some (zone_text (group_networks set_iter "countries" c version st)))
        ∧ (∀ d m st, (d, m) ∈ domains g → m !! version = Some st →
             files s' !! zone_path "domains" version d
             = Some (zone_text (group_networks set_iter "domains" d version st)))
        ∧ files s' !! aggregated_path version
          = Some (concat_str (domain_texts set_iter version (domains g)).*2).
Proof.
  intros Hc Hd Hagg.
  destruct (country_loop_files version (countries g) s Hc) as (s1 & Hloop & Hfiles).
  destruct (version_pass_ok set_iter io_fails io_cut io_ok g version s Hd Hagg)
    as (s' & Hpass & Hag & Hz).
  exists s'. split; [done|]. split; [|split; [|done]].
  - intros c m st Hin Hst.
    pose proof (only_writes_domain_pass version (domains g) s1
                  (zone_path "countries" version c)) as Hkeep.
    unfold version_pass in Hpass. rewrite (bind_ok _ _ _ _ _ Hloop) in Hpass.
    rewrite Hpass in Hkeep. cbn in Hkeep. rewrite Hkeep.
    + by eapply Hfiles.
    + intros [Heq|(d & m' & _ & _ & Heq)]; discriminate.
  - intros d m st Hin Hst. by apply Hz, (domain_texts_elem version _ d m st).
Qed.

End NoFailure.

End Driver.

Section Extract.
Variable ip_network : string → res IPNetwork.

(** What a run in which no file operation fails leaves in each file it
    writes. *)
Lemma extract_files set_iter io_fails io_cut db s :
  (∀ op p, io_fails op p = false) →
  ∃ s', extract_ip_networks ip_network set_iter io_fails io_cut db s = (Ok tt, s')
        ∧ ∀ version, version ∈ ip_versions →
            (∀ c m st, (c, m) ∈ countries (scan_groups ip_network db) →
               m !! version = Some st →
               files s' !! zone_path "countries" version c
               = Some (zone_text (group_networks set_iter "countries" c version st)))
            ∧ (∀ d m st, (d, m) ∈ domains (scan_groups ip_network db) →
                 m !! version = Some st →
                 files s' !! zone_path "domains" version d
                 = Some (zone_text (group_networks set_iter "domains" d version st)))
            ∧ files s' !! aggregated_path version
              = Some (concat_str
                        (domain_texts set_iter version
                           (domains (scan_groups ip_network db))).*2).
Proof.
  intros io_ok. unfold extract_ip_networks. set (g := scan_groups ip_network db).
  destruct (scan_groups_tables_ok ip_network db) as (Hc & _ & Hnd & Hkeys).
  fold g in Hc, Hnd, Hkeys.
  assert (Hagg : "aggregated" ∉ (domains g).*1)
    by (intros H; exact (aggregated_not_domain_key (Hkeys _ H))).
  destruct (version_pass_files set_iter io_fails io_cut io_ok g "ipv4" s Hc Hnd Hagg)
    as (s1 & Hp1 & Hc1 & Hd1 & Ha1).
  destruct (version_pass_files set_iter io_fails io_cut io_ok g "ipv6" s1 Hc Hnd Hagg)
    as (s2 & Hp2 & Hc2 & Hd2 & Ha2).
  exists s2. split.
  { unfold output_phase, ip_versions. cbn [for_each].
    rewrite (bind_ok _ _ _ _ _ Hp1), (bind_ok _ _ _ _ _ Hp2). reflexivity. }
  assert (Hkeep : ∀ p, p !! 1%nat = Some "ipv4" → files s2 !! p = files s1 !! p).
  { intros p Hp.
    pose proof (only_writes_version_pass set_iter io_fails io_cut g "ipv6" s1 p) as H.
    rewrite Hp2 in H. apply H. intros Ht.
    apply targets_version in Ht. congruence. }
  intros version Hv.
  apply elem_of_cons in Hv as [->|Hv];
    [|apply elem_of_cons in Hv as [->|Hv]; [|by apply elem_of_nil in Hv]].
  - split; [|split].
    + intros c m st Hin Hst. rewrite Hkeep by done. by eapply Hc1.
    + intros d m st Hin Hst. rewrite Hkeep by done. by eapply Hd1.
    + by rewrite Hkeep.
  - by split; [|split].
Qed.

Lemma domain_texts_ext iter1 iter2 version (doms : table) :
  (∀ kind key version st,
     group_networks iter1 kind key version st = group_networks iter2 kind key version st) →
  domain_texts iter1 version doms = domain_texts iter2 version doms.
Proof.
  intros Hg. induction doms as [|[d m] rest IH]; [reflexivity|].
  cbn [domain_texts]. destruct (m !! version); [|exact IH]. by rewrite Hg, IH.
Qed.

(** C9: two runs over the same database in which no file operation
    fails both return and leave the same content in every file a run
    writes, the zone file of every group and the two aggregated files,
    whatever the file systems they start from hold and whatever order
    the group sets yield their members in. *)
Theorem extract_order_independent iter1 iter2 io1 io2 cut1 cut2 db s1 s2 :
  (∀ kind key version st, iter1 kind key version st ≡ₚ elements st) →
  (∀ kind key version st, iter2 kind key version st ≡ₚ elements st) →
  (∀ op p, io1 op p = false) → (∀ op p, io2 op p = false) →
  ∃ s1' s2',
    extract_ip_networks ip_network iter1 io1 cut1 db s1 = (Ok tt, s1')
    ∧ extract_ip_networks ip_network iter2 io2 cut2 db s2 = (Ok tt, s2')
    ∧ ∀ p, written (scan_groups ip_network db) p →
           is_Some (files s1' !! p) ∧ files s1' !! p = files s2' !! p.
Proof.
  intros H1 H2 Hio1 Hio2.
  assert (Hg : ∀ kind key version st,
             group_networks iter1 kind key version st
             = group_networks iter2 kind key version st).
  { intros. unfold group_networks. apply collapse_addresses_Permutation.
    by rewrite H1, H2. }
  destruct (extract_files iter1 io1 cut1 db s1 Hio1) as (s1' & Hr1 & Hf1).
  destruct (extract_files iter2 io2 cut2 db s2 Hio2) as (s2' & Hr2 & Hf2).
  exists s1', s2'. split; [done|]. split; [done|].
  intros p (version & Hv & Hp).
  destruct (Hf1 version Hv) as (Hc1 & Hd1 & Ha1).
  destruct (Hf2 version Hv) as (Hc2 & Hd2 & Ha2).
  destruct Hp as [-> |[(c & m & Hin & [st Hst] & ->)|(d & m & Hin & [st Hst] & ->)]].
  - rewrite Ha1, Ha2, (domain_texts_ext iter1 iter2 _ _ Hg). eauto.
  - rewrite (Hc1 c m st Hin Hst), (Hc2 c m st Hin Hst), Hg. eauto.
  - rewrite (Hd1 d m st Hin Hst), (Hd2 d m st Hin Hst), Hg. eauto.
Qed.

(** X14. In a run in which no file operation fails, every group the scan has
    left, of a country or of a domain, ends up as a zone file that holds
    the collapsed networks of the group, one per line. *)
Theorem extract_zone_files set_iter io_fails io_cut db s :
  (∀ op p, io_fails op p = false) →
  ∃ s', extract_ip_networks ip_network set_iter io_fails io_cut db s = (Ok tt, s')
        ∧ ∀ version key m st, version ∈ ip_versions → m !! version = Some st →
            ((key, m) ∈ countries (scan_groups ip_network db) →
             files s' !! zone_path "countries" version key
             = Some (zone_text (group_networks set_iter "countries" key version st)))
            ∧ ((key, m) ∈ domains (scan_groups ip_network db) →
               files s' !! zone_path "domains" version key
               = Some (zone_text (group_networks set_iter "domains" key version st))).
Proof.
  intros io_ok. unfold extract_ip_networks. set (g := scan_groups ip_network db).
  destruct (scan_groups_tables_ok ip_network db) as (Hc & _ & Hnd & Hkeys).
  fold g in Hc, Hnd, Hkeys.
  assert (Hagg : "aggregated" ∉ (domains g).*1)
    by (intros H; exact (aggregated_not_domain_key (Hkeys _ H))).
  destruct (version_pass_files set_iter io_fails io_cut io_ok g "ipv4" s Hc Hnd Hagg)
    as (s1 & Hp1 & Hc1 & Hd1 & _).
  destruct (version_pass_files set_iter io_fails io_cut io_ok g "ipv6" s1 Hc Hnd Hagg)
    as (s2 & Hp2 & Hc2 & Hd2 & _).
  exists s2. split.
  { unfold output_phase, ip_versions. cbn [for_each].
    by rewrite (bind_ok _ _ _ _ _ Hp1), (bind_ok _ _ _ _ _ Hp2). }
  assert (Hkeep : ∀ p, p !! 1%nat = Some "ipv4" → files s2 !! p = files s1 !! p).
  { intros p Hp.
    pose proof (only_writes_version_pass set_iter io_fails io_cut g "ipv6" s1 p) as H.
    rewrite Hp2 in H. apply H. intros Ht.
    apply targets_version in Ht. congruence. }
  intros version key m st Hv Hst.
  apply elem_of_cons in Hv as [->|Hv];
    [|apply elem_of_cons in Hv as [->|Hv]; [|by apply elem_of_nil in Hv]].
  - split; intros Hin; (rewrite Hkeep by done); [by eapply Hc1|by eapply Hd1].
  - split; intros Hin; [by eapply Hc2|by eapply Hd2].
Qed.

(** X15. A run changes no file other than the aggregated files and the zone
    files of the groups the scan has left, whether it fails or not. *)
Theorem extract_writes_only set_iter io_fails io_cut db s p :
  ¬ written (scan_groups ip_network db) p →
  files (extract_ip_networks ip_network set_iter io_fails io_cut db s).2 !! p = files s !! p.
Proof. apply only_writes_output_present. Qed.

(** X16. The aggregated file of a version is written even when no domain has a
    group for it: it is then the empty file. *)
Theorem aggregated_empty set_iter io_fails io_cut db s version :
  (∀ op p, io_fails op p = false) → version ∈ ip_versions →
  visited version (domains (scan_groups ip_network db)) = [] →
  files (extract_ip_networks ip_network set_iter io_fails io_cut db s).2
    !! aggregated_path version = Some EmptyString.
Proof.
  intros io_ok Hv Hvis. unfold extract_ip_networks. set (g := scan_groups ip_network db).
  destruct (scan_groups_tables_ok ip_network db) as (Hc & _ & Hnd & Hkeys).
  fold g in Hc, Hnd, Hkeys, Hvis.
  assert (Hagg : "aggregated" ∉ (domains g).*1)
    by (intros H; exact (aggregated_not_domain_key (Hkeys _ H))).
  assert (Htexts : (domain_texts set_iter version (domains g)).*2 = []).
  { rewrite <- (domain_texts_visited set_iter) in Hvis.
    by destruct (domain_texts set_iter version (domains g)). }
  destruct (version_pass_files set_iter io_fails io_cut io_ok g "ipv4" s Hc Hnd Hagg)
    as (s1 & Hp1 & _ & _ & Ha1).
  destruct (version_pass_files set_iter io_fails io_cut io_ok g "ipv6" s1 Hc Hnd Hagg)
    as (s2 & Hp2 & _ & _ & Ha2).
  unfold output_phase, ip_versions. cbn [for_each].
  rewrite (bind_ok _ _ _ _ _ Hp1), (bind_ok _ _ _ _ _ Hp2). cbn.
  apply elem_of_cons in Hv as [->|Hv];
    [|apply elem_of_cons in Hv as [->|Hv]; [|by apply elem_of_nil in Hv]].
  - pose proof (only_writes_version_pass set_iter io_fails io_cut g "ipv6" s1
                  (aggregated_path "ipv4")) as H.
    rewrite Hp2 in H. cbn in H. rewrite H, Ha1, Htexts; [done|].
    intros Ht. apply targets_version in Ht. discriminate.
  - by rewrite Ha2, Htexts.
Qed.

End Extract.

Lemma extract_order_independent_witness :
  ∃ s1' s2',
    extract_ip_networks Sample.ip_network Sample.set_iter Sample.no_failure Sample.cut
      Sample.db Sample.empty_fs = (Ok tt, s1')
    ∧ extract_ip_networks Sample.ip_network Sample.set_iter_rev Sample.no_failure
        Sample.cut Sample.db Sample.used_fs = (Ok tt, s2')
    ∧ ∀ p, written (scan_groups Sample.ip_network Sample.db) p →
           is_Some (files s1' !! p) ∧ files s1' !! p = files s2' !! p.
Proof.
  apply (extract_order_independent Sample.ip_network Sample.set_iter
           Sample.set_iter_rev Sample.no_failure Sample.no_failure Sample.cut Sample.cut
           Sample.db Sample.empty_fs Sample.used_fs).
  - intros. reflexivity.
  - intros. apply reverse_Permutation.
  - reflexivity.
  - reflexivity.
Defined.

Lemma extract_zone_files_witness :
  ∃ s', extract_ip_networks Sample.ip_network Sample.set_iter Sample.no_failure Sample.cut
          Sample.db Sample.empty_fs = (Ok tt, s')
        ∧ ∀ version key m st, version ∈ ip_versions → m !! version = Some st →
            ((key, m) ∈ countries (scan_groups Sample.ip_network Sample.db) →
             files s' !! zone_path "countries" version key
             = Some (zone_text
                       (group_networks Sample.set_iter "countries" key version st)))
            ∧ ((key, m) ∈ domains (scan_groups Sample.ip_network Sample.db) →
               files s' !! zone_path "domains" version key
               = Some (zone_text
                         (group_networks Sample.set_iter "domains" key version st))).
Proof.
  exact (extract_zone_files Sample.ip_network Sample.set_iter Sample.no_failure Sample.cut
           Sample.db Sample.empty_fs (fun _ _ => eq_refl)).
Defined.

Lemma sample_domain_keys :
  (domains (scan_groups Sample.ip_network Sample.db)).*1
  = ["qq.com"; "baidu.com"; "chinatelecom.cn"].
Proof. vm_compute. reflexivity. Qed.

Lemma extract_writes_only_witness :
  files (extract_ip_networks Sample.ip_network Sample.set_iter Sample.qq_fails Sample.cut
           Sample.db Sample.empty_fs).2 !! ["domains"; "ipv4"; "example.org.zone"]
  = files Sample.empty_fs !! ["domains"; "ipv4"; "example.org.zone"].
Proof.
  apply extract_writes_only.
  intros (version & Hv & [H|[(c & m & Hin & _ & H)|(d & m & Hin & _ & H)]]).
  - discriminate.
  - discriminate.
  - injection H as <- Hd. apply (append_inj_r "example.org" d ".zone") in Hd as <-.
    assert (Hk : "example.org" ∈ (domains (scan_groups Sample.ip_network Sample.db)).*1)
      by (apply list_elem_of_fmap; by exists ("example.org", m)).
    rewrite sample_domain_keys in Hk.
    repeat (apply elem_of_cons in Hk as [Hk|Hk]; [discriminate|]).
    by apply elem_of_nil in Hk.
Defined.

Lemma aggregated_empty_witness :
  files (extract_ip_networks Sample.ip_network Sample.set_iter Sample.no_failure Sample.cut
           Sample.db Sample.empty_fs).2 !! aggregated_path "ipv6" = Some EmptyString.
Proof.
  apply aggregated_empty; [reflexivity| |reflexivity].
  apply list_elem_of_further, list_elem_of_here.
Defined.

End RunFacts.

(** ** More on the classifier *)

Module RecordFacts.
Import PyStr Rules Classifier Records ClassifierFacts.

Lemma filter_names_cons kv (m : list (string * value)) :
  filter (fun kv => kv.1 ∈ names) (kv :: m)
  = if decide (kv.1 ∈ names) then kv :: filter (fun kv => kv.1 ∈ names) m
    else filter (fun kv => kv.1 ∈ names) m.
Proof. reflexivity. Qed.

Lemma kwarg_filter (m : list (string * value)) name :
  name ∈ names → kwarg (filter (fun kv => kv.1 ∈ names) m) name = kwarg m name.
Proof.
  intros Hn. induction m as [|[k v] m IH]; [reflexivity|].
  rewrite filter_names_cons. cbn [fst kwarg].
  destruct (decide (k ∈ names)) as [Hk|Hk]; cbn [kwarg].
  - destruct (decide (k = name)); [reflexivity|exact IH].
  - rewrite decide_False by (intros ->; done). exact IH.
Qed.

Lemma kwarg_elem (m : list (string * value)) name v :
  NoDup m.*1 → (name, v) ∈ m → kwarg m name = v.
Proof.
  induction m as [|[k w] m IH]; intros Hnd Hin; [by apply elem_of_nil in Hin|].
  cbn [fmap list_fmap fst] in Hnd. apply NoDup_cons in Hnd as [Hk Hnd].
  cbn [kwarg]. apply elem_of_cons in Hin as [[= <- <-]|Hin].
  - by rewrite decide_True.
  - rewrite decide_False; [by apply IH|]. intros ->. apply Hk.
    apply list_elem_of_fmap. by exists (name, v).
Qed.

Lemma kwarg_missing (m : list (string * value)) name :
  name ∉ m.*1 → kwarg m name = VStr EmptyString.
Proof.
  induction m as [|[k w] m IH]; intros Hn; [reflexivity|].
  cbn [fmap list_fmap fst] in Hn. apply not_elem_of_cons in Hn as [Hne Hn].
  cbn [kwarg]. rewrite decide_False by done. by apply IH.
Qed.

Lemma field_from_dict (m : list (string * value)) name :
  name ∈ names →
  ∃ ip, from_dict (VMap m) = Ok ip ∧ field ip name = Some (kwarg m name).
Proof.
  intros Hn. eexists. split; [reflexivity|].
  unfold field. cbn [continent continent_code country country_code as_domain as_name asn].
  unfold names in Hn.
  repeat (apply elem_of_cons in Hn as [->|Hn];
          [repeat (destruct (decide _) as [Hd|Hd];
                   try discriminate Hd; try (by destruct Hd); try clear Hd);
           rewrite kwarg_filter
             by (unfold names;
                 repeat first [apply list_elem_of_here|apply list_elem_of_further]);
           reflexivity|]).
  by apply elem_of_nil in Hn.
Qed.

(** X17. [from_dict] round trip: a field of the dataclass holds the value the
    mapping has under the field's name, and the default, the empty text,
    when the mapping has no such key. *)
Theorem from_dict_field (m : list (string * value)) name :
  NoDup m.*1 → name ∈ names →
  ∃ ip, from_dict (VMap m) = Ok ip
        ∧ (∀ v, (name, v) ∈ m → field ip name = Some v)
        ∧ (name ∉ m.*1 → field ip name = Some (VStr EmptyString)).
Proof.
  intros Hnd Hn. destruct (field_from_dict m name Hn) as (ip & Hip & Hf).
  exists ip. split; [done|]. split.
  - intros v Hv. by rewrite Hf, (kwarg_elem m name v).
  - intros Hno. by rewrite Hf, kwarg_missing.
Qed.

Lemma filter_names_app (m1 m2 : list (string * value)) :
  filter (fun kv => kv.1 ∈ names) (m1 ++ m2)
  = filter (fun kv => kv.1 ∈ names) m1 ++ filter (fun kv => kv.1 ∈ names) m2.
Proof.
  induction m1 as [|kv m1 IH]; [reflexivity|].
  cbn [app]. rewrite !filter_names_cons. destruct (decide _); cbn [app]; by rewrite IH.
Qed.

(** X18. [from_dict] does not look at keys that are not field names: an entry
    under such a key, wherever it stands, changes nothing. *)
Theorem from_dict_ignores_unknown (m1 m2 : list (string * value)) k v :
  k ∉ names → from_dict (VMap (m1 ++ (k, v) :: m2)) = from_dict (VMap (m1 ++ m2)).
Proof.
  intros Hk. unfold from_dict.
  rewrite !filter_names_app, filter_names_cons. cbn [fst].
  by rewrite decide_False.
Qed.

(** X19. A mapping with no field name among its keys, the empty mapping
    included, gives the [IPInfo] of the defaults, which is neither CN nor
    in the domain filter. *)
Theorem from_dict_defaults (m : list (string * value)) :
  (∀ k, k ∈ m.*1 → k ∉ names) →
  from_dict (VMap m) = Ok empty_info
  ∧ is_cn empty_info = false ∧ is_filter_domain empty_info = Ok false.
Proof.
  intros Hm. split; [|split; reflexivity].
  assert (Hf : filter (fun kv => kv.1 ∈ names) m = []).
  { induction m as [|[k v] m IH]; [reflexivity|].
    rewrite filter_names_cons. cbn [fst].
    rewrite decide_False by (apply Hm; left).
    apply IH. intros k' Hk'. apply Hm. by right. }
  unfold from_dict. rewrite Hf. reflexivity.
Qed.

Lemma empty_domain_no_rule : AS_DOMAIN_KV !! EmptyString = None.
Proof. vm_compute. reflexivity. Qed.

(** X20. [is_filter_domain] raises in two cases only: the AS domain is a
    non-empty array or map, which the table lookup refuses as a key, or the
    domain has a rule that asks for the AS name and the AS name is not
    text. *)
Theorem is_filter_domain_raises ip :
  raised (is_filter_domain ip) = true
  ↔ (truthy (as_domain ip) = true ∧ unhashable (as_domain ip) = true)
    ∨ (∃ dom obj, as_domain ip = VStr dom ∧ AS_DOMAIN_KV !! dom = Some obj
                  ∧ use_as_name obj = true ∧ is_text (as_name ip) = false).
Proof.
  unfold is_filter_domain.
  destruct (as_domain ip) as [dom|z|b|b|l|m] eqn:Hd; unfold kv_get, res_bind.
  - cbn [truthy unhashable]. destruct (AS_DOMAIN_KV !! dom) as [obj|] eqn:Hobj.
    + assert (Hne : nonempty dom = true).
      { destruct dom; [|reflexivity]. rewrite empty_domain_no_rule in Hobj. discriminate. }
      rewrite Hne, (AS_DOMAIN_KV_is_filter dom obj Hobj).
      destruct (use_as_name obj) eqn:Hu.
      * unfold regex_search.
        destruct (as_name ip) eqn:Hn; cbn [raised is_text]; split;
          try (intros _; right; by exists dom, obj);
          try (intros [=]);
          try (intros [[_ [=]]|(? & ? & _ & _ & _ & [=])]).
        all: reflexivity.
      * cbn [raised]. split; [discriminate|].
        intros [[_ [=]]|(? & obj' & [= <-] & Hobj' & Hu' & _)].
        rewrite Hobj in Hobj'. injection Hobj' as <-. congruence.
    + assert (Hno : raised (if nonempty dom then Ok false else Ok false) = false)
        by (destruct (nonempty dom); reflexivity).
      rewrite Hno. split; [discriminate|].
      intros [[_ ?]|(? & ? & [= <-] & ? & _)]; [discriminate|congruence].
  - cbn. destruct (negb (z =? 0)%Z); cbn; split; try discriminate;
      intros [[_ ?]|(? & ? & ? & _)]; discriminate.
  - cbn. destruct b; cbn; split; try discriminate;
      intros [[_ ?]|(? & ? & ? & _)]; discriminate.
  - cbn. destruct b; cbn; split; try discriminate;
      intros [[_ ?]|(? & ? & ? & _)]; discriminate.
  - cbn. destruct l; cbn; split; try discriminate; auto;
      intros [[? _]|(? & ? & ? & _)]; discriminate.
  - cbn. destruct m; cbn; split; try discriminate; auto;
      intros [[? _]|(? & ? & ? & _)]; discriminate.
Qed.

Lemma from_dict_field_witness :
  ∃ ip, from_dict (Sample.record "CN" "qq.com" "Tencent") = Ok ip
        ∧ (∀ v, ("as_domain", v)
                ∈ [("country_code", VStr "CN"); ("as_domain", VStr "qq.com");
                   ("as_name", VStr "Tencent")] → field ip "as_domain" = Some v)
        ∧ ("as_domain" ∉ [("country_code", VStr "CN"); ("as_domain", VStr "qq.com");
                          ("as_name", VStr "Tencent")].*1 →
           field ip "as_domain" = Some (VStr EmptyString)).
Proof.
  apply (from_dict_field [("country_code", VStr "CN"); ("as_domain", VStr "qq.com");
                          ("as_name", VStr "Tencent")] "as_domain").
  - cbn. repeat (apply NoDup_cons; split; [rewrite ?elem_of_cons; intros H;
      repeat (destruct H as [H|H]; [discriminate|]); by apply elem_of_nil in H|]).
    apply NoDup_nil_2.
  - unfold names. do 4 apply list_elem_of_further. apply list_elem_of_here.
Defined.

Lemma from_dict_ignores_unknown_witness :
  from_dict (VMap ([("country_code", VStr "CN")] ++ ("city", VStr "Wuhan")
                     :: [("as_name", VStr "Tencent")]))
  = from_dict (VMap ([("country_code", VStr "CN")] ++ [("as_name", VStr "Tencent")])).
Proof.
  apply from_dict_ignores_unknown. unfold names. rewrite !elem_of_cons.
  intros H. repeat (destruct H as [H|H]; [discriminate|]). by apply elem_of_nil in H.
Defined.

Lemma from_dict_defaults_witness :
  from_dict (VMap [("city", VStr "Wuhan")]) = Ok empty_info
  ∧ is_cn empty_info = false ∧ is_filter_domain empty_info = Ok false.
Proof.
  apply from_dict_defaults. intros k Hk. cbn in Hk.
  apply list_elem_of_singleton in Hk as ->. unfold names. rewrite !elem_of_cons.
  intros H. repeat (destruct H as [H|H]; [discriminate|]). by apply elem_of_nil in H.
Defined.

End RecordFacts.

(** ** Dotted keys *)

Module DotvFacts.
Import PyStr Classifier Dotv StrFacts.

Lemma split_nonempty sep s : split sep s ≠ [].
Proof.
  destruct s as [|c r]; cbn [split]; [done|].
  destruct (decide (c = sep)); [done|]. by destruct (split sep r).
Qed.

(** A text without the separator is one piece. *)
Lemma split_free sep s : free_of sep s → split sep s = [s].
Proof.
  induction s as [|c r IH]; intros Hf; [reflexivity|].
  destruct Hf as [Hc Hf]. cbn [split].
  rewrite decide_False by done. by rewrite IH.
Qed.

(** The first piece ends at the first separator. *)
Lemma split_app sep a rest :
  free_of sep a → split sep (a ++ String sep rest)%string = a :: split sep rest.
Proof.
  induction a as [|c r IH]; intros Hf.
  - change (EmptyString ++ String sep rest)%string with (String sep rest).
    cbn [split]. by rewrite decide_True.
  - destruct Hf as [Hc Hf]. rewrite append_cons. cbn [split].
    rewrite decide_False by done. by rewrite IH.
Qed.

Lemma last_cons_nonempty {A} (x : A) l d : l ≠ [] → List.last (x :: l) d = List.last l d.
Proof. by destruct l. Qed.

Lemma removelast_cons_nonempty {A} (x : A) (l : list A) :
  l ≠ [] → removelast (x :: l) = x :: removelast l.
Proof. by destruct l. Qed.

(** Below an empty map every step lands on an empty map again. *)
Lemma descend_empty part : descend part (VMap []) = Ok (VMap []).
Proof. induction part as [|v rest IH]; [reflexivity|exact IH]. Qed.

Lemma descend_map part items :
  match descend part (VMap items) with
  | Ok (VMap _) | Raise ValueError => True
  | _ => False
  end.
Proof.
  revert items. induction part as [|v rest IH]; intros items; cbn [descend]; [done|].
  destruct (get_or_empty items v); try done. apply IH.
Qed.

(** X21. A key without a dot is a plain [dict.get] with a default. *)
Theorem dotv_plain {T} (items : list (string * value)) key (default : T) :
  free_of "." key →
  dotv (VMap items) key default
  = Ok (match dict_get items key with Some x => inl x | None => inr default end).
Proof.
  intros Hf. unfold dotv. rewrite (split_free _ _ Hf). reflexivity.
Qed.

(** X22. A dotted key goes one level down: the part before the first dot is
    looked up, and the rest of the key is resolved in the map found there;
    a value that is there, is truthy and is no map raises [ValueError]. *)
Theorem dotv_step {T} (items : list (string * value)) a rest (default : T) :
  free_of "." a →
  dotv (VMap items) (a ++ String "." rest)%string default
  = match get_or_empty items a with
    | VMap items' => dotv (VMap items') rest default
    | _ => Raise ValueError
    end.
Proof.
  intros Hf. unfold dotv. rewrite (split_app _ _ _ Hf).
  pose proof (split_nonempty "." rest) as Hne.
  rewrite (last_cons_nonempty _ _ _ Hne), (removelast_cons_nonempty _ _ Hne).
  cbn [descend]. by destruct (get_or_empty items a).
Qed.

(** X23. A first part that is missing, or is there with a falsy value ([0],
    the empty text, an empty list or map, [False]), gives the default,
    whatever the rest of the key is: the falsy value is taken for an empty
    map, and nothing is raised. *)
Theorem dotv_missing {T} (items : list (string * value)) a rest (default : T) :
  free_of "." a →
  match dict_get items a with Some x => truthy x = false | None => True end →
  dotv (VMap items) (a ++ String "." rest)%string default = Ok (inr default).
Proof.
  intros Hf Hx. unfold dotv. rewrite (split_app _ _ _ Hf).
  pose proof (split_nonempty "." rest) as Hne.
  rewrite (last_cons_nonempty _ _ _ Hne), (removelast_cons_nonempty _ _ Hne).
  cbn [descend]. unfold get_or_empty.
  assert (Hg : match dict_get items a with
               | Some x => if truthy x then x else VMap []
               | None => VMap []
               end = VMap []).
  { destruct (dict_get items a); [by rewrite Hx|done]. }
  rewrite Hg, descend_empty. reflexivity.
Qed.

(** X24. What [dotv] raises: on a map, [ValueError] or nothing; on anything
    else, [AttributeError], whatever the key. *)
Theorem dotv_errors {T} (data : value) key (default : T) :
  match data with
  | VMap _ =>
      match dotv data key default with
      | Ok _ | Raise ValueError => True
      | _ => False
      end
  | _ => dotv data key default = Raise AttributeError
  end.
Proof.
  unfold dotv.
  destruct data as [s|z|b|b|l|items];
    try (by destruct (removelast (split "." key))).
  pose proof (descend_map (removelast (split "." key)) items) as Hd.
  destruct (descend _ _) as [[]|[]]; done.
Qed.

(** The examples of the docstring. *)
Example dotv_docstring :
  let data := VMap [("a", VMap [("b", VMap [("c", VStr "foo")])])] in
  dotv data "a.b" tt = Ok (inl (VMap [("c", VStr "foo")]))
  ∧ dotv data "a.b.c" tt = Ok (inl (VStr "foo")).
Proof. split; reflexivity. Qed.

Lemma dotv_plain_witness :
  dotv (VMap [("country", VStr "China")]) "country" 0%Z = Ok (inl (VStr "China")).
Proof.
  apply (dotv_plain [("country", VStr "China")] "country" 0%Z).
  cbn. repeat split; discriminate.
Defined.

Lemma dotv_step_witness :
  dotv (VMap [("a", VMap [("b", VStr "foo")])]) "a.b" tt
  = dotv (VMap [("b", VStr "foo")]) "b" tt.
Proof.
  apply (dotv_step [("a", VMap [("b", VStr "foo")])] "a" "b" tt).
  cbn. repeat split; discriminate.
Defined.

Lemma dotv_missing_witness :
  dotv (VMap [("a", VInt 0)]) "a.b.c" tt = Ok (inr tt).
Proof.
  apply (dotv_missing [("a", VInt 0)] "a" "b.c" tt).
  - cbn. repeat split; discriminate.
  - reflexivity.
Defined.

End DotvFacts.

(** ** What the keyword pattern matches *)

Module PatternFacts.
Import PyStr Re Rules Classifier Pattern StrFacts.

(** The compiled pattern, branch by branch: the first keyword behind a
    [\b], the last before one, the others bare. *)
Lemma REGEX_AS_NAME_branches :
  REGEX_AS_NAME
  = (WordB :: lits "Beijing")
      :: map lits [ "Tianjin"; "Hebei"; "Jiangsu"; "Nanjing"; "Sichuan"; "SHAANXI";
                    "Xiamen"; "Shandong"; "Qingdao"; "Jinan"; "Guizhou";
                    "Guangdong"; "NINGXIA"; "Yunnan" ]
      ++ [lits "Cloud Computing Corporation" ++ [WordB]].
Proof. vm_compute. reflexivity. Qed.

Lemma char_lower_idemp c : char_lower (char_lower c) = char_lower c.
Proof. destruct c as [[] [] [] [] [] [] [] []]; reflexivity. Qed.

Lemma is_word_char_lower c : is_word (char_lower c) = is_word c.
Proof. destruct c as [[] [] [] [] [] [] [] []]; reflexivity. Qed.

Lemma ci_eq_spec c d : ci_eq c d = true ↔ char_lower c = char_lower d.
Proof. unfold ci_eq. apply bool_decide_eq_true. Qed.

Lemma ci_eq_lower c d : ci_eq c (char_lower d) = ci_eq c d.
Proof. unfold ci_eq. by rewrite char_lower_idemp. Qed.

Lemma lower_cons_inv m c k :
  lower m = lower (String c k) →
  ∃ d m', m = String d m' ∧ char_lower d = char_lower c ∧ lower m' = lower k.
Proof.
  destruct m as [|d m']; cbn [lower]; [discriminate|].
  intros [= Hd Hm]. by exists d, m'.
Qed.

(** A literal branch matches here exactly when the text goes on with its
    characters, letters compared up to case. *)
Lemma match_lits k prev s :
  match_here (lits k) prev s = true ↔ ∃ m post, s = (m ++ post)%string ∧ lower m = lower k.
Proof.
  revert prev s. induction k as [|c k IH]; intros prev s; cbn [lits match_here].
  - split; [intros _; by exists EmptyString, s|done].
  - destruct s as [|d s'].
    + split; [done|]. intros (m & post & Hs & Hm).
      apply lower_cons_inv in Hm as (d & m' & -> & _). rewrite append_cons in Hs. discriminate.
    + rewrite andb_true_iff, ci_eq_spec, IH. split.
      * intros (Hc & m & post & -> & Hm). exists (String d m), post.
        split; [by rewrite append_cons|]. cbn [lower]. by rewrite Hc, Hm.
      * intros (m & post & Hs & Hm).
        apply lower_cons_inv in Hm as (d' & m' & -> & Hd & Hm).
        rewrite append_cons in Hs. injection Hs as -> ->.
        split; [done|]. by exists m', post.
Qed.

(** The same before a closing [\b]. *)
Lemma match_lits_boundary k prev s :
  match_here (lits k ++ [WordB]) prev s = true
  ↔ ∃ m post, s = (m ++ post)%string ∧ lower m = lower k
              ∧ at_boundary (last_or prev m) post = true.
Proof.
  revert prev s. induction k as [|c k IH]; intros prev s; cbn [lits app match_here].
  - rewrite andb_true_r. split.
    + intros Hb. by exists EmptyString, s.
    + intros (m & post & -> & Hm & Hb). by destruct m.
  - destruct s as [|d s'].
    + split; [done|]. intros (m & post & Hs & Hm & _).
      apply lower_cons_inv in Hm as (d & m' & -> & _). rewrite append_cons in Hs. discriminate.
    + rewrite andb_true_iff, ci_eq_spec, IH. split.
      * intros (Hc & m & post & -> & Hm & Hb). exists (String d m), post.
        split; [by rewrite append_cons|]. split; [|exact Hb].
        cbn [lower]. by rewrite Hc, Hm.
      * intros (m & post & Hs & Hm & Hb).
        apply lower_cons_inv in Hm as (d' & m' & -> & Hd & Hm).
        rewrite append_cons in Hs. injection Hs as -> ->.
        split; [done|]. by exists m', post.
Qed.

(** [search] tries every position. *)
Lemma search_from_spec r prev s :
  search_from r prev s = true
  ↔ ∃ pre post, s = (pre ++ post)%string
                ∧ ∃ b, b ∈ r ∧ match_here b (last_or prev pre) post = true.
Proof.
  revert prev. induction s as [|d s' IH]; intros prev; cbn [search_from].
  - rewrite orb_false_r, existsb_exists. split.
    + intros (b & Hb & Hm). exists EmptyString, EmptyString. split; [done|].
      exists b. split; [by apply list_elem_of_In|done].
    + intros (pre & post & Hs & b & Hb & Hm).
      destruct pre; [|rewrite append_cons in Hs; discriminate].
      change (EmptyString ++ post)%string with post in Hs. subst post.
      exists b. split; [by apply list_elem_of_In|done].
  - rewrite orb_true_iff, existsb_exists, IH. split.
    + intros [(b & Hb & Hm)|(pre & post & -> & b & Hb & Hm)].
      * exists EmptyString, (String d s'). split; [done|].
        exists b. split; [by apply list_elem_of_In|done].
      * exists (String d pre), post. split; [by rewrite append_cons|]. by exists b.
    + intros (pre & post & Hs & b & Hb & Hm). destruct pre as [|c pre].
      * change (EmptyString ++ post)%string with post in Hs. subst post.
        left. exists b. split; [by apply list_elem_of_In|done].
      * rewrite append_cons in Hs. injection Hs as -> ->.
        right. exists pre, post. split; [done|]. by exists b.
Qed.

(** A text equal to a keyword up to case starts and ends like it. *)
Lemma lower_eq_head m k :
  lower m = lower k → is_word_opt (head_char m) = is_word_opt (head_char k).
Proof.
  destruct m as [|c m], k as [|d k]; cbn [lower]; try discriminate; [done|].
  intros [= Hc _]. cbn. by rewrite <- (is_word_char_lower c), Hc, is_word_char_lower.
Qed.

Lemma lower_eq_last m k prev :
  lower m = lower k → is_word_opt (last_or prev m) = is_word_opt (last_or prev k).
Proof.
  revert k prev. induction m as [|c m IH]; intros [|d k] prev; cbn [lower];
    try discriminate; [done|].
  intros [= Hc Hm]. cbn [last_or]. destruct m as [|c' m], k as [|d' k];
    try discriminate.
  - cbn. by rewrite <- (is_word_char_lower c), Hc, is_word_char_lower.
  - specialize (IH (String d' k) (Some c) Hm). cbn [last_or] in IH |- *. exact IH.
Qed.

Lemma middle_keyword kw :
  kw ∈ AS_NAME_KEYWORDS → kw ≠ "Beijing" → kw ≠ "Cloud Computing Corporation" →
  lits kw ∈ REGEX_AS_NAME.
Proof.
  intros Hkw H1 H2. rewrite REGEX_AS_NAME_branches. apply list_elem_of_further.
  apply elem_of_app. left. apply list_elem_of_fmap. exists kw. split; [done|].
  unfold AS_NAME_KEYWORDS in Hkw. apply elem_of_cons in Hkw as [->|Hkw]; [done|].
  change (kw ∈ [ "Tianjin"; "Hebei"; "Jiangsu"; "Nanjing"; "Sichuan"; "SHAANXI";
                 "Xiamen"; "Shandong"; "Qingdao"; "Jinan"; "Guizhou";
                 "Guangdong"; "NINGXIA"; "Yunnan" ] ++ ["Cloud Computing Corporation"])
    in Hkw.
  apply elem_of_app in Hkw as [Hkw|Hkw]; [done|].
  by apply list_elem_of_singleton in Hkw.
Qed.

Lemma inner_keyword kw :
  kw ∈ [ "Tianjin"; "Hebei"; "Jiangsu"; "Nanjing"; "Sichuan"; "SHAANXI";
         "Xiamen"; "Shandong"; "Qingdao"; "Jinan"; "Guizhou";
         "Guangdong"; "NINGXIA"; "Yunnan" ] →
  kw ∈ AS_NAME_KEYWORDS ∧ kw ≠ "Beijing" ∧ kw ≠ "Cloud Computing Corporation".
Proof.
  intros Hkw. split.
  - unfold AS_NAME_KEYWORDS. apply list_elem_of_further.
    change (kw ∈ [ "Tianjin"; "Hebei"; "Jiangsu"; "Nanjing"; "Sichuan"; "SHAANXI";
                   "Xiamen"; "Shandong"; "Qingdao"; "Jinan"; "Guizhou";
                   "Guangdong"; "NINGXIA"; "Yunnan" ] ++ ["Cloud Computing Corporation"]).
    apply elem_of_app. by left.
  - split; intros ->; revert Hkw; rewrite !elem_of_cons;
      intros Hkw; repeat (destruct Hkw as [Hkw|Hkw]; [discriminate|]);
      by apply elem_of_nil in Hkw.
Qed.

(** X25. In an ASCII text the keyword pattern finds a match exactly when the
    text contains one of the keywords, letters compared up to case. A
    word boundary is asked for in two places only: before [Beijing] and
    after [Cloud Computing Corporation]; every other keyword, and the other
    end of these two, may stand inside a longer word. *)
Theorem REGEX_AS_NAME_matches s :
  is_ascii s = true →
  search REGEX_AS_NAME s = true
  ↔ ∃ kw pre m post,
      kw ∈ AS_NAME_KEYWORDS ∧ s = (pre ++ m ++ post)%string ∧ lower m = lower kw
      ∧ (kw = "Beijing" → word_before pre = false)
      ∧ (kw = "Cloud Computing Corporation" → word_after post = false).
Proof.
  intros _. unfold search. rewrite search_from_spec. split.
  - intros (pre & rest & -> & b & Hb & Hm).
    rewrite REGEX_AS_NAME_branches in Hb.
    apply elem_of_cons in Hb as [->|Hb]; [|apply elem_of_app in Hb as [Hb|Hb]].
    + cbn [match_here] in Hm. apply andb_true_iff in Hm as [Hbd Hm].
      apply match_lits in Hm as (m & post & -> & Hm).
      exists "Beijing", pre, m, post. split; [apply list_elem_of_here|].
      split; [done|]. split; [done|]. split; [|discriminate].
      intros _. unfold word_before. unfold at_boundary in Hbd.
      assert (Hh : is_word_opt (head_char (m ++ post)%string) = true).
      { destruct (lower_cons_inv _ _ _ Hm) as (d & m' & -> & _).
        rewrite append_cons. cbn [head_char].
        change (is_word_opt (head_char (String d m')) = true).
        by rewrite (lower_eq_head _ _ Hm). }
      rewrite Hh in Hbd. by destruct (is_word_opt (last_or None pre)).
    + apply list_elem_of_fmap in Hb as (kw & -> & Hkw).
      apply match_lits in Hm as (m & post & -> & Hm).
      exists kw, pre, m, post.
      destruct (inner_keyword kw Hkw) as (Hin & Hn1 & Hn2).
      by repeat split.
    + apply list_elem_of_singleton in Hb as ->.
      apply match_lits_boundary in Hm as (m & post & -> & Hm & Hbd).
      exists "Cloud Computing Corporation", pre, m, post.
      split; [unfold AS_NAME_KEYWORDS;
              repeat first [apply list_elem_of_here|apply list_elem_of_further]|].
      split; [done|]. split; [done|]. split; [discriminate|].
      intros _. unfold word_after. unfold at_boundary in Hbd.
      rewrite (lower_eq_last _ _ _ Hm) in Hbd.
      change (xorb true (is_word_opt (head_char post)) = true) in Hbd.
      by destruct (is_word_opt (head_char post)).
  - intros (kw & pre & m & post & Hkw & -> & Hm & Hfirst & Hlast).
    exists pre, (m ++ post)%string. split; [done|].
    destruct (decide (kw = "Beijing")) as [->|Hn1];
      [|destruct (decide (kw = "Cloud Computing Corporation")) as [->|Hn2]].
    + exists (WordB :: lits "Beijing").
      split; [rewrite REGEX_AS_NAME_branches; apply list_elem_of_here|].
      cbn [match_here]. apply andb_true_iff. split; [|apply match_lits; by exists m, post].
      unfold at_boundary. specialize (Hfirst eq_refl). unfold word_before in Hfirst.
      rewrite Hfirst.
      destruct (lower_cons_inv _ _ _ Hm) as (d & m' & -> & _).
      rewrite append_cons. cbn [head_char].
      change (xorb false (is_word_opt (head_char (String d m'))) = true).
      by rewrite (lower_eq_head _ _ Hm).
    + exists (lits "Cloud Computing Corporation" ++ [WordB]).
      split; [rewrite REGEX_AS_NAME_branches; apply list_elem_of_further;
              apply elem_of_app; right; apply list_elem_of_here|].
      apply match_lits_boundary. exists m, post. split; [done|]. split; [done|].
      unfold at_boundary. specialize (Hlast eq_refl). unfold word_after in Hlast.
      rewrite Hlast, (lower_eq_last _ _ _ Hm). reflexivity.
    + exists (lits kw). split; [by apply middle_keyword|].
      apply match_lits. by exists m, post.
Qed.

(** *** Letter case *)

Lemma head_char_lower s : head_char (lower s) = char_lower <$> head_char s.
Proof. by destruct s. Qed.

Lemma is_word_opt_lower o : is_word_opt (char_lower <$> o) = is_word_opt o.
Proof. destruct o as [c|]; [apply is_word_char_lower|reflexivity]. Qed.

Lemma match_here_lower b prev s :
  match_here b (char_lower <$> prev) (lower s) = match_here b prev s.
Proof.
  revert prev s. induction b as [|[c|] b IH]; intros prev s; cbn [match_here].
  - reflexivity.
  - destruct s as [|d s']; [reflexivity|]. cbn [lower].
    by rewrite ci_eq_lower, <- (IH (Some d) s').
  - unfold at_boundary. by rewrite head_char_lower, !is_word_opt_lower, IH.
Qed.

Lemma existsb_match_lower r prev s :
  existsb (fun b => match_here b (char_lower <$> prev) (lower s)) r
  = existsb (fun b => match_here b prev s) r.
Proof.
  induction r as [|b r IHr]; [reflexivity|]. cbn [existsb].
  by rewrite IHr, match_here_lower.
Qed.

Lemma search_from_lower r prev s :
  search_from r (char_lower <$> prev) (lower s) = search_from r prev s.
Proof.
  revert prev. induction s as [|d s' IH]; intros prev.
  - cbn [search_from]. by rewrite <- (existsb_match_lower r prev EmptyString).
  - change (lower (String d s')) with (String (char_lower d) (lower s')).
    cbn [search_from].
    change (Some (char_lower d)) with (char_lower <$> Some d). rewrite (IH (Some d)).
    by rewrite <- (existsb_match_lower r prev (String d s')).
Qed.

(** X26. [is_filter_domain] does not see the letter case of an ASCII AS
    name: lowering the name changes neither the answer nor the exception.
    (The AS domain is compared as it stands.) *)
Theorem is_filter_domain_as_name_case ip name :
  as_name ip = VStr name → is_ascii name = true →
  is_filter_domain
    (mkIPInfo (continent ip) (continent_code ip) (country ip) (country_code ip)
              (as_domain ip) (VStr (lower name)) (asn ip))
  = is_filter_domain ip.
Proof.
  intros Hn _. unfold is_filter_domain. cbn [as_domain as_name]. rewrite Hn.
  destruct (truthy (as_domain ip)); [|reflexivity].
  destruct (kv_get (as_domain ip)) as [[obj|]|e]; cbn [res_bind]; try reflexivity.
  destruct (is_filter obj), (use_as_name obj); try reflexivity.
  unfold regex_search, search. f_equal. apply (search_from_lower _ None).
Qed.

Lemma is_filter_domain_as_name_case_witness :
  is_filter_domain (text_info "CN" "chinatelecom.cn" (lower "China Telecom BEIJING"))
  = is_filter_domain (text_info "CN" "chinatelecom.cn" "China Telecom BEIJING").
Proof.
  apply (is_filter_domain_as_name_case
           (text_info "CN" "chinatelecom.cn" "China Telecom BEIJING")
           "China Telecom BEIJING"); reflexivity.
Defined.

Lemma REGEX_AS_NAME_matches_witness :
  search REGEX_AS_NAME "China Telecom BEIJING" = true
  ↔ ∃ kw pre m post,
      kw ∈ AS_NAME_KEYWORDS
      ∧ "China Telecom BEIJING" = (pre ++ m ++ post)%string ∧ lower m = lower kw
      ∧ (kw = "Beijing" → word_before pre = false)
      ∧ (kw = "Cloud Computing Corporation" → word_after post = false).
Proof. apply (REGEX_AS_NAME_matches "China Telecom BEIJING"). reflexivity. Defined.

End PatternFacts.
